(** * cric-score-scraper: the scheduled fetch / aggregate / persist pipeline

    A shallow embedding of [src/index.ts] and the properties of its
    specification.

    Modelling conventions.
    - A decoded feed is a tree of [JSON] values, as [JSON.parse] builds it;
      [undefined] is the [None] of [Value].
    - A number of the program is a double. The numbers of the model are the
      doubles of integer value: an integer stands for the double of that
      value, [roundNumber] gives the double nearest to an integer, and the
      sums and products of the program are rounded by it. Fractional
      numbers and infinities are outside the model; the NaN of [parseInt]
      is the [None] of its result.
    - A string of the model is the UTF-8 text of the string of the program;
      white space and line terminators are recognised by their bytes.
    - A read of [teamNames] sees the members that the object inherits.
    - A JavaScript exception is the [Throw] of [Result]; code that mutates
      the store threads a [World] and keeps the writes made before a throw.
    - The store executes every statement it is given and adds integers
      exactly; binding a value that is no text and no number throws. Another
      failure of the database is not modelled.
    - [console] output has no effect on the program and is not modelled. *)

From Stdlib Require Import ZArith String Ascii List Lia Bool.
From stdpp Require Import base option list strings pretty gmap fin_maps.

Local Open Scope string_scope.
Local Open Scope Z_scope.
Set Warnings "-register-all".

(** ** Exceptions and results *)

Inductive Exn : Type :=
| TypeError
| SyntaxError
| NetworkError
| Error (msg : string).

Inductive Result (A : Type) : Type :=
| Ok (a : A)
| Throw (e : Exn).

Arguments Ok {A} a.
Arguments Throw {A} e.

Definition bindR {A B : Type} (r : Result A) (k : A -> Result B) : Result B :=
  match r with
  | Ok a => k a
  | Throw e => Throw e
  end.

Notation "x <- r ;; k" := (bindR r (fun x => k))
  (at level 100, r at next level, right associativity).

(** ** JavaScript values *)

Inductive JSON : Type :=
| JNull
| JBool (b : bool)
| JNum (n : Z)
| JStr (s : string)
| JArr (items : list JSON)
| JObj (members : list (string * JSON)).

(** A value that may be [undefined]. *)
Definition Value : Type := option JSON.

(** Falsy values: [undefined], [null], [false], [0], the empty string. *)
Definition truthy (v : Value) : bool :=
  match v with
  | None => false
  | Some JNull => false
  | Some (JBool b) => b
  | Some (JNum n) => negb (n =? 0)
  | Some (JStr s) => negb (String.eqb s "")
  | Some (JArr _) => true
  | Some (JObj _) => true
  end.

(** [a || b] *)
Definition orElse (a b : Value) : Value := if truthy a then a else b.

(** The own property [key] of an object; a later member of the same name
    overrides an earlier one, as in [JSON.parse]. *)
Fixpoint ownProperty (key : string) (members : list (string * JSON)) : Value :=
  match members with
  | [] => None
  | (k, v) :: rest =>
      match ownProperty key rest with
      | Some w => Some w
      | None => if String.eqb k key then Some v else None
      end
  end.

(** [v.key] for a data key (none of the keys this program reads is a
    built-in property of strings, numbers, booleans or arrays). *)
Definition getProp (key : string) (v : Value) : Result Value :=
  match v with
  | None => Throw TypeError
  | Some JNull => Throw TypeError
  | Some (JObj ms) => Ok (ownProperty key ms)
  | Some _ => Ok None
  end.

(** [v?.key] *)
Definition optProp (key : string) (v : Value) : Value :=
  match v with
  | Some (JObj ms) => ownProperty key ms
  | _ => None
  end.

(** [v?.[0]] *)
Definition optIndex0 (v : Value) : Value :=
  match v with
  | Some (JArr xs) => head xs
  | Some (JStr (String c _)) => Some (JStr (String c EmptyString))
  | Some (JObj ms) => ownProperty "0" ms
  | _ => None
  end.

(** ** Numbers

    A number of the program is a double. The numbers that the aggregation
    computes with are integers, and an integer of the model stands for the
    double of that value. Up to 2^53 every integer is a double; a larger one
    is rounded to the nearest integer with 53 significant bits, a tie going
    to the even significand. *)

Definition roundNumber (z : Z) : Z :=
  let a := Z.abs z in
  if a <=? 2 ^ 53 then z
  else
    let e := Z.log2 a - 52 in
    let q := Z.shiftr a e in
    let r := a - Z.shiftl q e in
    let half := 2 ^ (e - 1) in
    let q' := if (half <? r) || ((r =? half) && Z.odd q) then q + 1 else q in
    Z.sgn z * Z.shiftl q' e.

(** [a + b] and [a * b] on numbers. *)
Definition numAdd (a b : Z) : Z := roundNumber (a + b).

Definition numMul (a b : Z) : Z := roundNumber (a * b).

Arguments roundNumber : simpl never.
Arguments numAdd : simpl never.
Arguments numMul : simpl never.

(** The integer of fewest significant digits that reads back as the
    number [x] of [len] digits, the nearest one when there are two: its
    digits are those that Number::toString prints. *)
Fixpoint shortestFrom (fuel : nat) (k len x : Z) : Z :=
  match fuel with
  | O => x
  | S fuel' =>
      let unit := 10 ^ (len - k) in
      let low := x / unit in
      let high := low + 1 in
      let lowReads := roundNumber (low * unit) =? x in
      let highReads := roundNumber (high * unit) =? x in
      if lowReads && highReads then
        let below := x - low * unit in
        let above := high * unit - x in
        if below <? above then low * unit
        else if above <? below then high * unit
        else if Z.even low then low * unit else high * unit
      else if lowReads then low * unit
      else if highReads then high * unit
      else shortestFrom fuel' (k + 1) len x
  end.

Definition shortest (x : Z) : Z :=
  if x <=? 2 ^ 53 then x
  else shortestFrom 21 1 (Z.of_nat (String.length (pretty x))) x.

(** The text without the zeros at its end. *)
Fixpoint withoutZeros (s : string) : string :=
  match s with
  | EmptyString => EmptyString
  | String c rest =>
      match withoutZeros rest with
      | EmptyString => if Ascii.eqb c "0" then EmptyString else String c EmptyString
      | kept => String c kept
      end
  end.

(** Number::toString on a number of integer value: its digits, followed by
    zeros up to 21 digits in all; beyond that the digits with a point
    behind the first one, and the exponent. Up to 2^53 the text is the
    decimal numeral of the integer. *)
Definition digitsText (x : Z) : string :=
  let digits := pretty (shortest x) in
  if (String.length digits <=? 21)%nat then digits
  else
    let exponent := pretty (Z.of_nat (String.length digits) - 1) in
    match withoutZeros digits with
    | String d EmptyString => String d ("e+" +:+ exponent)
    | String d rest => String d ("." +:+ rest +:+ "e+" +:+ exponent)
    | EmptyString => EmptyString
    end.

Definition numberText (n : Z) : string :=
  if n <? 0 then "-" +:+ digitsText (- n) else digitsText n.

(** The abstract operation ToString. An object that carries its own
    [toString] member (which, coming from JSON, is not callable) cannot be
    converted: OrdinaryToPrimitive finds no callable [toString] and the
    inherited [valueOf] returns the object itself. An array is joined with
    commas, [null] elements giving the empty string. *)
Fixpoint toStr (j : JSON) : Result string :=
  match j with
  | JNull => Ok "null"
  | JBool true => Ok "true"
  | JBool false => Ok "false"
  | JNum n => Ok (numberText n)
  | JStr s => Ok s
  | JArr xs =>
      (fix join (l : list JSON) : Result string :=
         match l with
         | [] => Ok ""
         | x :: rest =>
             match (match x with JNull => Ok "" | _ => toStr x end) with
             | Throw e => Throw e
             | Ok s =>
                 match rest with
                 | [] => Ok s
                 | _ :: _ =>
                     match join rest with
                     | Throw e => Throw e
                     | Ok r => Ok (s +:+ "," +:+ r)
                     end
                 end
             end
         end) xs
  | JObj ms =>
      match ownProperty "toString" ms with
      | Some _ => Throw TypeError
      | None => Ok "[object Object]"
      end
  end.

(** ToString of a possibly undefined value, as a template literal and
    [parseInt] apply it. *)
Definition toStrV (v : Value) : Result string :=
  match v with
  | None => Ok "undefined"
  | Some j => toStr j
  end.

(** The method call [v.toString()]. *)
Definition toStringMethod (v : Value) : Result string :=
  match v with
  | None => Throw TypeError
  | Some JNull => Throw TypeError
  | Some j => toStr j
  end.

(** [a === b] on values met at two different places of decoded feeds:
    primitives compare by value; two objects or arrays are different
    objects, since [JSON.parse] builds trees without sharing. *)
Definition strictEq (a b : JSON) : bool :=
  match a, b with
  | JNull, JNull => true
  | JBool x, JBool y => Bool.eqb x y
  | JNum x, JNum y => x =? y
  | JStr x, JStr y => String.eqb x y
  | _, _ => false
  end.

(** ** Characters

    A string of the model is the UTF-8 text of the string of the program,
    as a string literal of this file holds the characters written in it: a
    character below U+0080 is one byte, another one two to four bytes, none
    of which is below 128. The classes of characters that the program
    tests, white space and line terminators, have members beyond U+007F,
    which are recognised by their bytes. *)

(** The UTF-8 bytes of a code point below U+10000. *)
Definition utf8 (codePoint : Z) : string :=
  let byte (n : Z) := ascii_of_nat (Z.to_nat n) in
  if codePoint <? 128 then String (byte codePoint) ""
  else if codePoint <? 2048 then
    String (byte (192 + codePoint / 64)) (String (byte (128 + codePoint mod 64)) "")
  else
    String (byte (224 + codePoint / 4096))
      (String (byte (128 + (codePoint / 64) mod 64))
         (String (byte (128 + codePoint mod 64)) "")).

(** LineTerminator: LF, CR, LS and PS. *)
Definition lineTerminators : list Z := [10; 13; 8232; 8233].

(** WhiteSpace and LineTerminator, the class of [\s] and of the trimming of
    [parseInt]: TAB, VT, FF, the byte order mark and the space separators
    (SP, NBSP, U+1680, U+2000 to U+200A, U+202F, U+205F, U+3000), then the
    line terminators. *)
Definition whiteSpaces : list Z :=
  [9; 11; 12; 65279;
   32; 160; 5760;
   8192; 8193; 8194; 8195; 8196; 8197; 8198; 8199; 8200; 8201; 8202;
   8239; 8287; 12288] ++ lineTerminators.

(** What follows the prefix [p] in [s]. *)
Fixpoint afterPrefix (p s : string) : option string :=
  match p, s with
  | EmptyString, _ => Some s
  | String a p', String b s' => if Ascii.eqb a b then afterPrefix p' s' else None
  | String _ _, EmptyString => None
  end.

(** What follows the character at the head of [s], when it is of the class. *)
Fixpoint afterOneOf (class : list Z) (s : string) : option string :=
  match class with
  | [] => None
  | codePoint :: others =>
      match afterPrefix (utf8 codePoint) s with
      | Some rest => Some rest
      | None => afterOneOf others s
      end
  end.

Definition whiteSpaceAt (s : string) : option string := afterOneOf whiteSpaces s.

Definition lineTerminatorAt (s : string) : bool :=
  match afterOneOf lineTerminators s with
  | Some _ => true
  | None => false
  end.

(** ** parseInt *)

(** [parseInt] first trims the white space at the head of the text: the
    text loses one white-space character at a time. *)
Fixpoint trimStartFrom (n : nat) (s : string) : string :=
  match n with
  | O => s
  | S n' =>
      match whiteSpaceAt s with
      | Some rest => trimStartFrom n' rest
      | None => s
      end
  end.

Definition trimStart (s : string) : string := trimStartFrom (String.length s) s.

(** The value of [c] as a digit of the given radix (10 or 16). *)
Definition digitValue (radix : Z) (c : ascii) : option Z :=
  let n := Z.of_nat (nat_of_ascii c) in
  let d :=
    if (48 <=? n) && (n <=? 57) then Some (n - 48)
    else if (97 <=? n) && (n <=? 102) then Some (n - 87)
    else if (65 <=? n) && (n <=? 70) then Some (n - 55)
    else None in
  match d with
  | Some k => if k <? radix then Some k else None
  | None => None
  end.

(** The longest prefix of digits, read in the radix; [acc] is the value of
    the digits read so far, [None] when there is none yet. *)
Fixpoint parseDigits (radix : Z) (s : string) (acc : option Z) : option Z :=
  match s with
  | EmptyString => acc
  | String c rest =>
      match digitValue radix c with
      | Some d => parseDigits radix rest (Some (default 0 acc * radix + d))
      | None => acc
      end
  end.

(** The sign at the head of the text, and the text behind it. *)
Definition signAndRest (s : string) : Z * string :=
  match s with
  | String c rest =>
      if Ascii.eqb c "-" then (-1, rest)
      else if Ascii.eqb c "+" then (1, rest)
      else (1, s)
  | EmptyString => (1, s)
  end.

(** The radix that the head of the text asks for, 16 behind [0x] or [0X],
    and the text of the digits. *)
Definition radixAndRest (s : string) : Z * string :=
  match s with
  | String c0 (String c1 rest) =>
      if Ascii.eqb c0 "0" && (Ascii.eqb c1 "x" || Ascii.eqb c1 "X") then (16, rest)
      else (10, s)
  | _ => (10, s)
  end.

(** [parseInt(s)] with no radix argument; [None] is NaN. The value of the
    digits is read as the nearest number. *)
Definition parseIntString (s : string) : option Z :=
  let '(sign, s2) := signAndRest (trimStart s) in
  let '(radix, s3) := radixAndRest s2 in
  match parseDigits radix s3 None with
  | Some n => Some (sign * roundNumber n)
  | None => None
  end.

(** [parseInt(v)]: the argument is converted to a string first. *)
Definition parseInt (v : Value) : Result (option Z) :=
  s <- toStrV v;; Ok (parseIntString s).

(** [n || 0] on a number: NaN and zero give 0. *)
Definition orZero (n : option Z) : Z := default 0 n.

(** ** The aggregation result *)

Record PlayerStats : Type := {
  player_name : JSON;
  dotBallsBowled : Z;
  dotBallsPlayed : Z;
  treesBowling : Z
}.

Record TeamStats : Type := {
  team_name : string;
  totalDotBallsBowled : Z;
  totalTreesPlanted : Z;
  players : list PlayerStats
}.

Record MatchData : Type := {
  timestamp : string;
  teams : list TeamStats
}.

(** [teamStatsMap]: a JavaScript [Map] keeps its keys in insertion order. *)
Definition TeamStatsMap : Type := list (string * TeamStats).

Definition mapHas (key : string) (m : TeamStatsMap) : bool :=
  existsb (fun kv => String.eqb (fst kv) key) m.

Fixpoint mapGet (key : string) (m : TeamStatsMap) : option TeamStats :=
  match m with
  | [] => None
  | (k, v) :: rest => if String.eqb k key then Some v else mapGet key rest
  end.

(** [set] keeps the position of a key that is present and appends a new one. *)
Fixpoint mapSet (key : string) (v : TeamStats) (m : TeamStatsMap) : TeamStatsMap :=
  match m with
  | [] => [(key, v)]
  | (k, w) :: rest =>
      if String.eqb k key then (k, v) :: rest else (k, w) :: mapSet key v rest
  end.

Definition TREES_PER_DOT_BALL : Z := 18.

Definition newTeam (name : string) : TeamStats :=
  {| team_name := name; totalDotBallsBowled := 0; totalTreesPlanted := 0;
     players := [] |}.

(** [if (!teamStatsMap.has(t)) teamStatsMap.set(t, {...})] *)
Definition ensureTeam (t : string) (m : TeamStatsMap) : TeamStatsMap :=
  if mapHas t m then m else mapSet t (newTeam t) m.

(** A value when it is truthy. *)
Definition whenTruthy (v : Value) : option JSON :=
  match v with
  | Some j => if truthy v then Some j else None
  | None => None
  end.

(** [bowler.PlayerShortName || bowler.PlayerName || `Player${bowler.PlayerID}`] *)
Definition bowlerName (bowler : JSON) : Result JSON :=
  short <- getProp "PlayerShortName" (Some bowler);;
  match whenTruthy short with
  | Some j => Ok j
  | None =>
      full <- getProp "PlayerName" (Some bowler);;
      match whenTruthy full with
      | Some j => Ok j
      | None =>
          id <- getProp "PlayerID" (Some bowler);;
          s <- toStrV id;;
          Ok (JStr ("Player" +:+ s))
      end
  end.

(** [parseInt(bowler.DotBalls) || 0] *)
Definition bowlerDotBalls (bowler : JSON) : Result Z :=
  field <- getProp "DotBalls" (Some bowler);;
  parsed <- parseInt field;;
  Ok (orZero parsed).

Definition sameName (nm : JSON) (p : PlayerStats) : Prop :=
  strictEq (player_name p) nm = true.

#[global] Instance sameName_dec nm p : Decision (sameName nm p).
Proof. unfold sameName. apply _. Defined.

Definition addToPlayer (dotBalls treesPlanted : Z) (p : PlayerStats) : PlayerStats :=
  {| player_name := player_name p;
     dotBallsBowled := numAdd (dotBallsBowled p) dotBalls;
     dotBallsPlayed := dotBallsPlayed p;
     treesBowling := numAdd (treesBowling p) treesPlanted |}.

Definition newPlayer (nm : JSON) (dotBalls treesPlanted : Z) : PlayerStats :=
  {| player_name := nm; dotBallsBowled := dotBalls; dotBallsPlayed := 0;
     treesBowling := treesPlanted |}.

(** [team.players.find(p => p.name === bowlerName)], then the update of the
    player found or the push of a new one. *)
Definition creditPlayer (nm : JSON) (dotBalls treesPlanted : Z)
    (ps : list PlayerStats) : list PlayerStats :=
  match list_find (sameName nm) ps with
  | Some (i, p) => <[i := addToPlayer dotBalls treesPlanted p]> ps
  | None => ps ++ [newPlayer nm dotBalls treesPlanted]
  end.

Definition creditTeam (nm : JSON) (dotBalls treesPlanted : Z) (team : TeamStats)
    : TeamStats :=
  {| team_name := team_name team;
     totalDotBallsBowled := numAdd (totalDotBallsBowled team) dotBalls;
     totalTreesPlanted := numAdd (totalTreesPlanted team) treesPlanted;
     players := creditPlayer nm dotBalls treesPlanted (players team) |}.

(** The body of [bowlersData.forEach]. The team object held by the map is
    updated in place. *)
Definition bowlerStep (bowlingTeam : string) (m : TeamStatsMap) (bowler : JSON)
    : Result TeamStatsMap :=
  nm <- bowlerName bowler;;
  dotBalls <- bowlerDotBalls bowler;;
  let treesPlanted := numMul dotBalls TREES_PER_DOT_BALL in
  match mapGet bowlingTeam m with
  | None => Throw TypeError
  | Some team => Ok (mapSet bowlingTeam (creditTeam nm dotBalls treesPlanted team) m)
  end.

Fixpoint forEach {A St : Type} (f : St -> A -> Result St) (l : list A) (s : St)
    : Result St :=
  match l with
  | [] => Ok s
  | x :: rest => s' <- f s x;; forEach f rest s'
  end.

Fixpoint forEachIndexed {A St : Type} (f : St -> A -> nat -> Result St)
    (i : nat) (l : list A) (s : St) : Result St :=
  match l with
  | [] => Ok s
  | x :: rest => s' <- f s x i;; forEachIndexed f (S i) rest s'
  end.

(** [(inningsData.BowlingCard || []).forEach]: only an array has the method. *)
Definition bowlersData (card : Value) : Result (list JSON) :=
  match orElse card (Some (JArr [])) with
  | Some (JArr xs) => Ok xs
  | _ => Throw TypeError
  end.

(** [X?.[0]?.TeamID || `Team${k}`] *)
Definition teamIdOr (card : Value) (k : nat) : Value :=
  orElse (optProp "TeamID" (optIndex0 card)) (Some (JStr ("Team" +:+ pretty k))).

(** The body of [inningsDataArray.forEach]. *)
Definition inningsStep (m : TeamStatsMap) (data : JSON) (inningsIndex : nat)
    : Result TeamStatsMap :=
  inningsData <-
    getProp (if (inningsIndex =? 0)%nat then "Innings1" else "Innings2") (Some data);;
  if negb (truthy inningsData) then Ok m
  else
    battingCard <- getProp "BattingCard" inningsData;;
    let battingTeamId := teamIdOr battingCard (inningsIndex * 2 + 1)%nat in
    bowlingCard <- getProp "BowlingCard" inningsData;;
    let bowlingTeamId := teamIdOr bowlingCard (inningsIndex * 2 + 2)%nat in
    battingTeam <- toStringMethod battingTeamId;;
    bowlingTeam <- toStringMethod bowlingTeamId;;
    let m1 := ensureTeam battingTeam m in
    let m2 := ensureTeam bowlingTeam m1 in
    bowlers <- bowlersData bowlingCard;;
    forEach (bowlerStep bowlingTeam) bowlers m2.

(** The aggregation over a team map. *)
Definition aggregate (inningsDataArray : list JSON) (m : TeamStatsMap)
    : Result TeamStatsMap :=
  forEachIndexed inningsStep 0%nat inningsDataArray m.

(** [processMatchData]: [now] is the reading of the clock,
    [new Date().toISOString()]; the team map is created empty. *)
Definition processMatchData (now : string) (inningsDataArray : list JSON)
    : Result MatchData :=
  m <- aggregate inningsDataArray [];;
  Ok {| timestamp := now; teams := map snd m |}.

(** ** The objects of the aggregation

    [processMatchData] once more, on the objects that the program builds.
    The map, the team objects that it holds and the player objects of their
    arrays live in a store and are read and updated through references:
    [teamStatsMap.get] returns the reference of a team object, [find] that
    of a player object, and [+=] writes to the object referred to. A new
    object gets the next free reference. The store is that of the whole
    program: it holds what earlier runs have left. *)

Record TeamObject : Type := {
  object_name : string;
  object_totalDotBallsBowled : Z;
  object_totalTreesPlanted : Z;
  object_players : list nat
}.

Record Objects : Type := {
  mapObjects : list (list (string * nat));
  teamObjects : list TeamObject;
  playerObjects : list PlayerStats
}.

(** The value that [processMatchData] returns: the timestamp and the array
    of the references of the team objects. *)
Record MatchDataObject : Type := {
  object_timestamp : string;
  object_teams : list nat
}.

(** [new Map()] *)
Definition newMap (h : Objects) : nat * Objects :=
  (length (mapObjects h),
   {| mapObjects := (mapObjects h ++ [[]])%list;
      teamObjects := teamObjects h;
      playerObjects := playerObjects h |}).

(** The entries of a map object, in insertion order. *)
Definition mapEntries (mapRef : nat) (h : Objects) : list (string * nat) :=
  default [] (mapObjects h !! mapRef).

(** [get] on the entries of a map. *)
Fixpoint getRef (key : string) (entries : list (string * nat)) : option nat :=
  match entries with
  | [] => None
  | (k, ref) :: rest => if String.eqb k key then Some ref else getRef key rest
  end.

(** [if (!teamStatsMap.has(t)) teamStatsMap.set(t, {...})]: the new team
    object is created and the map gets its reference. *)
Definition ensureTeamOn (mapRef : nat) (t : string) (h : Objects) : Objects :=
  let entries := mapEntries mapRef h in
  match getRef t entries with
  | Some _ => h
  | None =>
      {| mapObjects := <[mapRef := (entries ++ [(t, length (teamObjects h))])%list]> (mapObjects h);
         teamObjects :=
           (teamObjects h ++
            [{| object_name := t; object_totalDotBallsBowled := 0;
                object_totalTreesPlanted := 0; object_players := [] |}])%list;
         playerObjects := playerObjects h |}
  end.

(** The player object at [ref] bears the name [nm]. *)
Definition namedAt (h : Objects) (nm : JSON) (ref : nat) : bool :=
  match playerObjects h !! ref with
  | Some p => strictEq (player_name p) nm
  | None => false
  end.

(** [team.players.find(p => p.name === bowlerName)]: the reference of the
    first player object of that name. *)
Definition findPlayer (nm : JSON) (refs : list nat) (h : Objects) : option nat :=
  List.find (namedAt h nm) refs.

(** A step that reads the feed only: a throw leaves the store as it is. *)
Definition reading {A B : Type} (r : Result A)
    (k : A -> Objects -> Result B * Objects) (h : Objects) : Result B * Objects :=
  match r with
  | Ok a => k a h
  | Throw e => (Throw e, h)
  end.

(** The body of [bowlersData.forEach], on the objects. *)
Definition bowlerStepOn (mapRef : nat) (bowlingTeam : string) (h : Objects)
    (bowler : JSON) : Result unit * Objects :=
  reading (bowlerName bowler) (fun nm =>
  reading (bowlerDotBalls bowler) (fun dotBalls h =>
    let treesPlanted := numMul dotBalls TREES_PER_DOT_BALL in
    match getRef bowlingTeam (mapEntries mapRef h) with
    | None => (Throw TypeError, h)
    | Some ref =>
        match teamObjects h !! ref with
        | None => (Throw TypeError, h)
        | Some team =>
            let totalDotBallsBowled :=
              numAdd (object_totalDotBallsBowled team) dotBalls in
            let totalTreesPlanted :=
              numAdd (object_totalTreesPlanted team) treesPlanted in
            match findPlayer nm (object_players team) h with
            | Some existingPlayer =>
                (Ok tt,
                 {| mapObjects := mapObjects h;
                    teamObjects :=
                      <[ref := {| object_name := object_name team;
                                  object_totalDotBallsBowled := totalDotBallsBowled;
                                  object_totalTreesPlanted := totalTreesPlanted;
                                  object_players := object_players team |}]>
                        (teamObjects h);
                    playerObjects :=
                      match playerObjects h !! existingPlayer with
                      | Some p =>
                          <[existingPlayer := addToPlayer dotBalls treesPlanted p]>
                            (playerObjects h)
                      | None => playerObjects h
                      end |})
            | None =>
                (Ok tt,
                 {| mapObjects := mapObjects h;
                    teamObjects :=
                      <[ref := {| object_name := object_name team;
                                  object_totalDotBallsBowled := totalDotBallsBowled;
                                  object_totalTreesPlanted := totalTreesPlanted;
                                  object_players :=
                                    (object_players team
                                     ++ [length (playerObjects h)])%list |}]>
                        (teamObjects h);
                    playerObjects :=
                      (playerObjects h
                       ++ [newPlayer nm dotBalls treesPlanted])%list |})
            end
        end
    end)) h.

Fixpoint forEachOn {A : Type} (f : Objects -> A -> Result unit * Objects)
    (l : list A) (h : Objects) : Result unit * Objects :=
  match l with
  | [] => (Ok tt, h)
  | x :: rest =>
      match f h x with
      | (Ok _, h') => forEachOn f rest h'
      | (Throw e, h') => (Throw e, h')
      end
  end.

Fixpoint forEachIndexedOn {A : Type} (f : Objects -> A -> nat -> Result unit * Objects)
    (i : nat) (l : list A) (h : Objects) : Result unit * Objects :=
  match l with
  | [] => (Ok tt, h)
  | x :: rest =>
      match f h x i with
      | (Ok _, h') => forEachIndexedOn f (S i) rest h'
      | (Throw e, h') => (Throw e, h')
      end
  end.

(** The body of [inningsDataArray.forEach], on the objects. *)
Definition inningsStepOn (mapRef : nat) (h : Objects) (data : JSON)
    (inningsIndex : nat) : Result unit * Objects :=
  reading
    (getProp (if (inningsIndex =? 0)%nat then "Innings1" else "Innings2") (Some data))
    (fun inningsData =>
  if negb (truthy inningsData) then fun h => (Ok tt, h)
  else
    reading (getProp "BattingCard" inningsData) (fun battingCard =>
    let battingTeamId := teamIdOr battingCard (inningsIndex * 2 + 1)%nat in
    reading (getProp "BowlingCard" inningsData) (fun bowlingCard =>
    let bowlingTeamId := teamIdOr bowlingCard (inningsIndex * 2 + 2)%nat in
    reading (toStringMethod battingTeamId) (fun battingTeam =>
    reading (toStringMethod bowlingTeamId) (fun bowlingTeam h =>
    let h1 := ensureTeamOn mapRef battingTeam h in
    let h2 := ensureTeamOn mapRef bowlingTeam h1 in
    reading (bowlersData bowlingCard) (fun bowlers =>
    forEachOn (bowlerStepOn mapRef bowlingTeam) bowlers) h2))))) h.

(** [processMatchData] on the objects: the map is a new object of the run,
    and the array returned holds the references that the map holds, in the
    order of the map. *)
Definition processMatchDataOn (now : string) (inningsDataArray : list JSON)
    (h : Objects) : Result MatchDataObject * Objects :=
  let '(teamStatsMap, h1) := newMap h in
  match forEachIndexedOn (inningsStepOn teamStatsMap) 0%nat inningsDataArray h1 with
  | (Ok _, h2) =>
      (Ok {| object_timestamp := now;
             object_teams := snd <$> mapEntries teamStatsMap h2 |}, h2)
  | (Throw e, h2) => (Throw e, h2)
  end.

(** ** The feed decoder

    The pattern of [text.match] reads, piece by piece: start of input; any
    characters, lazily; an opening parenthesis; a group of any characters,
    greedily; a closing parenthesis; an optional semicolon; white space;
    end of input.

    The pattern is matched as ECMAScript specifies it, by backtracking: each
    piece takes the matcher of the rest of the pattern as its continuation,
    a lazy star tries the continuation first, a greedy one last. *)

(** The dot of a pattern matches all but line terminators. It takes one
    code unit of the string of the program; on the UTF-8 text it takes one
    byte at a place where no line terminator begins. The matches are the
    same: the literal characters of the pattern are single bytes, which occur
    in no longer character. *)
Definition notLineTerminatorAt (s : string) : bool := negb (lineTerminatorAt s).

Section Matcher.

Context {R : Type}.

(** A lazy star over a class that is told from the text ahead. *)
Fixpoint lazyStar (cls : string -> bool) (k : string -> option R) (s : string)
    : option R :=
  match k s with
  | Some r => Some r
  | None =>
      match s with
      | String c rest => if cls s then lazyStar cls k rest else None
      | EmptyString => None
      end
  end.

(** A greedy star in a capturing group, the text matched so far being
    [captured]. *)
Fixpoint greedyStarCapture (cls : string -> bool)
    (k : string -> string -> option R) (captured s : string) : option R :=
  match s with
  | String c rest =>
      if cls s then
        match greedyStarCapture cls k (captured +:+ String c "") rest with
        | Some r => Some r
        | None => k captured s
        end
      else k captured s
  | EmptyString => k captured s
  end.

(** A greedy star over white space, which takes one white-space character
    at a time; [n] bounds the number of characters taken. *)
Fixpoint whiteStarFrom (n : nat) (k : string -> option R) (s : string) : option R :=
  match n with
  | O => k s
  | S n' =>
      match whiteSpaceAt s with
      | Some rest =>
          match whiteStarFrom n' k rest with
          | Some r => Some r
          | None => k s
          end
      | None => k s
      end
  end.

Definition whiteStar (k : string -> option R) (s : string) : option R :=
  whiteStarFrom (String.length s) k s.

(** A greedy star over a character class. *)
Fixpoint greedyStar (cls : ascii -> bool) (k : string -> option R) (s : string)
    : option R :=
  match s with
  | String c rest =>
      if cls c then
        match greedyStar cls k rest with
        | Some r => Some r
        | None => k s
        end
      else k s
  | EmptyString => k s
  end.

(** A literal character. *)
Definition char (c : ascii) (k : string -> option R) (s : string) : option R :=
  match s with
  | String c' rest => if Ascii.eqb c' c then k rest else None
  | EmptyString => None
  end.

(** An optional character, greedy. *)
Definition optChar (c : ascii) (k : string -> option R) (s : string) : option R :=
  match char c k s with
  | Some r => Some r
  | None => k s
  end.

(** The end of the input. *)
Definition endOfInput (r : R) (s : string) : option R :=
  match s with
  | EmptyString => Some r
  | String _ _ => None
  end.

End Matcher.

(** [text.match(pattern)]: the first group of the match, or [None] when
    [match] returns [null]. *)
Definition jsonpMatch (text : string) : option string :=
  lazyStar notLineTerminatorAt
    (char "("
       (fun afterOpen =>
          greedyStarCapture notLineTerminatorAt
            (fun group => char ")" (optChar ";" (whiteStar (endOfInput group))))
            "" afterOpen))
    text.

Definition tryCatch {A : Type} (body : Result A) (handler : Exn -> Result A)
    : Result A :=
  match body with
  | Ok a => Ok a
  | Throw e => handler e
  end.

(** ** The feed fetcher *)

(** What the program reads of an HTTP response: [response.ok] and
    [await response.text()]. *)
Record Response : Type := {
  ok : bool;
  text : Result string
}.

Definition isNull (j : JSON) : bool :=
  match j with
  | JNull => true
  | _ => false
  end.

Definition feedBase : string :=
  "https://ipl-stats-sports-mechanic.s3.ap-south-1.amazonaws.com/ipl/feeds/".

Definition buildJsonUrl (matchId : string) : list string :=
  [ feedBase +:+ matchId +:+ "-Innings1.js";
    feedBase +:+ matchId +:+ "-Innings2.js" ].

(** [url.split('/')] *)
Fixpoint split (sep : ascii) (s : string) : list string :=
  match s with
  | EmptyString => [""]
  | String c rest =>
      if Ascii.eqb c sep then "" :: split sep rest
      else
        match split sep rest with
        | seg :: segs => String c seg :: segs
        | [] => [String c ""]
        end
  end.

Definition extractMatchId (url : string) : string :=
  let segments := split "/" url in
  List.last segments "".

Section Fetcher.

(** The platform: [fetch] (a network failure throws) and [JSON.parse]
    (a malformed text throws). *)
Variable fetch : string -> Result Response.
Variable JSON_parse : string -> Result JSON.

(** The decoding of a response body, from the pattern match to the inner
    [try]/[catch] around [JSON.parse]. *)
Definition decodeBody (body : string) : Result JSON :=
  match jsonpMatch body with
  | None => Ok JNull
  | Some group =>
      if String.eqb group "" then Ok JNull
      else tryCatch (JSON_parse group) (fun parseError => Ok JNull)
  end.

(** The callback mapped over the feed URLs. *)
Definition fetchFeed (url : string) : Result JSON :=
  tryCatch
    (response <- fetch url;;
     if negb (ok response) then Ok JNull
     else
       body <- text response;;
       decodeBody body)
    (fun fetchError => Ok JNull).

(** [Promise.all] over the mapped URLs: the results in the order of the
    URLs, or the first rejection. *)
Fixpoint promiseAll {A B : Type} (f : A -> Result B) (l : list A)
    : Result (list B) :=
  match l with
  | [] => Ok []
  | x :: rest => y <- f x;; ys <- promiseAll f rest;; Ok (y :: ys)
  end.

Definition fetchMatchJson (matchId : string) : Result (list JSON) :=
  let jsonUrls := buildJsonUrl matchId in
  tryCatch
    (responses <- promiseAll fetchFeed jsonUrls;;
     let validResponses := List.filter (fun response => negb (isNull response)) responses in
     if (length validResponses =? 0)%nat then
       Throw (Error ("Failed to fetch any valid data for match " +:+ matchId))
     else Ok validResponses)
    (fun error => Throw error).

End Fetcher.

(** ** The persistent store *)

Record MatchRow : Type := {
  match_url : string;
  match_date : string;
  match_timestamp : string
}.

(** Modelled from the spec: the schema file is not part of the sources. The
    keys are those of the specification's schema: [match_id], [team_id] and
    [player_id] are primary keys, [team_id] is the conflict target of the
    summary table, and the two performance tables hold one row per match and
    team, or per match and player. *)
Record DB : Type := {
  Matches : gmap string MatchRow;
  Teams : gmap string string;
  TeamMatchPerformance : gmap (string * string) (Z * Z);
  Players : gmap string (string * string);
  PlayerMatchPerformance : gmap (string * string) (string * Z * Z);
  TreePlantingSummary : gmap string (Z * string)
}.

Definition emptyDB : DB :=
  {| Matches := ∅; Teams := ∅; TeamMatchPerformance := ∅; Players := ∅;
     PlayerMatchPerformance := ∅; TreePlantingSummary := ∅ |}.

(** [INSERT OR REPLACE INTO Matches] *)
Definition replaceMatch (matchId matchUrl matchDate ts : string) (d : DB) : DB :=
  {| Matches :=
       <[matchId := {| match_url := matchUrl; match_date := matchDate;
                       match_timestamp := ts |}]> (Matches d);
     Teams := Teams d;
     TeamMatchPerformance := TeamMatchPerformance d;
     Players := Players d;
     PlayerMatchPerformance := PlayerMatchPerformance d;
     TreePlantingSummary := TreePlantingSummary d |}.

(** [INSERT OR IGNORE INTO Teams] *)
Definition ignoreTeam (teamId teamName : string) (d : DB) : DB :=
  {| Matches := Matches d;
     Teams :=
       match Teams d !! teamId with
       | Some _ => Teams d
       | None => <[teamId := teamName]> (Teams d)
       end;
     TeamMatchPerformance := TeamMatchPerformance d;
     Players := Players d;
     PlayerMatchPerformance := PlayerMatchPerformance d;
     TreePlantingSummary := TreePlantingSummary d |}.

(** [INSERT OR REPLACE INTO TeamMatchPerformance] *)
Definition replaceTeamPerformance (matchId teamId : string) (dots trees : Z)
    (d : DB) : DB :=
  {| Matches := Matches d;
     Teams := Teams d;
     TeamMatchPerformance := <[(matchId, teamId) := (dots, trees)]> (TeamMatchPerformance d);
     Players := Players d;
     PlayerMatchPerformance := PlayerMatchPerformance d;
     TreePlantingSummary := TreePlantingSummary d |}.

(** [INSERT INTO TreePlantingSummary ... ON CONFLICT(team_id) DO UPDATE SET
    total_trees_planted = total_trees_planted + ?, last_updated = ?] *)
Definition upsertSummary (teamId : string) (trees : Z) (ts : string) (d : DB) : DB :=
  {| Matches := Matches d;
     Teams := Teams d;
     TeamMatchPerformance := TeamMatchPerformance d;
     Players := Players d;
     PlayerMatchPerformance := PlayerMatchPerformance d;
     TreePlantingSummary :=
       match TreePlantingSummary d !! teamId with
       | Some (total, _) => <[teamId := (total + trees, ts)]> (TreePlantingSummary d)
       | None => <[teamId := (trees, ts)]> (TreePlantingSummary d)
       end |}.

(** [INSERT OR IGNORE INTO Players] *)
Definition ignorePlayer (playerId playerName teamId : string) (d : DB) : DB :=
  {| Matches := Matches d;
     Teams := Teams d;
     TeamMatchPerformance := TeamMatchPerformance d;
     Players :=
       match Players d !! playerId with
       | Some _ => Players d
       | None => <[playerId := (playerName, teamId)]> (Players d)
       end;
     PlayerMatchPerformance := PlayerMatchPerformance d;
     TreePlantingSummary := TreePlantingSummary d |}.

(** [INSERT OR REPLACE INTO PlayerMatchPerformance] *)
Definition replacePlayerPerformance (matchId playerId teamId : string)
    (dots trees : Z) (d : DB) : DB :=
  {| Matches := Matches d;
     Teams := Teams d;
     TeamMatchPerformance := TeamMatchPerformance d;
     Players := Players d;
     PlayerMatchPerformance :=
       <[(matchId, playerId) := (teamId, dots, trees)]> (PlayerMatchPerformance d);
     TreePlantingSummary := TreePlantingSummary d |}.

(** SQLite's [date(...)] of a [YYYY-MM-DD HH:MM:SS] text, the format
    [formatDateTime] writes: its first ten characters. *)
Definition sqlDate (s : string) : string := String.substring 0 10 s.

(** [SELECT match_id FROM Matches WHERE match_id = ? AND
    date(match_date) = date(?)] returns a row. *)
Definition processedToday (matchId now : string) (d : DB) : bool :=
  match Matches d !! matchId with
  | Some row => String.eqb (sqlDate (match_date row)) (sqlDate now)
  | None => false
  end.

(** [SELECT COUNT( * ) FROM Matches WHERE date(match_date) = date(?)] *)
Definition countProcessedToday (now : string) (d : DB) : nat :=
  size (filter (fun kv => sqlDate (match_date (snd kv)) = sqlDate now) (Matches d)).

(** ** The world of a scheduled invocation *)

(** A reading of the clock, in the two renderings the program makes of it:
    [new Date().toISOString()] and [formatDateTime(getCurrentISTDate())]. *)
Record Instant : Type := {
  isoString : string;
  istDateTime : string
}.

(** The store, and the number of clock readings made so far. *)
Record World : Type := {
  db : DB;
  clockReads : nat
}.

(** A computation that may throw and keeps the effects made before. *)
Definition M (A : Type) : Type := World -> Result A * World.

Definition retM {A : Type} (a : A) : M A := fun w => (Ok a, w).

Definition throwM {A : Type} (e : Exn) : M A := fun w => (Throw e, w).

Definition bindM {A B : Type} (m : M A) (k : A -> M B) : M B :=
  fun w =>
    match m w with
    | (Ok a, w') => k a w'
    | (Throw e, w') => (Throw e, w')
    end.

Notation "x <~ m ;; k" := (bindM m (fun x => k))
  (at level 100, m at next level, right associativity).

Definition liftR {A : Type} (r : Result A) : M A := fun w => (r, w).

Definition tryCatchM {A : Type} (body : M A) (handler : Exn -> M A) : M A :=
  fun w =>
    match body w with
    | (Ok a, w') => (Ok a, w')
    | (Throw e, w') => handler e w'
    end.

(** A statement run against the store. *)
Definition run (stmt : DB -> DB) : M unit :=
  fun w => (Ok tt, {| db := stmt (db w); clockReads := clockReads w |}).

Definition query {A : Type} (q : DB -> A) : M A := fun w => (Ok (q (db w)), w).

Fixpoint forOf {A : Type} (body : A -> M unit) (l : list A) : M unit :=
  match l with
  | [] => retM tt
  | x :: rest => _ <~ body x;; forOf body rest
  end.

(** ** The persistence adapter *)

Definition teamNames : list (string * string) :=
  [ ("17", "Mumbai Indians");
    ("13", "Chennai Super Kings");
    ("19", "Royal Challengers Bangalore");
    ("18", "Rajasthan Royals");
    ("16", "Kolkata Knight Riders");
    ("15", "Kings XI Punjab");
    ("14", "Delhi Capitals");
    ("20", "Sunrisers Hyderabad");
    ("35", "Gujarat Titans");
    ("77", "Lucknow Super Giants") ].

(** The members that the object [teamNames] inherits from
    [Object.prototype]. *)
Definition inheritedMembers : list string :=
  [ "constructor"; "__defineGetter__"; "__defineSetter__"; "hasOwnProperty";
    "__lookupGetter__"; "__lookupSetter__"; "isPrototypeOf";
    "propertyIsEnumerable"; "toString"; "valueOf"; "__proto__";
    "toLocaleString" ].

(** [teamNames[teamId] || teamId]: the name that the table has for the
    identifier, else the identifier itself. For the name of an inherited
    member the value is a function, or the prototype object for
    [__proto__]: it is truthy and it is not a text, which is [None]. *)
Definition teamNameOf (teamId : string) : option string :=
  match List.find (fun kv => String.eqb (fst kv) teamId) teamNames with
  | Some (_, n) => Some n
  | None =>
      if existsb (String.eqb teamId) inheritedMembers then None else Some teamId
  end.

(** [s.replace(/\s+/g, '_')]: every maximal run of white space becomes one
    underscore; [inRun] tells that the previous character was white, [n]
    bounds the number of steps. *)
Fixpoint replaceWhiteRunsFrom (n : nat) (inRun : bool) (s : string) : string :=
  match n with
  | O => EmptyString
  | S n' =>
      match whiteSpaceAt s with
      | Some rest =>
          if inRun then replaceWhiteRunsFrom n' true rest
          else String "_" (replaceWhiteRunsFrom n' true rest)
      | None =>
          match s with
          | String c rest => String c (replaceWhiteRunsFrom n' false rest)
          | EmptyString => EmptyString
          end
      end
  end.

Definition replaceWhiteRuns (s : string) : string :=
  replaceWhiteRunsFrom (String.length s) false s.

(** [player.name.replace(...)]: only a string has the method. *)
Definition nameReplace (name : JSON) : Result string :=
  match name with
  | JStr s => Ok (replaceWhiteRuns s)
  | _ => Throw TypeError
  end.

(** The text bound for [player_name]; the name is a string once
    [nameReplace] has returned. *)
Definition nameText (name : JSON) : string :=
  match name with
  | JStr s => s
  | _ => ""
  end.

Section Driver.

Variable fetch : string -> Result Response.
Variable JSON_parse : string -> Result JSON.
(** The clock: its successive readings. *)
Variable clock : nat -> Instant.

(** [new Date()] *)
Definition readClock : M Instant :=
  fun w => (Ok (clock (clockReads w)),
            {| db := db w; clockReads := S (clockReads w) |}).

Definition storePlayer (matchId teamId : string) (player : PlayerStats) : M unit :=
  replaced <~ liftR (nameReplace (player_name player));;
  let playerId := teamId +:+ "_" +:+ replaced in
  _ <~ run (ignorePlayer playerId (nameText (player_name player)) teamId);;
  run (replacePlayerPerformance matchId playerId teamId
         (dotBallsBowled player) (treesBowling player)).

(** [bind] takes numbers, texts, booleans, [null] and buffers; it throws an
    error (whose message, which quotes the value, is not spelled out here)
    for a value of another type. *)
Definition bindText (v : option string) : M string :=
  match v with
  | Some text => retM text
  | None => throwM (Error "D1_TYPE_ERROR")
  end.

Definition storeTeam (matchId ts : string) (team : TeamStats) : M unit :=
  let teamId := team_name team in
  teamName <~ bindText (teamNameOf teamId);;
  _ <~ run (ignoreTeam teamId teamName);;
  _ <~ run (replaceTeamPerformance matchId teamId
              (totalDotBallsBowled team) (totalTreesPlanted team));;
  _ <~ run (upsertSummary teamId (totalTreesPlanted team) ts);;
  forOf (storePlayer matchId teamId) (players team).

Definition storeMatchData (matchData : MatchData) (matchUrl : string) : M unit :=
  let matchId := extractMatchId matchUrl in
  now <~ readClock;;
  let ts := istDateTime now in
  let matchDate := istDateTime now in
  _ <~ run (replaceMatch matchId matchUrl matchDate ts);;
  forOf (storeTeam matchId ts) (teams matchData).

(** ** The scheduling driver *)

Definition processMatchUrl (url : string) : M MatchData :=
  tryCatchM
    (let matchId := extractMatchId url in
     inningsData <~ liftR (fetchMatchJson fetch JSON_parse matchId);;
     now <~ readClock;;
     liftR (processMatchData (isoString now) inningsData))
    (fun error => throwM error).

(** The match summary written to the console: the template literals convert
    each player's name to a string, which may throw. *)
Definition printSummary (matchData : MatchData) : Result unit :=
  forEach
    (fun _ team =>
       forEach (fun _ player => _ <- toStr (player_name player);; Ok tt)
         (players team) tt)
    (teams matchData) tt.

Definition processOnlyTodaysMatches : bool := true.

(** The body of the loop over the URLs. *)
Definition matchIteration (url : string) : M unit :=
  let matchId := extractMatchId url in
  skip <~ (if processOnlyTodaysMatches then
             now <~ readClock;;
             query (processedToday matchId (istDateTime now))
           else retM false);;
  if (skip : bool) then retM tt
  else
    matchData <~ processMatchUrl url;;
    _ <~ liftR (printSummary matchData);;
    storeMatchData matchData url.

(** The handler, over a list of URLs. *)
Definition scheduledOn (urls : list string) : M unit :=
  _ <~ readClock;;
  tryCatchM
    (_ <~ readClock;;
     processedMatchesToday <~
       (if processOnlyTodaysMatches then
          now <~ readClock;;
          query (countProcessedToday (istDateTime now))
        else retM 0%nat);;
     _ <~ forOf matchIteration urls;;
     _ <~ query TreePlantingSummary;;
     retM tt)
    (fun error => retM tt).

Definition urls : list string :=
  [ "https://www.iplt20.com/match/2025/1832";
    "https://www.iplt20.com/match/2025/1833";
    "https://www.iplt20.com/match/2025/1834";
    "https://www.iplt20.com/match/2025/1835" ].

Definition scheduled : M unit := scheduledOn urls.

End Driver.

(** ** Dates

    A [Date] is its time value, the milliseconds since the epoch. *)

(** [new Date(now.getTime() + (5.5 * 60 * 60 * 1000))] *)
Definition getCurrentISTDate (now : Z) : Z := now + 19800000.

(** [s.replace(c, by)] with a string pattern: the first occurrence. *)
Fixpoint replaceFirst (c by_ : ascii) (s : string) : string :=
  match s with
  | EmptyString => EmptyString
  | String x rest =>
      if Ascii.eqb x c then String by_ rest else String x (replaceFirst c by_ rest)
  end.

Definition isDigit (c : ascii) : bool :=
  let n := nat_of_ascii c in ((48 <=? n) && (n <=? 57))%nat.

(** One character of a class. *)
Definition oneOf {R : Type} (cls : ascii -> bool) (k : string -> option R)
    (s : string) : option R :=
  match s with
  | String c rest => if cls c then k rest else None
  | EmptyString => None
  end.

(** The pattern of the second [replace]: a dot, one digit or more, [Z], the
    end of the input; matched at the start of [s]. *)
Definition fractionMatch (s : string) : option unit :=
  char "." (oneOf isDigit (greedyStar isDigit (char "Z" (endOfInput tt)))) s.

(** [s.replace(pattern, '')]: the leftmost match, which runs to the end of
    the input, is removed; without a match the string is unchanged. *)
Fixpoint removeFraction (s : string) : string :=
  match fractionMatch s with
  | Some _ => EmptyString
  | None =>
      match s with
      | EmptyString => EmptyString
      | String c rest => String c (removeFraction rest)
      end
  end.

Section Dates.

(** [Date.prototype.toISOString], of the platform. *)
Variable toISOString : Z -> string.

Definition formatDateTime (date : Z) : string :=
  let istDate := date + 19800000 in
  removeFraction (replaceFirst "T" " " (toISOString istDate)).

End Dates.

(** * The vocabulary of the properties *)

(** ** Teams and players *)

(** A property that holds of every team of the map. *)
Definition allTeams (I : TeamStats -> Prop) (m : TeamStatsMap) : Prop :=
  Forall (fun kv => I (snd kv)) m.

(** The sum of a per-player total over the players of a team. *)
Definition sumOf (f : PlayerStats -> Z) (ps : list PlayerStats) : Z :=
  foldr (fun p acc => f p + acc) 0 ps.

(** The totals of a team are the sums of the totals of its players. *)
Definition balanced (team : TeamStats) : Prop :=
  totalDotBallsBowled team = sumOf dotBallsBowled (players team) /\
  totalTreesPlanted team = sumOf treesBowling (players team).


(** Numbers, strings and booleans compare by value; an object or an array
    is equal to no value met elsewhere. *)
Definition primitive (j : JSON) : bool :=
  match j with
  | JArr _ => false
  | JObj _ => false
  | _ => true
  end.




(** Every team sits under its own name, and no key occurs twice. *)
Definition wellKeyed (m : TeamStatsMap) : Prop :=
  NoDup (fst <$> m) /\ Forall (fun kv => team_name (snd kv) = fst kv) m.

(** ** The bowler entries of a team *)

(** The bowling team of an innings and its bowler entries, as [inningsStep]
    reads them; [None] for an innings that is skipped. *)
Definition inningsBowling (data : JSON) (inningsIndex : nat)
    : option (string * list JSON) :=
  match getProp (if (inningsIndex =? 0)%nat then "Innings1" else "Innings2")
          (Some data) with
  | Ok inningsData =>
      if negb (truthy inningsData) then None
      else
        match getProp "BowlingCard" inningsData with
        | Ok bowlingCard =>
            match toStringMethod (teamIdOr bowlingCard (inningsIndex * 2 + 2)%nat),
                  bowlersData bowlingCard with
            | Ok bowlingTeam, Ok bowlers => Some (bowlingTeam, bowlers)
            | _, _ => None
            end
        | Throw _ => None
        end
  | Throw _ => None
  end.

(** The bowler entries that an innings brings to the team [t]. *)
Definition entriesOf (t : string) (data : JSON) (inningsIndex : nat) : list JSON :=
  match inningsBowling data inningsIndex with
  | Some (bowlingTeam, bowlers) => if String.eqb t bowlingTeam then bowlers else []
  | None => []
  end.

(** The bowler entries of the team [t] in the whole input, in the order of
    their processing, the first payload having index [i]. *)
Fixpoint entriesFrom (t : string) (i : nat) (input : list JSON) : list JSON :=
  match input with
  | [] => []
  | data :: rest => entriesOf t data i ++ entriesFrom t (S i) rest
  end.

Definition entriesFor (t : string) (input : list JSON) : list JSON :=
  entriesFrom t 0%nat input.


(** The sum of a list of integers. *)
Definition sumList (l : list Z) : Z := foldr Z.add 0 l.

(** ** The text of a dot-ball count *)









(** ** The range of exact numbers *)

(** The dot balls that an entry counts for, 0 when its reading throws. *)
Definition entryDotBalls (bowler : JSON) : Z :=
  match bowlerDotBalls bowler with
  | Ok d => d
  | Throw _ => 0
  end.

(** The dot balls of the entries of the input, each in absolute value, as
    the aggregation reads the entries: innings by innings, the first payload
    having index [i]. *)
Definition weightOf (bowlers : list JSON) : Z :=
  sumList ((fun b => Z.abs (entryDotBalls b)) <$> bowlers).

Definition inningsWeight (data : JSON) (inningsIndex : nat) : Z :=
  match inningsBowling data inningsIndex with
  | Some (_, bowlers) => weightOf bowlers
  | None => 0
  end.

Fixpoint weightFrom (i : nat) (input : list JSON) : Z :=
  match input with
  | [] => 0
  | data :: rest => inningsWeight data i + weightFrom (S i) rest
  end.

(** The input stays in the range where the arithmetic of numbers is exact:
    the trees of all its dot balls together do not exceed 2^53. *)
Definition exactRange (input : list JSON) : Prop :=
  18 * weightFrom 0%nat input <= 2 ^ 53.

(** The totals of a player, and of a team and its players, do not exceed
    [b] dot balls and the trees of [b] dot balls. *)
Definition playerWithin (b : Z) (p : PlayerStats) : Prop :=
  Z.abs (dotBallsBowled p) <= b /\ Z.abs (treesBowling p) <= 18 * b.

Definition within (b : Z) (team : TeamStats) : Prop :=
  Z.abs (totalDotBallsBowled team) <= b /\
  Z.abs (totalTreesPlanted team) <= 18 * b /\
  Forall (playerWithin b) (players team).

(** The credit of [d] dot balls in exact integers, with which the credit of
    the program agrees in the range of exact numbers. *)
Definition addExactly (d : Z) (p : PlayerStats) : PlayerStats :=
  {| player_name := player_name p;
     dotBallsBowled := dotBallsBowled p + d;
     dotBallsPlayed := dotBallsPlayed p;
     treesBowling := treesBowling p + d * 18 |}.

Definition creditExactly (nm : JSON) (d : Z) (ps : list PlayerStats)
    : list PlayerStats :=
  match list_find (sameName nm) ps with
  | Some (i, p) => <[i := addExactly d p]> ps
  | None => ps ++ [newPlayer nm d (d * 18)]
  end.

Definition creditTeamExactly (nm : JSON) (d : Z) (team : TeamStats) : TeamStats :=
  {| team_name := team_name team;
     totalDotBallsBowled := totalDotBallsBowled team + d;
     totalTreesPlanted := totalTreesPlanted team + d * 18;
     players := creditExactly nm d (players team) |}.






(** ** The values of the objects *)

(** The players that an array of references holds. *)
Definition readPlayers (h : Objects) (refs : list nat) : option (list PlayerStats) :=
  mapM (fun ref => playerObjects h !! ref) refs.

(** The team that a reference leads to, with its players. *)
Definition readTeam (h : Objects) (ref : nat) : option TeamStats :=
  match teamObjects h !! ref with
  | Some o =>
      match readPlayers h (object_players o) with
      | Some ps =>
          Some {| team_name := object_name o;
                  totalDotBallsBowled := object_totalDotBallsBowled o;
                  totalTreesPlanted := object_totalTreesPlanted o;
                  players := ps |}
      | None => None
      end
  | None => None
  end.

(** The team map that the entries of a map object stand for. *)
Definition readEntries (h : Objects) (entries : list (string * nat))
    : option TeamStatsMap :=
  mapM (fun kv => match readTeam h (snd kv) with
                  | Some team => Some (fst kv, team)
                  | None => None
                  end) entries.

(** The [MatchData] that a returned value stands for. *)
Definition readMatchData (h : Objects) (o : MatchDataObject) : option MatchData :=
  match mapM (readTeam h) (object_teams o) with
  | Some ts => Some {| timestamp := object_timestamp o; teams := ts |}
  | None => None
  end.

(** The store [h] holds the objects of [h0] as they are, and new ones. *)
Definition extends (h0 h : Objects) : Prop :=
  mapObjects h0 `prefix_of` mapObjects h /\
  teamObjects h0 `prefix_of` teamObjects h /\
  playerObjects h0 `prefix_of` playerObjects h.

(** The references of the player objects of the teams of the entries. *)
Definition playerRefs (h : Objects) (entries : list (string * nat)) : list nat :=
  concat ((fun kv => match teamObjects h !! snd kv with
                     | Some o => object_players o
                     | None => []
                     end) <$> entries).

(** The store [h] of a run that began in [h0], with its map at [mapRef],
    stands for the team map [m]: the map object is the last one, its
    entries read as [m], and the team and player objects that it reaches
    are objects of the run, each reached once. *)
Definition represents (h0 : Objects) (mapRef : nat) (h : Objects)
    (m : TeamStatsMap) : Prop :=
  mapRef = length (mapObjects h0) /\
  mapObjects h = (mapObjects h0 ++ [mapEntries mapRef h])%list /\
  teamObjects h0 `prefix_of` teamObjects h /\
  playerObjects h0 `prefix_of` playerObjects h /\
  readEntries h (mapEntries mapRef h) = Some m /\
  NoDup (snd <$> mapEntries mapRef h) /\
  Forall (fun ref => (length (teamObjects h0) <= ref)%nat) (snd <$> mapEntries mapRef h) /\
  NoDup (playerRefs h (mapEntries mapRef h)) /\
  Forall (fun ref => (length (playerObjects h0) <= ref)%nat)
         (playerRefs h (mapEntries mapRef h)).

(** ** The envelope of a feed *)

(** Every character of the string is of the class. *)
Fixpoint allChars (cls : ascii -> bool) (s : string) : bool :=
  match s with
  | EmptyString => true
  | String c rest => cls c && allChars cls rest
  end.

(** The text is white space only. *)
Definition blank (s : string) : bool := String.eqb (trimStart s) "".

(** The class holds at every place of the text. *)
Fixpoint allAt (cls : string -> bool) (s : string) : bool :=
  match s with
  | EmptyString => true
  | String c rest => cls s && allAt cls rest
  end.

(** No white space begins at the head of the text. *)
Definition noWhiteSpaceAt (s : string) : bool :=
  match whiteSpaceAt s with
  | Some _ => false
  | None => true
  end.

(** Every character of the text is below U+0080. *)
Definition asciiText (s : string) : bool :=
  allChars (fun c => (nat_of_ascii c <? 128)%nat) s.

(** The shape of a feed body that the pattern matches: a token, the payload
    between parentheses, an optional semicolon, then white space only, no
    line terminator beginning in the token or in the payload. *)
Definition envelope (body : string) : Prop :=
  exists token payload semi tail,
    body = token +:+ "(" +:+ payload +:+ ")" +:+ semi +:+ tail /\
    allAt notLineTerminatorAt token = true /\
    allAt notLineTerminatorAt payload = true /\
    (semi = "" \/ semi = ";") /\
    blank tail = true.

(** The shape that the claim names: [token(...)] or [token(...);]. *)
Definition strictEnvelope (body : string) : Prop :=
  exists token payload semi,
    body = token +:+ "(" +:+ payload +:+ ")" +:+ semi /\
    (semi = "" \/ semi = ";").

(** The last character of a text. *)
Fixpoint lastChar (s : string) : option ascii :=
  match s with
  | EmptyString => None
  | String c EmptyString => Some c
  | String _ rest => lastChar rest
  end.

(** ** The data of a feed *)

Section FeedData.

Variable fetch : string -> Result Response.
Variable JSON_parse : string -> Result JSON.

(** The feed at [url] yields the data [v]: the fetch returns a response of a
    success status, whose body is read and matches the pattern with a group
    that is not empty and parses to [v], which is not [null]. *)
Definition yields (url : string) (v : JSON) : Prop :=
  exists response body group,
    fetch url = Ok response /\ ok response = true /\ text response = Ok body /\
    jsonpMatch body = Some group /\ group <> "" /\
    JSON_parse group = Ok v /\ v <> JNull.

(** The feed at [url] yields no data, for one of these causes: the fetch
    throws; the status is not a success; the reading of the body throws; the
    body does not match the pattern; the payload is empty; the payload does
    not parse; the payload parses to [null]. *)
Definition noData (url : string) : Prop :=
  (exists e, fetch url = Throw e) \/
  exists response,
    fetch url = Ok response /\
    (ok response = false \/
     (exists e, text response = Throw e) \/
     exists body,
       text response = Ok body /\
       (jsonpMatch body = None \/
        jsonpMatch body = Some "" \/
        exists group,
          jsonpMatch body = Some group /\
          ((exists e, JSON_parse group = Throw e) \/ JSON_parse group = Ok JNull))).

End FeedData.

(** The character occurs in the string. *)
Fixpoint hasChar (c : ascii) (s : string) : bool :=
  match s with
  | EmptyString => false
  | String c' rest => Ascii.eqb c' c || hasChar c rest
  end.

(** ** The store and the world *)

(** The running total of a team, when it has a row. *)
Definition summaryTotal (teamId : string) (d : DB) : option Z :=
  fst <$> TreePlantingSummary d !! teamId.


(** No team bears the name of a member that [teamNames] inherits. *)
Definition plainTeams (md : MatchData) : Prop :=
  Forall (fun team => team_name team ∉ inheritedMembers) (teams md).

(** The names of the players are strings, as the type [PlayerStats] of the
    program declares. *)
Definition stringNames (md : MatchData) : Prop :=
  Forall (fun team => Forall (fun p => exists s, player_name p = JStr s) (players team))
         (teams md).

(** The world at the start of the loop over the URLs: the handler has read
    the clock three times. *)
Definition atLoopStart (w : World) : World :=
  {| db := db w; clockReads := S (S (S (clockReads w))) |}.

(** ** Sample feeds *)

(** An entry of a bowling card. *)
Definition bowlerEntry (teamId : Z) (short dotBalls : string) : JSON :=
  JObj [("TeamID", JNum teamId); ("PlayerShortName", JStr short);
        ("DotBalls", JStr dotBalls)].

(** First innings: team 13 bats, team 17 bowls; two entries share the name
    [X]. *)
Definition sampleInnings1 : JSON :=
  JObj [("Innings1", JObj [
    ("BattingCard", JArr [JObj [("TeamID", JNum 13)]]);
    ("BowlingCard", JArr [bowlerEntry 17 "X" "5"; bowlerEntry 17 "Y" "2";
                          bowlerEntry 17 "X" "3"])])].

(** Second innings: team 17 bats, team 13 bowls. *)
Definition sampleInnings2 : JSON :=
  JObj [("Innings2", JObj [
    ("BattingCard", JArr [JObj [("TeamID", JNum 17)]]);
    ("BowlingCard", JArr [bowlerEntry 13 "X" "3"])])].

(** A first innings with dot-ball counts at the end of the range of exact
    integers: 2^53 - 1 and 2. *)
Definition largeInnings : JSON :=
  JObj [("Innings1", JObj [
    ("BowlingCard", JArr [bowlerEntry 17 "X" "9007199254740991";
                          bowlerEntry 17 "Y" "2"])])].


(** A first innings whose bowler has a number for short name. *)
Definition sampleInningsOddName : JSON :=
  JObj [("Innings1", JObj [
    ("BattingCard", JArr [JObj [("TeamID", JNum 13)]]);
    ("BowlingCard", JArr [
       JObj [("TeamID", JNum 17); ("PlayerShortName", JNum 7);
             ("DotBalls", JStr "4")]])])].

(** The aggregation of the two sample innings. *)
Definition sampleMatchData : MatchData :=
  {| timestamp := "2025-04-20T14:00:00.000Z";
     teams :=
       [ {| team_name := "13"; totalDotBallsBowled := 3; totalTreesPlanted := 54;
            players := [newPlayer (JStr "X") 3 54] |};
         {| team_name := "17"; totalDotBallsBowled := 10; totalTreesPlanted := 180;
            players := [newPlayer (JStr "X") 8 144; newPlayer (JStr "Y") 2 36] |} ] |}.

(** Team 17 in that result. *)
Definition sampleTeam17 : TeamStats :=
  {| team_name := "17"; totalDotBallsBowled := 10; totalTreesPlanted := 180;
     players := [newPlayer (JStr "X") 8 144; newPlayer (JStr "Y") 2 36] |}.

(** ** A sample network *)

(** The double quote of JSON texts. *)
Definition quote : string := String (ascii_of_nat 34) "".

(** The JSON text of a value (strings without escapes). *)
Fixpoint stringify (j : JSON) : string :=
  match j with
  | JNull => "null"
  | JBool true => "true"
  | JBool false => "false"
  | JNum n => numberText n
  | JStr s => quote +:+ s +:+ quote
  | JArr xs =>
      "[" +:+
      (fix items (l : list JSON) : string :=
         match l with
         | [] => ""
         | x :: rest =>
             match rest with
             | [] => stringify x
             | _ :: _ => stringify x +:+ "," +:+ items rest
             end
         end) xs
      +:+ "]"
  | JObj ms =>
      "{" +:+
      (fix members (l : list (string * JSON)) : string :=
         match l with
         | [] => ""
         | (k, v) :: rest =>
             match rest with
             | [] => quote +:+ k +:+ quote +:+ ":" +:+ stringify v
             | _ :: _ =>
                 quote +:+ k +:+ quote +:+ ":" +:+ stringify v +:+ "," +:+ members rest
             end
         end) ms
      +:+ "}"
  end.

(** A feed body: the JSON text in its callback envelope. *)
Definition feedBody (j : JSON) : string := "onScoring(" +:+ stringify j +:+ ");".

(** A response of status 200 and one of status 404. *)
Definition okResponse (body : string) : Response :=
  {| ok := true; text := Ok body |}.

Definition notFound : Response :=
  {| ok := false; text := Ok "<Error><Code>NoSuchKey</Code></Error>" |}.

(** The feeds of four matches: 1832 has no feed at all (one URL is not
    found, the other answers with an error page), 1833 has both innings,
    1834 has its second innings only, 1835 has a first innings with an odd
    player name. *)
Definition sampleFetch (url : string) : Result Response :=
  if String.eqb url (feedBase +:+ "1832-Innings1.js") then Ok notFound
  else if String.eqb url (feedBase +:+ "1832-Innings2.js") then
    Ok (okResponse "<html>Service Unavailable</html>")
  else if String.eqb url (feedBase +:+ "1833-Innings1.js") then
    Ok (okResponse (feedBody sampleInnings1))
  else if String.eqb url (feedBase +:+ "1833-Innings2.js") then
    Ok (okResponse (feedBody sampleInnings2))
  else if String.eqb url (feedBase +:+ "1834-Innings2.js") then
    Ok (okResponse (feedBody sampleInnings2))
  else if String.eqb url (feedBase +:+ "1835-Innings1.js") then
    Ok (okResponse (feedBody sampleInningsOddName))
  else Throw NetworkError.

(** [JSON.parse] on the texts of the sample feeds. *)
Definition sampleParse (s : string) : Result JSON :=
  if String.eqb s (stringify sampleInnings1) then Ok sampleInnings1
  else if String.eqb s (stringify sampleInnings2) then Ok sampleInnings2
  else if String.eqb s (stringify sampleInningsOddName) then Ok sampleInningsOddName
  else Throw SyntaxError.

(** A network whose every feed is the envelope of the payload [null], and
    a parser that reads it. *)
Definition nullFetch (url : string) : Result Response := Ok (okResponse "cb(null)").

Definition nullParse (s : string) : Result JSON :=
  if String.eqb s "null" then Ok JNull else Throw SyntaxError.

(** A parser that reads the payload [5]. *)
Definition parseFive (s : string) : Result JSON :=
  if String.eqb s "5" then Ok (JNum 5) else Throw SyntaxError.

(** A clock that stands still, on the evening of a match day. *)
Definition sampleClock (n : nat) : Instant :=
  {| isoString := "2025-04-20T14:00:00.000Z";
     istDateTime := "2025-04-20 19:30:00" |}.

(** An empty store, before any reading of the clock. *)
Definition sampleWorld : World := {| db := emptyDB; clockReads := 0 |}.

(** A store of objects that holds nothing yet. *)
Definition emptyObjects : Objects :=
  {| mapObjects := []; teamObjects := []; playerObjects := [] |}.

Definition url1832 : string := "https://www.iplt20.com/match/2025/1832".
Definition url1833 : string := "https://www.iplt20.com/match/2025/1833".
Definition url1835 : string := "https://www.iplt20.com/match/2025/1835".

(** ** Flat feeds *)

(** A value that is absent or a string, a number, a boolean or [null]. *)
Definition flat (v : Value) : Prop :=
  match v with
  | Some j => primitive j = true
  | None => True
  end.

(** An object whose members are all flat, as the entries of a card are. *)
Definition flatObject (j : JSON) : bool :=
  match j with
  | JObj ms => forallb (fun kv => primitive (snd kv)) ms
  | _ => false
  end.

(** A card that is absent or an array of flat objects. *)
Definition flatCard (card : Value) : bool :=
  match card with
  | None => true
  | Some (JArr xs) => forallb flatObject xs
  | Some _ => false
  end.

(** An innings section that is absent or an object with flat cards. *)
Definition flatInnings (section : Value) : bool :=
  match section with
  | None => true
  | Some (JObj ms) =>
      flatCard (ownProperty "BattingCard" ms) && flatCard (ownProperty "BowlingCard" ms)
  | Some _ => false
  end.

(** A payload that is an object with flat innings sections. *)
Definition flatPayload (data : JSON) : bool :=
  match data with
  | JObj ms =>
      flatInnings (ownProperty "Innings1" ms) && flatInnings (ownProperty "Innings2" ms)
  | _ => false
  end.

(** The trees of a team and of each of its players are 18 times their dot
    balls, and no player has dot balls played. *)
Definition eighteenfold (team : TeamStats) : Prop :=
  totalTreesPlanted team = 18 * totalDotBallsBowled team /\
  Forall (fun p => treesBowling p = 18 * dotBallsBowled p /\ dotBallsPlayed p = 0)
         (players team).

(** The names of the players that the team [t] has in the map. *)
Definition namesOf (t : string) (m : TeamStatsMap) : list JSON :=
  match mapGet t m with
  | Some team => player_name <$> players team
  | None => []
  end.

(** ** What a store of a match leaves alone *)

(** From [w] to [w'] the clock is not read, the match rows are the same, no
    team or player row is changed or removed, the performance rows of the
    matches other than [matchId] are the same, and no summary row is
    removed. *)
Definition keepsOthers (matchId : string) (w w' : World) : Prop :=
  clockReads w' = clockReads w /\
  Matches (db w') = Matches (db w) /\
  (forall t n, Teams (db w) !! t = Some n -> Teams (db w') !! t = Some n) /\
  (forall i r, Players (db w) !! i = Some r -> Players (db w') !! i = Some r) /\
  (forall m k, m <> matchId ->
     TeamMatchPerformance (db w') !! (m, k) = TeamMatchPerformance (db w) !! (m, k)) /\
  (forall m k, m <> matchId ->
     PlayerMatchPerformance (db w') !! (m, k)
     = PlayerMatchPerformance (db w) !! (m, k)) /\
  (forall t, is_Some (TreePlantingSummary (db w) !! t) ->
     is_Some (TreePlantingSummary (db w') !! t)).

(** The world after a computation, whatever its outcome. *)
Definition worldAfter {A : Type} (m : M A) (w : World) : World := snd (m w).

(** From the store [d] to the store [d'], the rows of the matches that
    satisfy [P] are the same (the match row and the performance rows), no
    row of a team or of a player is changed or removed, and no summary row
    is removed. *)
Definition keepsRows (P : string -> Prop) (d d' : DB) : Prop :=
  (forall m, P m -> Matches d' !! m = Matches d !! m) /\
  (forall t n, Teams d !! t = Some n -> Teams d' !! t = Some n) /\
  (forall i r, Players d !! i = Some r -> Players d' !! i = Some r) /\
  (forall m k, P m -> TeamMatchPerformance d' !! (m, k) = TeamMatchPerformance d !! (m, k)) /\
  (forall m k, P m ->
     PlayerMatchPerformance d' !! (m, k) = PlayerMatchPerformance d !! (m, k)) /\
  (forall t, is_Some (TreePlantingSummary d !! t) ->
     is_Some (TreePlantingSummary d' !! t)).

(** ** The rows of a match *)

(** A batch of [INSERT OR REPLACE]: each row in turn, the last one winning. *)
Definition replaceAll `{Countable K} {V : Type} (rows : list (K * V))
    (tbl : gmap K V) : gmap K V :=
  foldl (fun m kv => <[kv.1 := kv.2]> m) tbl rows.

(** A batch of [INSERT OR IGNORE]: each row in turn, the first one winning. *)
Definition ignoreAll `{Countable K} {V : Type} (rows : list (K * V))
    (tbl : gmap K V) : gmap K V :=
  foldl (fun m kv => match m !! kv.1 with
                     | Some _ => m
                     | None => <[kv.1 := kv.2]> m
                     end) tbl rows.

(** The identifier under which a player of a team is stored. *)
Definition playerIdOf (teamId : string) (p : PlayerStats) : string :=
  teamId +:+ "_" +:+ replaceWhiteRuns (nameText (player_name p)).

(** The name under which a team is made known: the name of the table, else
    its identifier. *)
Definition knownAs (teamId : string) : string :=
  default teamId (teamNameOf teamId).

Definition teamRows (ts : list TeamStats) : list (string * string) :=
  map (fun t => (team_name t, knownAs (team_name t))) ts.

Definition teamPerformanceRows (matchId : string) (ts : list TeamStats)
    : list ((string * string) * (Z * Z)) :=
  map (fun t => ((matchId, team_name t), (totalDotBallsBowled t, totalTreesPlanted t)))
      ts.

Definition playerRowsOf (teamId : string) (ps : list PlayerStats)
    : list (string * (string * string)) :=
  map (fun p => (playerIdOf teamId p, (nameText (player_name p), teamId))) ps.

Definition playerRows (ts : list TeamStats) : list (string * (string * string)) :=
  flat_map (fun t => playerRowsOf (team_name t) (players t)) ts.

Definition playerPerformanceRowsOf (matchId teamId : string) (ps : list PlayerStats)
    : list ((string * string) * (string * Z * Z)) :=
  map (fun p => ((matchId, playerIdOf teamId p),
                 (teamId, dotBallsBowled p, treesBowling p))) ps.

Definition playerPerformanceRows (matchId : string) (ts : list TeamStats)
    : list ((string * string) * (string * Z * Z)) :=
  flat_map (fun t => playerPerformanceRowsOf matchId (team_name t) (players t)) ts.

(** * Properties *)

(** ** Evaluations *)

Example parseInt_5 : parseInt (Some (JStr "5")) = Ok (Some 5).
Proof. reflexivity. Qed.

Example parseInt_abc : parseInt (Some (JStr "abc")) = Ok None.
Proof. reflexivity. Qed.

Example parseInt_hex : parseInt (Some (JStr " -0x1f")) = Ok (Some (-31)).
Proof. reflexivity. Qed.

Example parseInt_undefined : parseInt None = Ok None.
Proof. reflexivity. Qed.

Example toStr_array :
  toStr (JArr [JNum 7; JNull; JStr "a"; JArr [JNum (-2)]]) = Ok "7,,a,-2".
Proof. reflexivity. Qed.

Example extractMatchId_1832 :
  extractMatchId "https://www.iplt20.com/match/2025/1832" = "1832".
Proof. reflexivity. Qed.

Example jsonpMatch_plain : jsonpMatch "onScoring({a:(1)});  " = Some "{a:(1)}".
Proof. reflexivity. Qed.

Example jsonpMatch_none : jsonpMatch "no envelope" = None.
Proof. reflexivity. Qed.


(** ** Results and loops *)

Lemma bindR_Ok {A B : Type} (r : Result A) (k : A -> Result B) (b : B) :
  bindR r k = Ok b -> exists a, r = Ok a /\ k a = Ok b.
Proof. destruct r as [a|e]; simpl; [eauto | discriminate]. Qed.

Lemma forEach_invariant {A St : Type} (I : St -> Prop) (f : St -> A -> Result St) :
  (forall s x s', I s -> f s x = Ok s' -> I s') ->
  forall l s s', I s -> forEach f l s = Ok s' -> I s'.
Proof.
  intros Hstep l. induction l as [|x rest IH]; simpl; intros s s' Hs Hrun.
  - congruence.
  - apply bindR_Ok in Hrun as (s1 & Hx & Hrest). eauto.
Qed.

Lemma forEachIndexed_invariant {A St : Type} (I : St -> Prop)
    (f : St -> A -> nat -> Result St) :
  (forall s x i s', I s -> f s x i = Ok s' -> I s') ->
  forall l i s s', I s -> forEachIndexed f i l s = Ok s' -> I s'.
Proof.
  intros Hstep l. induction l as [|x rest IH]; simpl; intros i s s' Hs Hrun.
  - congruence.
  - apply bindR_Ok in Hrun as (s1 & Hx & Hrest). eauto.
Qed.

(** ** The team map *)

Lemma mapGet_mapSet_eq key v m : mapGet key (mapSet key v m) = Some v.
Proof.
  induction m as [|[k w] rest IH]; simpl.
  - by rewrite String.eqb_refl.
  - destruct (String.eqb k key) eqn:E; simpl; rewrite E; done.
Qed.

Lemma mapGet_mapSet_ne key key' v m :
  key <> key' -> mapGet key' (mapSet key v m) = mapGet key' m.
Proof.
  intros Hne. induction m as [|[k w] rest IH]; simpl.
  - destruct (String.eqb key key') eqn:E; [|done].
    apply String.eqb_eq in E. contradiction.
  - destruct (String.eqb k key) eqn:E; simpl; [|by rewrite IH].
    apply String.eqb_eq in E. subst k.
    apply String.eqb_neq in Hne. by rewrite Hne.
Qed.

Lemma mapGet_elem key v m : mapGet key m = Some v -> (key, v) ∈ m.
Proof.
  induction m as [|[k w] rest IH]; simpl; [discriminate|].
  destruct (String.eqb k key) eqn:E.
  - apply String.eqb_eq in E. intros [= ->]. subst. left.
  - intros H. right. auto.
Qed.

Lemma mapHas_mapGet key m : mapHas key m = true <-> is_Some (mapGet key m).
Proof.
  induction m as [|[k w] rest IH]; simpl.
  - split; [discriminate | intros [? [=]]].
  - destruct (String.eqb k key); simpl; [split; eauto | done].
Qed.

Lemma mapSet_Forall (P : string * TeamStats -> Prop) key v m :
  P (key, v) -> Forall P m -> Forall P (mapSet key v m).
Proof.
  intros Hv. induction 1 as [|[k w] rest Hx Hrest IH]; simpl.
  - repeat constructor. apply Hv.
  - destruct (String.eqb_spec k key) as [->|Hne]; constructor; auto.
Qed.

Lemma ensureTeam_Forall (P : string * TeamStats -> Prop) t m :
  P (t, newTeam t) -> Forall P m -> Forall P (ensureTeam t m).
Proof.
  intros Hnew Hm. unfold ensureTeam. destruct (mapHas t m); [done|].
  by apply mapSet_Forall.
Qed.

Lemma ensureTeam_present t m : is_Some (mapGet t (ensureTeam t m)).
Proof.
  unfold ensureTeam. destruct (mapHas t m) eqn:E.
  - by apply mapHas_mapGet.
  - rewrite mapGet_mapSet_eq. eauto.
Qed.

Lemma ensureTeam_keeps t t' m :
  is_Some (mapGet t m) -> is_Some (mapGet t (ensureTeam t' m)).
Proof.
  intros H. unfold ensureTeam. destruct (mapHas t' m) eqn:E; [done|].
  destruct (String.eqb_spec t' t) as [->|Hne].
  - rewrite mapGet_mapSet_eq. eauto.
  - by rewrite mapGet_mapSet_ne.
Qed.

(** What a bowler entry does to the team map, when it does not throw. *)
Lemma bowlerStep_Ok bowlingTeam m bowler m' :
  bowlerStep bowlingTeam m bowler = Ok m' ->
  exists nm d team,
    bowlerName bowler = Ok nm /\ bowlerDotBalls bowler = Ok d /\
    mapGet bowlingTeam m = Some team /\
    m' = mapSet bowlingTeam (creditTeam nm d (numMul d TREES_PER_DOT_BALL) team) m.
Proof.
  unfold bowlerStep. intros H.
  apply bindR_Ok in H as (nm & Hnm & H).
  apply bindR_Ok in H as (d & Hd & H).
  destruct (mapGet bowlingTeam m) as [team|] eqn:Hteam; [|discriminate].
  injection H as <-. by exists nm, d, team.
Qed.

(** A property of teams that holds of a new team and is kept by the credit
    of a bowler entry holds of every team of the map. *)
Section TeamInvariant.

Variable I : TeamStats -> Prop.
Hypothesis I_new : forall t, I (newTeam t).
Hypothesis I_credit : forall nm d t team, I team -> I (creditTeam nm d t team).

Lemma bowlerStep_allTeams bowlingTeam m bowler m' :
  allTeams I m -> bowlerStep bowlingTeam m bowler = Ok m' -> allTeams I m'.
Proof.
  intros Hm (nm & d & team & Hnm & Hd & Hget & ->)%bowlerStep_Ok.
  apply mapSet_Forall; [|done]. simpl. apply I_credit.
  apply mapGet_elem in Hget.
  unfold allTeams in Hm. rewrite Forall_forall in Hm. apply (Hm _ Hget).
Qed.

Lemma inningsStep_allTeams m data i m' :
  allTeams I m -> inningsStep m data i = Ok m' -> allTeams I m'.
Proof.
  intros Hm. unfold inningsStep. intros H.
  apply bindR_Ok in H as (inningsData & _ & H).
  destruct (negb (truthy inningsData)); [congruence|].
  apply bindR_Ok in H as (battingCard & _ & H).
  apply bindR_Ok in H as (bowlingCard & _ & H).
  apply bindR_Ok in H as (battingTeam & _ & H).
  apply bindR_Ok in H as (bowlingTeam & _ & H).
  apply bindR_Ok in H as (bowlers & _ & H).
  revert H. apply forEach_invariant.
  - intros s x s'. apply bowlerStep_allTeams.
  - apply ensureTeam_Forall; [apply I_new|].
    apply ensureTeam_Forall; [apply I_new|]. exact Hm.
Qed.

Lemma aggregate_allTeams input m m' :
  allTeams I m -> aggregate input m = Ok m' -> allTeams I m'.
Proof.
  unfold aggregate. apply forEachIndexed_invariant.
  intros s x i s'. apply inningsStep_allTeams.
Qed.

Lemma processMatchData_allTeams now input md :
  processMatchData now input = Ok md -> Forall I (teams md).
Proof.
  unfold processMatchData. intros H.
  apply bindR_Ok in H as (m & Hagg & [= <-]). simpl.
  apply aggregate_allTeams in Hagg; [|constructor].
  rewrite Forall_fmap. exact Hagg.
Qed.

End TeamInvariant.

(** ** Players of a team *)



Lemma sumOf_app f ps qs : sumOf f (ps ++ qs) = sumOf f ps + sumOf f qs.
Proof. induction ps as [|p ps IH]; simpl; [done|]. rewrite IH. lia. Qed.

Lemma sumOf_insert f ps i p q :
  ps !! i = Some p -> sumOf f (<[i := q]> ps) = sumOf f ps - f p + f q.
Proof.
  revert i. induction ps as [|x ps IH]; intros [|i]; simpl; try discriminate.
  - intros [= ->]. lia.
  - intros H. rewrite (IH _ H). lia.
Qed.

Lemma creditExactly_sum_dots nm d ps :
  sumOf dotBallsBowled (creditExactly nm d ps) = sumOf dotBallsBowled ps + d.
Proof.
  unfold creditExactly. destruct (list_find (sameName nm) ps) as [[i p]|] eqn:E.
  - apply list_find_Some in E as (Hi & _ & _).
    rewrite (sumOf_insert _ _ _ _ _ Hi). simpl. lia.
  - rewrite sumOf_app. simpl. lia.
Qed.

Lemma creditExactly_sum_trees nm d ps :
  sumOf treesBowling (creditExactly nm d ps) = sumOf treesBowling ps + d * 18.
Proof.
  unfold creditExactly. destruct (list_find (sameName nm) ps) as [[i p]|] eqn:E.
  - apply list_find_Some in E as (Hi & _ & _).
    rewrite (sumOf_insert _ _ _ _ _ Hi). simpl. lia.
  - rewrite sumOf_app. simpl. lia.
Qed.



Lemma creditPlayer_names nm d t ps :
  player_name <$> creditPlayer nm d t ps =
  match list_find (sameName nm) ps with
  | Some _ => player_name <$> ps
  | None => ((player_name <$> ps) ++ [nm])%list
  end.
Proof.
  unfold creditPlayer. destruct (list_find (sameName nm) ps) as [[i p]|] eqn:E.
  - apply list_find_Some in E as (Hi & _ & _).
    rewrite list_fmap_insert. simpl. apply list_insert_id.
    by rewrite list_lookup_fmap, Hi.
  - by rewrite fmap_app.
Qed.





(** ** Keys of the team map *)

Lemma mapHas_false_keys key m : mapHas key m = false -> key ∉ (fst <$> m).
Proof.
  induction m as [|[k w] rest IH]; simpl.
  - intros _. apply not_elem_of_nil.
  - destruct (String.eqb_spec k key) as [->|Hne]; simpl; [discriminate|].
    intros H. rewrite not_elem_of_cons. split; [congruence | auto].
Qed.

Lemma mapSet_keys key v m :
  fst <$> mapSet key v m =
  if mapHas key m then fst <$> m else ((fst <$> m) ++ [key])%list.
Proof.
  induction m as [|[k w] rest IH]; simpl; [done|].
  destruct (String.eqb_spec k key) as [->|Hne]; simpl; [done|].
  unfold fmap in IH. rewrite IH. by destruct (mapHas key rest).
Qed.

Lemma mapSet_wellKeyed key v m :
  team_name v = key -> wellKeyed m -> wellKeyed (mapSet key v m).
Proof.
  intros Hv [Hnd Hall]. split.
  - rewrite mapSet_keys. destruct (mapHas key m) eqn:E; [done|].
    apply NoDup_app. split_and!; [done| |apply NoDup_singleton].
    intros x Hx ->%list_elem_of_singleton.
    by apply (mapHas_false_keys _ _ E).
  - by apply mapSet_Forall.
Qed.

Lemma ensureTeam_wellKeyed t m : wellKeyed m -> wellKeyed (ensureTeam t m).
Proof.
  intros H. unfold ensureTeam. destruct (mapHas t m); [done|].
  by apply mapSet_wellKeyed.
Qed.

Lemma bowlerStep_wellKeyed bowlingTeam m bowler m' :
  wellKeyed m -> bowlerStep bowlingTeam m bowler = Ok m' -> wellKeyed m'.
Proof.
  intros Hm (nm & d & team & Hnm & Hd & Hget & ->)%bowlerStep_Ok.
  apply mapSet_wellKeyed; [|done]. simpl.
  apply mapGet_elem in Hget. destruct Hm as [_ Hall].
  rewrite Forall_forall in Hall. apply (Hall _ Hget).
Qed.

Lemma inningsStep_wellKeyed m data i m' :
  wellKeyed m -> inningsStep m data i = Ok m' -> wellKeyed m'.
Proof.
  intros Hm. unfold inningsStep. intros H.
  apply bindR_Ok in H as (inningsData & _ & H).
  destruct (negb (truthy inningsData)); [congruence|].
  apply bindR_Ok in H as (battingCard & _ & H).
  apply bindR_Ok in H as (bowlingCard & _ & H).
  apply bindR_Ok in H as (battingTeam & _ & H).
  apply bindR_Ok in H as (bowlingTeam & _ & H).
  apply bindR_Ok in H as (bowlers & _ & H).
  revert H. apply forEach_invariant.
  - intros s x s'. apply bowlerStep_wellKeyed.
  - by do 2 apply ensureTeam_wellKeyed.
Qed.

Lemma aggregate_wellKeyed input m m' :
  wellKeyed m -> aggregate input m = Ok m' -> wellKeyed m'.
Proof.
  unfold aggregate. apply forEachIndexed_invariant.
  intros s x i s'. apply inningsStep_wellKeyed.
Qed.

Lemma wellKeyed_mapGet m key team :
  wellKeyed m -> (key, team) ∈ m -> mapGet key m = Some team.
Proof.
  intros [Hnd _]. induction m as [|[k w] rest IH]; simpl.
  - intros H. by apply elem_of_nil in H.
  - simpl in Hnd. apply NoDup_cons in Hnd as [Hk Hrest].
    intros [[= -> ->]|Hin]%elem_of_cons.
    + by rewrite String.eqb_refl.
    + destruct (String.eqb_spec k key) as [->|Hne]; [|auto].
      exfalso. apply Hk. apply list_elem_of_fmap. by exists (key, team).
Qed.

(** The team names of an aggregation result are pairwise different. *)
Lemma processMatchData_team_names now input md :
  processMatchData now input = Ok md -> NoDup (team_name <$> teams md).
Proof.
  unfold processMatchData. intros H.
  apply bindR_Ok in H as (m & Hagg & [= <-]). simpl.
  apply aggregate_wellKeyed in Hagg as [Hnd Hall].
  - replace (team_name <$> map snd m) with (fst <$> m); [done|].
    clear Hnd. induction Hall as [|[k w] rest Hx Hrest IH]; simpl; [done|].
    simpl in Hx. unfold fmap in IH. by rewrite Hx, IH.
  - split; [constructor | constructor].
Qed.

(** ** The bowler entries of a team *)



(** ** The range of exact numbers *)

Lemma two53 : 2 ^ 53 = 9007199254740992.
Proof. reflexivity. Qed.

Lemma roundNumber_exact z : Z.abs z <= 2 ^ 53 -> roundNumber z = z.
Proof.
  intros H. unfold roundNumber. cbv zeta.
  apply Z.leb_le in H. by rewrite H.
Qed.

Lemma numAdd_exact a b : Z.abs (a + b) <= 2 ^ 53 -> numAdd a b = a + b.
Proof. apply roundNumber_exact. Qed.

Lemma numMul_exact a b : Z.abs (a * b) <= 2 ^ 53 -> numMul a b = a * b.
Proof. apply roundNumber_exact. Qed.

Lemma weightOf_cons b rest :
  weightOf (b :: rest) = Z.abs (entryDotBalls b) + weightOf rest.
Proof. reflexivity. Qed.

Lemma weightOf_nonneg bowlers : 0 <= weightOf bowlers.
Proof.
  induction bowlers as [|b rest IH]; [done|]. rewrite weightOf_cons. lia.
Qed.

Lemma inningsWeight_nonneg data i : 0 <= inningsWeight data i.
Proof.
  unfold inningsWeight. destruct (inningsBowling data i) as [[t bowlers]|]; [|done].
  apply weightOf_nonneg.
Qed.

Lemma weightFrom_nonneg i input : 0 <= weightFrom i input.
Proof.
  revert i. induction input as [|data rest IH]; intros i; simpl; [done|].
  pose proof (inningsWeight_nonneg data i). specialize (IH (S i)). lia.
Qed.

Lemma entryDotBalls_Ok bowler d : bowlerDotBalls bowler = Ok d -> entryDotBalls bowler = d.
Proof. unfold entryDotBalls. by intros ->. Qed.

Lemma playerWithin_mono b b' p : b <= b' -> playerWithin b p -> playerWithin b' p.
Proof. unfold playerWithin. lia. Qed.

Lemma within_mono b b' team : b <= b' -> within b team -> within b' team.
Proof.
  intros Hle (Hd & Ht & Hps). split_and!; [lia | lia |].
  eapply Forall_impl; [exact Hps|]. intros p. by apply playerWithin_mono.
Qed.

Lemma within_new b t : 0 <= b -> within b (newTeam t).
Proof. intros Hb. split_and!; simpl; [lia | lia | constructor]. Qed.

(** In the range of exact numbers the credit of the program is the exact
    one. *)
Lemma creditPlayer_exact b nm d ps :
  0 <= b -> Forall (playerWithin b) ps -> 18 * (b + Z.abs d) <= 2 ^ 53 ->
  creditPlayer nm d (d * 18) ps = creditExactly nm d ps.
Proof.
  intros Hb Hps Hd. unfold creditPlayer, creditExactly.
  destruct (list_find (sameName nm) ps) as [[i p]|] eqn:E; [|reflexivity].
  apply list_find_Some in E as (Hi & _ & _).
  rewrite Forall_lookup in Hps. destruct (Hps i p Hi) as [Hpd Hpt].
  f_equal. unfold addToPlayer, addExactly. rewrite two53 in Hd.
  f_equal; apply roundNumber_exact; rewrite two53; lia.
Qed.

Lemma creditTeam_exact b nm d team :
  0 <= b -> within b team -> 18 * (b + Z.abs d) <= 2 ^ 53 ->
  creditTeam nm d (numMul d TREES_PER_DOT_BALL) team = creditTeamExactly nm d team.
Proof.
  intros Hb (Htd & Htt & Hps) Hd. unfold TREES_PER_DOT_BALL.
  rewrite numMul_exact by (rewrite two53 in *; lia).
  unfold creditTeam, creditTeamExactly.
  rewrite (creditPlayer_exact b) by done. rewrite two53 in Hd.
  f_equal; apply roundNumber_exact; rewrite two53; lia.
Qed.

Lemma creditExactly_within b nm d ps :
  0 <= b -> Forall (playerWithin b) ps ->
  Forall (playerWithin (b + Z.abs d)) (creditExactly nm d ps).
Proof.
  intros Hb Hps.
  assert (Forall (playerWithin (b + Z.abs d)) ps) as Hps'.
  { eapply Forall_impl; [exact Hps|]. intros p. apply playerWithin_mono. lia. }
  unfold creditExactly.
  destruct (list_find (sameName nm) ps) as [[i p]|] eqn:E.
  - apply list_find_Some in E as (Hi & _ & _).
    rewrite Forall_lookup in Hps. destruct (Hps i p Hi) as [Hpd Hpt].
    apply Forall_insert; [exact Hps'|]. unfold playerWithin. simpl. lia.
  - apply Forall_app. split; [exact Hps'|].
    constructor; [|constructor]. unfold playerWithin. simpl. lia.
Qed.

Lemma creditTeamExactly_within b nm d team :
  0 <= b -> within b team -> within (b + Z.abs d) (creditTeamExactly nm d team).
Proof.
  intros Hb (Htd & Htt & Hps). split_and!; simpl; [lia | lia |].
  by apply creditExactly_within.
Qed.

(** A property of teams that holds of a new team and is kept by the exact
    credit of a bowler entry holds of every team of the map, as long as the
    entries stay in the range of exact numbers; [b] bounds the dot balls
    credited so far. *)
Section ExactRun.

Variable I : TeamStats -> Prop.
Hypothesis I_new : forall t, I (newTeam t).
Hypothesis I_credit : forall nm d team, I team -> I (creditTeamExactly nm d team).

Lemma bowlerStep_exact b bowlingTeam m bowler m' :
  0 <= b -> 18 * (b + Z.abs (entryDotBalls bowler)) <= 2 ^ 53 ->
  allTeams (fun team => I team /\ within b team) m ->
  bowlerStep bowlingTeam m bowler = Ok m' ->
  allTeams (fun team => I team /\ within (b + Z.abs (entryDotBalls bowler)) team) m'.
Proof.
  intros Hb Hd Hm (nm & d & team & Hnm & Hdots & Hget & ->)%bowlerStep_Ok.
  rewrite (entryDotBalls_Ok _ _ Hdots) in *.
  apply mapGet_elem in Hget.
  unfold allTeams in *. rewrite Forall_forall in Hm.
  destruct (Hm _ Hget) as [HI Hw]. simpl in HI, Hw.
  rewrite (creditTeam_exact b) by done.
  apply mapSet_Forall.
  - simpl. split; [by apply I_credit | by apply creditTeamExactly_within].
  - apply Forall_forall. intros kv Hkv. destruct (Hm _ Hkv) as [HI' Hw'].
    split; [done|]. eapply within_mono; [|exact Hw']. lia.
Qed.

Lemma bowlers_exact bowlingTeam bowlers :
  forall b m m',
  0 <= b -> 18 * (b + weightOf bowlers) <= 2 ^ 53 ->
  allTeams (fun team => I team /\ within b team) m ->
  forEach (bowlerStep bowlingTeam) bowlers m = Ok m' ->
  allTeams (fun team => I team /\ within (b + weightOf bowlers) team) m'.
Proof.
  induction bowlers as [|x rest IH]; intros b m m' Hb Hd Hm H; simpl in H.
  - injection H as <-. replace (b + weightOf []) with b by (unfold weightOf; simpl; lia).
    exact Hm.
  - apply bindR_Ok in H as (m1 & Hx & Hrest).
    rewrite weightOf_cons in *. pose proof (weightOf_nonneg rest) as Hrest0.
    replace (b + (Z.abs (entryDotBalls x) + weightOf rest))
      with ((b + Z.abs (entryDotBalls x)) + weightOf rest) by lia.
    eapply IH; [lia | lia | | exact Hrest].
    eapply bowlerStep_exact; [exact Hb | lia | exact Hm | exact Hx].
Qed.

Lemma inningsStep_exact b m data i m' :
  0 <= b -> 18 * (b + inningsWeight data i) <= 2 ^ 53 ->
  allTeams (fun team => I team /\ within b team) m ->
  inningsStep m data i = Ok m' ->
  allTeams (fun team => I team /\ within (b + inningsWeight data i) team) m'.
Proof.
  intros Hb Hd Hm. unfold inningsStep, inningsWeight, inningsBowling in *. intros H.
  apply bindR_Ok in H as (inningsData & Hdata & H). rewrite Hdata in *.
  destruct (negb (truthy inningsData)).
  - injection H as <-. replace (b + 0) with b by lia. exact Hm.
  - apply bindR_Ok in H as (battingCard & _ & H).
    apply bindR_Ok in H as (bowlingCard & Hcard & H). rewrite Hcard in *.
    apply bindR_Ok in H as (battingTeam & _ & H).
    apply bindR_Ok in H as (bowlingTeam & Hteam & H). rewrite Hteam in *.
    apply bindR_Ok in H as (bowlers & Hbowlers & H). rewrite Hbowlers in *.
    eapply bowlers_exact; [exact Hb | exact Hd | | exact H].
    apply ensureTeam_Forall; [split; [apply I_new | by apply within_new]|].
    apply ensureTeam_Forall; [split; [apply I_new | by apply within_new]|].
    exact Hm.
Qed.

Lemma aggregateFrom_exact input :
  forall i b m m',
  0 <= b -> 18 * (b + weightFrom i input) <= 2 ^ 53 ->
  allTeams (fun team => I team /\ within b team) m ->
  forEachIndexed inningsStep i input m = Ok m' ->
  allTeams (fun team => I team /\ within (b + weightFrom i input) team) m'.
Proof.
  induction input as [|data rest IH]; intros i b m m' Hb Hd Hm H; simpl in H.
  - injection H as <-. replace (b + weightFrom i []) with b by (simpl; lia).
    exact Hm.
  - apply bindR_Ok in H as (m1 & Hstep & Hrest).
    cbn [weightFrom] in *.
    pose proof (inningsWeight_nonneg data i).
    pose proof (weightFrom_nonneg (S i) rest).
    replace (b + (inningsWeight data i + weightFrom (S i) rest))
      with ((b + inningsWeight data i) + weightFrom (S i) rest) by lia.
    eapply IH; [lia | lia | | exact Hrest].
    eapply inningsStep_exact; [exact Hb | lia | exact Hm | exact Hstep].
Qed.

Lemma processMatchData_exact now input md :
  exactRange input ->
  processMatchData now input = Ok md ->
  Forall (fun team => I team /\ within (weightFrom 0%nat input) team) (teams md).
Proof.
  unfold exactRange, processMatchData. intros Hrange H.
  apply bindR_Ok in H as (m & Hagg & [= <-]). simpl.
  apply (aggregateFrom_exact input 0%nat 0 [] m) in Hagg;
    [| done | exact Hrange | constructor].
  rewrite Forall_fmap. exact Hagg.
Qed.

End ExactRun.

Section Accumulation.

(** A per-player total that grows by [c] for each dot ball. *)
Variable f : PlayerStats -> Z.
Variable c : Z.
Hypothesis f_add : forall d p, f (addExactly d p) = f p + c * d.
Hypothesis f_new : forall nm d, f (newPlayer nm d (d * 18)) = c * d.


Lemma True_new (t : string) : (fun _ : TeamStats => True) (newTeam t).
Proof. exact Logic.I. Qed.







End Accumulation.

(** ** The totals of a player, in the arithmetic of the program *)

Section Tally.

(** A per-player total that grows by [inc d] for an entry of [d] dot balls. *)
Variable f : PlayerStats -> Z.
Variable inc : Z -> Z.
Hypothesis f_add :
  forall d p, f (addToPlayer d (numMul d TREES_PER_DOT_BALL) p) = numAdd (f p) (inc d).
Hypothesis f_new :
  forall nm d, f (newPlayer nm d (numMul d TREES_PER_DOT_BALL)) = inc d.











End Tally.

(** ** The sample aggregation *)

Example processMatchData_sample :
  processMatchData "2025-04-20T14:00:00.000Z" [sampleInnings1; sampleInnings2]
  = Ok sampleMatchData.
Proof. reflexivity. Qed.

(** ** Trees per dot ball *)

(** C4, as amended. A bowler entry whose parsed dot-ball count is [d], with
    [d >= 0], adds exactly [d * 18] trees to the total of the bowling team
    and to the [treesBowling] of its player (the player that [find] returns
    gains [d * 18], and a player that is new starts with [d * 18]), as long
    as the totals stay in the range where numbers are exact integers: the
    totals of the team and of its players are at most [b] dot balls and the
    trees of [b] dot balls, and the trees of [b + d] dot balls are at most
    2^53. The other teams of the map are left as they are. *)
Theorem bowler_entry_adds_18_trees_per_dot_ball
    bowlingTeam m bowler nm d b team :
  bowlerName bowler = Ok nm ->
  bowlerDotBalls bowler = Ok d ->
  0 <= d ->
  mapGet bowlingTeam m = Some team ->
  0 <= b -> within b team -> 18 * (b + d) <= 2 ^ 53 ->
  exists m' team',
    bowlerStep bowlingTeam m bowler = Ok m' /\
    mapGet bowlingTeam m' = Some team' /\
    (forall t, t <> bowlingTeam -> mapGet t m' = mapGet t m) /\
    totalDotBallsBowled team' = totalDotBallsBowled team + d /\
    totalTreesPlanted team' = totalTreesPlanted team + d * 18 /\
    players team' =
      match list_find (sameName nm) (players team) with
      | Some (i, p) =>
          <[i := {| player_name := player_name p;
                    dotBallsBowled := dotBallsBowled p + d;
                    dotBallsPlayed := dotBallsPlayed p;
                    treesBowling := treesBowling p + d * 18 |}]> (players team)
      | None =>
          (players team ++
           [{| player_name := nm; dotBallsBowled := d; dotBallsPlayed := 0;
               treesBowling := d * 18 |}])%list
      end.
Proof.
  intros Hnm Hd Hpos Hteam Hb Hw Hrange.
  exists (mapSet bowlingTeam (creditTeamExactly nm d team) m),
         (creditTeamExactly nm d team).
  split_and!.
  - unfold bowlerStep. rewrite Hnm, Hd. simpl. rewrite Hteam.
    rewrite (creditTeam_exact b); [done..|]. by rewrite Z.abs_eq.
  - apply mapGet_mapSet_eq.
  - intros t Hne. apply mapGet_mapSet_ne. congruence.
  - reflexivity.
  - reflexivity.
  - reflexivity.
Qed.

Lemma bowler_entry_adds_18_trees_per_dot_ball_witness :
  exists m' team',
    bowlerStep "17" [("13", newTeam "13"); ("17", newTeam "17")]
      (bowlerEntry 17 "X" "5") = Ok m' /\
    mapGet "17" m' = Some team' /\
    (forall t, t <> "17" ->
       mapGet t m' = mapGet t [("13", newTeam "13"); ("17", newTeam "17")]) /\
    totalDotBallsBowled team' = 0 + 5 /\
    totalTreesPlanted team' = 0 + 5 * 18 /\
    players team' =
      [{| player_name := JStr "X"; dotBallsBowled := 5; dotBallsPlayed := 0;
          treesBowling := 5 * 18 |}].
Proof.
  apply (bowler_entry_adds_18_trees_per_dot_ball "17"
           [("13", newTeam "13"); ("17", newTeam "17")]
           (bowlerEntry 17 "X" "5") (JStr "X") 5 0 (newTeam "17"));
    [reflexivity | reflexivity | lia | reflexivity | lia
    | apply within_new; lia | rewrite two53; lia].
Defined.

(** C4, as stated, fails. Beyond the range of exact integers the product is
    rounded: an entry of 1000799917193445 dot balls, a count that is read
    exactly, adds 18014398509482008 trees, which is not 18 times the
    count. *)
Lemma large_dot_ball_count_counterexample :
  bowlerDotBalls (bowlerEntry 17 "X" "1000799917193445") = Ok 1000799917193445 /\
  bowlerStep "17" [("17", newTeam "17")] (bowlerEntry 17 "X" "1000799917193445")
  = Ok [("17", {| team_name := "17"; totalDotBallsBowled := 1000799917193445;
                  totalTreesPlanted := 18014398509482008;
                  players := [newPlayer (JStr "X") 1000799917193445
                                18014398509482008] |})] /\
  1000799917193445 * 18 = 18014398509482010.
Proof. split_and!; vm_compute; reflexivity. Qed.

(** ** Team totals *)

Lemma balanced_new t : balanced (newTeam t).
Proof. by split. Qed.

Lemma balanced_credit nm d team :
  balanced team -> balanced (creditTeamExactly nm d team).
Proof.
  intros [Hd Ht]. split; simpl.
  - rewrite creditExactly_sum_dots. lia.
  - rewrite creditExactly_sum_trees. lia.
Qed.

(** C5, as amended. In every [MatchData] that [processMatchData] returns for
    an input in the range of exact numbers (the trees of all the dot balls
    of its bowler entries, each count in absolute value, do not exceed
    2^53), the [totalDotBallsBowled] of each team is the sum of its players'
    [dotBallsBowled], and its [totalTreesPlanted] the sum of their
    [treesBowling]. *)
Theorem team_totals_are_sums_over_players now input md :
  exactRange input ->
  processMatchData now input = Ok md ->
  forall team, team ∈ teams md ->
    totalDotBallsBowled team = sumOf dotBallsBowled (players team) /\
    totalTreesPlanted team = sumOf treesBowling (players team).
Proof.
  intros Hrange Hrun team Hin.
  pose proof (processMatchData_exact balanced balanced_new balanced_credit
                now input md Hrange Hrun) as Hall.
  rewrite Forall_forall in Hall. exact (proj1 (Hall team Hin)).
Qed.

Lemma team_totals_are_sums_over_players_witness :
  Forall (fun team =>
            totalDotBallsBowled team = sumOf dotBallsBowled (players team) /\
            totalTreesPlanted team = sumOf treesBowling (players team))
         (teams sampleMatchData).
Proof.
  apply Forall_forall.
  apply (team_totals_are_sums_over_players "2025-04-20T14:00:00.000Z"
           [sampleInnings1; sampleInnings2] sampleMatchData).
  - apply Z.leb_le. reflexivity.
  - reflexivity.
Defined.

(** C5, as stated, fails. The additions of the program round beyond 2^53:
    with 9007199254740991 dot balls for one bowler and 2 for another, the
    team holds 9007199254740992 dot balls, one less than the sum of its two
    players, and fewer trees than they have together. *)
Lemma rounded_team_total_counterexample :
  exists md team,
    processMatchData "2025-04-20T14:00:00.000Z" [largeInnings] = Ok md /\
    team ∈ teams md /\
    totalDotBallsBowled team = 9007199254740992 /\
    sumOf dotBallsBowled (players team) = 9007199254740993 /\
    totalTreesPlanted team = 162129586585337856 /\
    sumOf treesBowling (players team) = 162129586585337860.
Proof.
  eexists. eexists. split_and!.
  - vm_compute. reflexivity.
  - apply elem_of_cons. right. apply elem_of_cons. left. reflexivity.
  - reflexivity.
  - reflexivity.
  - reflexivity.
  - reflexivity.
Qed.

(** ** One player per name *)

















(** ** Dot balls that do not parse *)

Lemma parseDigits_Some radix s n :
  is_Some (parseDigits radix s (Some n)).
Proof.
  revert n. induction s as [|c rest IH]; intros n; simpl; [eauto|].
  destruct (digitValue radix c); [apply IH | eauto].
Qed.








Lemma roundNumber_0 : roundNumber 0 = 0.
Proof. reflexivity. Qed.






(** The text of a number beyond 2^53 ends in zeros, and from 10^21 on it
    has an exponent, behind which [parseInt] does not read. *)
Example toStr_large_numbers :
  toStr (JNum (2 ^ 60)) = Ok "1152921504606847000" /\
  toStr (JNum (- 2 ^ 70)) = Ok "-1.1805916207174113e+21" /\
  parseInt (Some (JNum (2 ^ 60))) = Ok (Some (2 ^ 60)) /\
  parseInt (Some (JNum (2 ^ 70))) = Ok (Some 1).
Proof. vm_compute. done. Qed.

(** White space is trimmed whatever its character: a no-break space before
    the digits does not hide them. *)
Example parseInt_no_break_space :
  parseInt (Some (JStr (utf8 160 +:+ "5"))) = Ok (Some 5) /\
  parseInt (Some (JStr (utf8 8232 +:+ utf8 65279 +:+ "-7"))) = Ok (Some (-7)).
Proof. split; reflexivity. Qed.

(** ** Determinism: the objects of the aggregation *)

Lemma mapSet_absent key v m : mapGet key m = None -> mapSet key v m = (m ++ [(key, v)])%list.
Proof.
  induction m as [|[k w] rest IH]; simpl; [done|].
  destruct (String.eqb k key); [discriminate|]. intros H. by rewrite IH.
Qed.

Lemma prefix_insert_from {A : Type} (l0 l : list A) i x :
  l0 `prefix_of` l -> (length l0 <= i)%nat -> l0 `prefix_of` <[i := x]> l.
Proof.
  intros [k ->] Hi. exists (<[(i - length l0)%nat := x]> k).
  by rewrite insert_app_r_alt.
Qed.

Lemma prefix_lookup_old {A : Type} (l0 l : list A) i :
  l0 `prefix_of` l -> (i < length l0)%nat -> l !! i = l0 !! i.
Proof. intros [k ->] Hi. by apply lookup_app_l. Qed.

Lemma extends_refl h : extends h h.
Proof. by split_and!. Qed.

Lemma extends_trans h0 h1 h2 : extends h0 h1 -> extends h1 h2 -> extends h0 h2.
Proof.
  intros (? & ? & ?) (? & ? & ?). split_and!; by etrans.
Qed.

(** *** Reading through a changed store *)

Lemma readPlayers_same h h' refs :
  Forall (fun ref => playerObjects h' !! ref = playerObjects h !! ref) refs ->
  readPlayers h' refs = readPlayers h refs.
Proof.
  unfold readPlayers. induction 1 as [|ref refs Href _ IH]; [reflexivity|].
  cbn. by rewrite Href, IH.
Qed.

Lemma readTeam_same h h' ref :
  teamObjects h' !! ref = teamObjects h !! ref ->
  (forall o, teamObjects h !! ref = Some o ->
     Forall (fun r => playerObjects h' !! r = playerObjects h !! r) (object_players o)) ->
  readTeam h' ref = readTeam h ref.
Proof.
  intros Hteam Hplayers. unfold readTeam. rewrite Hteam.
  destruct (teamObjects h !! ref) as [o|]; [|reflexivity].
  by rewrite (readPlayers_same h h' _ (Hplayers o eq_refl)).
Qed.

Lemma readPlayers_Some h refs ps :
  readPlayers h refs = Some ps <->
  Forall2 (fun ref p => playerObjects h !! ref = Some p) refs ps.
Proof. apply mapM_Some. Qed.

Lemma readPlayers_readable h refs ps :
  readPlayers h refs = Some ps ->
  Forall (fun ref => (ref < length (playerObjects h))%nat) refs.
Proof.
  intros H%readPlayers_Some. induction H as [|ref p refs ps Hp _ IH]; constructor; [|done].
  by eapply lookup_lt_Some.
Qed.

Lemma readTeam_Some h ref team :
  readTeam h ref = Some team ->
  exists o,
    teamObjects h !! ref = Some o /\
    readPlayers h (object_players o) = Some (players team) /\
    team = {| team_name := object_name o;
              totalDotBallsBowled := object_totalDotBallsBowled o;
              totalTreesPlanted := object_totalTreesPlanted o;
              players := players team |}.
Proof.
  unfold readTeam. destruct (teamObjects h !! ref) as [o|]; [|discriminate].
  destruct (readPlayers h (object_players o)) as [ps|] eqn:E; [|discriminate].
  intros [= <-]. exists o. split_and!; [reflexivity | exact E | reflexivity].
Qed.

Lemma readEntries_Some h entries m :
  readEntries h entries = Some m <->
  Forall2 (fun kv kt => fst kt = fst kv /\ readTeam h (snd kv) = Some (snd kt)) entries m.
Proof.
  unfold readEntries. etrans; [apply mapM_Some|]. split; intros H.
  - eapply Forall2_impl; [exact H|]. intros [k ref] [k' team]; simpl.
    destruct (readTeam h ref); [|discriminate]. intros [= -> ->]. by split.
  - eapply Forall2_impl; [exact H|]. intros [k ref] [k' team]; simpl.
    intros [-> ->]. reflexivity.
Qed.

(** *** The map object and the team map *)

Lemma getRef_read h entries m key :
  readEntries h entries = Some m ->
  match getRef key entries with
  | Some ref =>
      exists team,
        readTeam h ref = Some team /\ mapGet key m = Some team /\
        (key, ref) ∈ entries
  | None => mapGet key m = None
  end.
Proof.
  intros H%readEntries_Some.
  induction H as [|[k ref] [k' team] entries m [Hk Hread] _ IH]; simpl; [done|].
  simpl in Hk, Hread. subst k'.
  destruct (String.eqb_spec k key) as [->|Hne].
  - exists team. split_and!; [done | done | left].
  - destruct (getRef key entries) as [ref'|]; [|done].
    destruct IH as (team' & ? & ? & ?). exists team'. split_and!; [done..|by right].
Qed.

Lemma represents_extends h0 mapRef h m : represents h0 mapRef h m -> extends h0 h.
Proof.
  intros (_ & Hmaps & Hteams & Hplayers & _). split_and!; [|done..].
  rewrite Hmaps. by apply prefix_app_r.
Qed.

Lemma represents_entries h0 mapRef h m :
  represents h0 mapRef h m -> mapObjects h !! mapRef = Some (mapEntries mapRef h).
Proof.
  intros (-> & Hmaps & _).
  rewrite Hmaps at 1. by rewrite lookup_app_r, Nat.sub_diag.
Qed.

Lemma readEntries_readable h entries m :
  readEntries h entries = Some m ->
  Forall (fun ref => (ref < length (teamObjects h))%nat) (snd <$> entries).
Proof.
  intros H%readEntries_Some.
  induction H as [|[k ref] [k' team] entries m [_ Hread] _ IH]; [constructor|].
  rewrite fmap_cons. constructor; [|done]. simpl in *.
  apply readTeam_Some in Hread as (o & Ho & _). by eapply lookup_lt_Some.
Qed.

Lemma playerRefs_readable h entries m :
  readEntries h entries = Some m ->
  Forall (fun ref => (ref < length (playerObjects h))%nat) (playerRefs h entries).
Proof.
  intros H%readEntries_Some. unfold playerRefs.
  induction H as [|[k ref] [k' team] entries m [_ Hread] _ IH]; [constructor|].
  rewrite fmap_cons. simpl in *. apply Forall_app. split; [|done].
  apply readTeam_Some in Hread as (o & Ho & Hps & _). rewrite Ho.
  by eapply readPlayers_readable.
Qed.

Lemma readEntries_same h h' entries :
  Forall (fun kv => readTeam h' (snd kv) = readTeam h (snd kv)) entries ->
  readEntries h' entries = readEntries h entries.
Proof.
  unfold readEntries. induction 1 as [|kv entries Hkv _ IH]; [reflexivity|].
  cbn. by rewrite Hkv, IH.
Qed.

Lemma playerRefs_same h h' entries :
  Forall (fun kv => object_players <$> teamObjects h' !! snd kv
                    = object_players <$> teamObjects h !! snd kv) entries ->
  playerRefs h' entries = playerRefs h entries.
Proof.
  unfold playerRefs. induction 1 as [|kv entries Hkv _ IH]; [reflexivity|].
  rewrite !fmap_cons. simpl. rewrite IH. f_equal.
  destruct (teamObjects h' !! snd kv), (teamObjects h !! snd kv);
    simpl in Hkv; congruence.
Qed.

Lemma readEntries_app h xs ys m1 m2 :
  readEntries h xs = Some m1 -> readEntries h ys = Some m2 ->
  readEntries h (xs ++ ys) = Some (m1 ++ m2)%list.
Proof.
  rewrite !readEntries_Some. apply Forall2_app.
Qed.

Lemma playerRefs_app h xs ys :
  playerRefs h (xs ++ ys) = (playerRefs h xs ++ playerRefs h ys)%list.
Proof. unfold playerRefs. by rewrite fmap_app, concat_app. Qed.

(** A new team enters the map object as it enters the team map. *)
Lemma represents_ensureTeam h0 mapRef h m t :
  represents h0 mapRef h m ->
  represents h0 mapRef (ensureTeamOn mapRef t h) (ensureTeam t m).
Proof.
  intros Hrep.
  pose proof (represents_entries _ _ _ _ Hrep) as Hentries.
  destruct Hrep as (HmapRef & Hmaps & Hteams & Hplayers & Hread & Hnd & Hfrom
                    & Hpnd & Hpfrom).
  pose proof (getRef_read h _ m t Hread) as Hget.
  unfold ensureTeamOn, ensureTeam.
  destruct (getRef t (mapEntries mapRef h)) as [ref|].
  - destruct Hget as (team & _ & Hm & _).
    assert (mapHas t m = true) as -> by (apply mapHas_mapGet; eauto).
    by split_and!.
  - assert (mapHas t m = false) as ->.
    { destruct (mapHas t m) eqn:E; [|done].
      apply mapHas_mapGet in E as [? E]. congruence. }
    rewrite (mapSet_absent _ _ _ Hget).
    set (entries := mapEntries mapRef h) in *.
    set (n := length (teamObjects h)).
    set (h' := {| mapObjects := _ |}).
    assert (mapEntries mapRef h' = entries ++ [(t, n)])%list as Hentries'.
    { unfold mapEntries. simpl. rewrite list_lookup_insert_eq; [done|].
      by eapply lookup_lt_Some. }
    pose proof (readEntries_readable _ _ _ Hread) as Hreadable.
    assert (Forall (fun kv => readTeam h' (snd kv) = readTeam h (snd kv)) entries)
      as Hsame.
    { rewrite Forall_fmap in Hreadable.
      eapply Forall_impl; [exact Hreadable|]. intros [k ref] Hlt. simpl in *.
      apply readTeam_same; simpl; [by rewrite lookup_app_l|].
      intros o _. by apply Forall_true. }
    split_and!.
    + done.
    + rewrite Hentries'. simpl. rewrite Hmaps at 1. subst mapRef.
      rewrite insert_app_r_alt by lia. by rewrite Nat.sub_diag.
    + simpl. by apply prefix_app_r.
    + done.
    + rewrite Hentries'. apply readEntries_app.
      * by rewrite (readEntries_same _ _ _ Hsame).
      * unfold readEntries, readTeam. cbn.
        by rewrite (list_lookup_middle _ [] _ n eq_refl).
    + rewrite Hentries', fmap_app. apply NoDup_app. split_and!; [done| |].
      * intros ref Hin ->%list_elem_of_singleton.
        rewrite Forall_forall in Hreadable. specialize (Hreadable _ Hin).
        simpl in Hreadable. unfold n in Hreadable. lia.
      * apply NoDup_singleton.
    + rewrite Hentries', fmap_app. apply Forall_app. split; [done|].
      constructor; [|constructor]. simpl. by apply prefix_length.
    + rewrite Hentries', playerRefs_app.
      assert (playerRefs h' [(t, n)] = []) as ->.
      { unfold playerRefs. simpl.
        by rewrite (list_lookup_middle _ [] _ n eq_refl). }
      rewrite app_nil_r. rewrite (playerRefs_same h h'); [done|].
      rewrite Forall_fmap in Hreadable.
      eapply Forall_impl; [exact Hreadable|]. intros [k ref] Hlt. simpl in *.
      by rewrite lookup_app_l.
    + rewrite Hentries', playerRefs_app.
      assert (playerRefs h' [(t, n)] = []) as ->.
      { unfold playerRefs. simpl.
        by rewrite (list_lookup_middle _ [] _ n eq_refl). }
      rewrite app_nil_r. rewrite (playerRefs_same h h'); [done|].
      rewrite Forall_fmap in Hreadable.
      eapply Forall_impl; [exact Hreadable|]. intros [k ref] Hlt. simpl in *.
      by rewrite lookup_app_l.
Qed.

(** *** The player objects of a team *)

Lemma Forall2_impl_in {A B : Type} (P Q : A -> B -> Prop) l k :
  Forall2 P l k -> (forall x y, x ∈ l -> P x y -> Q x y) -> Forall2 Q l k.
Proof.
  induction 1 as [|x y l k Hxy _ IH]; intros HPQ; constructor.
  - apply HPQ; [left | done].
  - apply IH. intros x' y' Hin. apply HPQ. by right.
Qed.

Lemma findPlayer_read h nm refs ps :
  readPlayers h refs = Some ps ->
  match findPlayer nm refs h with
  | Some existingPlayer =>
      exists i p,
        list_find (sameName nm) ps = Some (i, p) /\
        refs !! i = Some existingPlayer /\
        playerObjects h !! existingPlayer = Some p
  | None => list_find (sameName nm) ps = None
  end.
Proof.
  intros H%readPlayers_Some. unfold findPlayer.
  induction H as [|ref p refs ps Hp _ IH]; [done|].
  cbn [List.find list_find]. unfold namedAt at 1. rewrite Hp.
  destruct (strictEq (player_name p) nm) eqn:E.
  - rewrite decide_True by exact E. by exists 0%nat, p.
  - rewrite decide_False by (unfold sameName; congruence).
    destruct (List.find (namedAt h nm) refs) as [ref'|].
    + destruct IH as (i & q & -> & Hi & Hq). by exists (S i), q.
    + by rewrite IH.
Qed.

Lemma readPlayers_insert h h' refs ps i existingPlayer p' :
  playerObjects h' = <[existingPlayer := p']> (playerObjects h) ->
  readPlayers h refs = Some ps -> NoDup refs -> refs !! i = Some existingPlayer ->
  readPlayers h' refs = Some (<[i := p']> ps).
Proof.
  intros Hh' H%readPlayers_Some Hnd. apply NoDup_ListNoDup in Hnd.
  rewrite readPlayers_Some. revert i.
  induction H as [|ref p refs ps Hp Hrest IH]; intros i Hi; [done|].
  inversion Hnd as [|? ? Hnotin Hnd']; subst.
  destruct i as [|i]; simpl in *.
  - injection Hi as ->. constructor.
    + rewrite Hh'. apply list_lookup_insert_eq. by eapply lookup_lt_Some.
    + eapply Forall2_impl_in; [exact Hrest|]. intros r q Hin Hq.
      rewrite Hh', list_lookup_insert_ne; [done|].
      intros <-. apply Hnotin. by apply list_elem_of_In.
  - constructor; [|by apply IH].
    rewrite Hh', list_lookup_insert_ne; [done|].
    intros <-. apply Hnotin. apply list_elem_of_In. by eapply list_elem_of_lookup_2.
Qed.

Lemma playerRefs_elem h entries k ref o x :
  (k, ref) ∈ entries -> teamObjects h !! ref = Some o -> x ∈ object_players o ->
  x ∈ playerRefs h entries.
Proof.
  intros Hin Ho Hx. unfold playerRefs.
  induction entries as [|[k' r] entries IH]; [by apply elem_of_nil in Hin|].
  rewrite fmap_cons. simpl. apply elem_of_app.
  apply elem_of_cons in Hin as [[= <- <-]|Hin].
  - left. by rewrite Ho.
  - right. by apply IH.
Qed.

Lemma playerRefs_team_NoDup h entries k ref o :
  NoDup (playerRefs h entries) -> (k, ref) ∈ entries ->
  teamObjects h !! ref = Some o -> NoDup (object_players o).
Proof.
  unfold playerRefs. induction entries as [|[k' r] entries IH]; intros Hnd Hin Ho.
  - by apply elem_of_nil in Hin.
  - rewrite fmap_cons in Hnd. simpl in Hnd. apply NoDup_app in Hnd as (Hhead & _ & Hrest).
    apply elem_of_cons in Hin as [[= <- <-]|Hin]; [|by apply IH].
    by rewrite Ho in Hhead.
Qed.

(** The arrays of two team objects of the map share no player object. *)
Lemma playerRefs_disjoint h entries k1 r1 k2 r2 o1 o2 x :
  NoDup (playerRefs h entries) ->
  (k1, r1) ∈ entries -> (k2, r2) ∈ entries -> r1 <> r2 ->
  teamObjects h !! r1 = Some o1 -> teamObjects h !! r2 = Some o2 ->
  x ∈ object_players o1 -> x ∉ object_players o2.
Proof.
  induction entries as [|[k r] entries IH]; intros Hnd Hin1 Hin2 Hne Ho1 Ho2 Hx1 Hx2.
  - by apply elem_of_nil in Hin1.
  - unfold playerRefs in Hnd. rewrite fmap_cons in Hnd. simpl in Hnd.
    apply NoDup_app in Hnd as (_ & Hdisj & Hrest).
    apply elem_of_cons in Hin1 as [[= <- <-]|Hin1];
      apply elem_of_cons in Hin2 as [[= <- <-]|Hin2].
    + done.
    + rewrite Ho1 in Hdisj. apply (Hdisj x Hx1).
      by eapply (playerRefs_elem h entries k2 r2 o2).
    + rewrite Ho2 in Hdisj. apply (Hdisj x Hx2).
      by eapply (playerRefs_elem h entries k1 r1 o1).
    + by eapply (IH Hrest Hin1 Hin2).
Qed.

(** A reference pushed to the array of one team object of the map is one
    more player object of the map. *)
Lemma playerRefs_push h h' entries k ref o o' n :
  NoDup (snd <$> entries) -> (k, ref) ∈ entries ->
  teamObjects h !! ref = Some o ->
  teamObjects h' = <[ref := o']> (teamObjects h) ->
  object_players o' = (object_players o ++ [n])%list ->
  playerRefs h' entries ≡ₚ n :: playerRefs h entries.
Proof.
  intros Hnd Hin Ho Hh' Ho'. unfold playerRefs.
  induction entries as [|[k' r] entries IH]; [by apply elem_of_nil in Hin|].
  rewrite fmap_cons in Hnd. apply NoDup_cons in Hnd as [Hnotin Hnd].
  rewrite !fmap_cons. simpl in *.
  destruct (decide (r = ref)) as [->|Hne].
  - rewrite Hh', list_lookup_insert_eq by (by eapply lookup_lt_Some).
    rewrite Ho, Ho'.
    assert (((fun kv => match <[ref := o']> (teamObjects h) !! snd kv with
                        | Some o => object_players o
                        | None => []
                        end) <$> entries)
            = ((fun kv => match teamObjects h !! snd kv with
                          | Some o => object_players o
                          | None => []
                          end) <$> entries)) as ->.
    { apply list_fmap_ext. intros i [k2 r2] Hi. simpl.
      rewrite list_lookup_insert_ne; [done|]. intros <-. apply Hnotin.
      apply list_elem_of_fmap. exists (k2, ref). split; [done|].
      by eapply list_elem_of_lookup_2. }
    rewrite <- app_assoc. simpl.
    by rewrite <- Permutation_middle.
  - rewrite Hh' at 1. rewrite list_lookup_insert_ne by done.
    apply elem_of_cons in Hin as [[= _ ->]|Hin]; [done|].
    rewrite (IH Hnd Hin). by rewrite <- Permutation_middle.
Qed.

(** *** An update of one team object *)

Lemma readEntries_update h h' entries m key ref team' :
  readEntries h entries = Some m -> getRef key entries = Some ref ->
  NoDup (snd <$> entries) ->
  readTeam h' ref = Some team' ->
  (forall k r, (k, r) ∈ entries -> r <> ref -> readTeam h' r = readTeam h r) ->
  readEntries h' entries = Some (mapSet key team' m).
Proof.
  intros H%readEntries_Some. rewrite readEntries_Some.
  induction H as [|[k r] [k' team] entries m [Hk Hread] Hrest IH];
    intros Hget Hnd Hnew Hsame; [discriminate|].
  simpl in Hk, Hread, Hget. subst k'.
  rewrite fmap_cons in Hnd. apply NoDup_cons in Hnd as [Hnotin Hnd]. simpl in *.
  destruct (String.eqb_spec k key) as [->|Hne].
  - injection Hget as ->. constructor; [done|].
    eapply Forall2_impl_in; [exact Hrest|].
    intros [k2 r2] [k2' t2] Hin [Hk2 Hr2]. simpl in *. split; [done|].
    rewrite Hsame with (k := k2); [done | by right |].
    intros ->. apply Hnotin. apply list_elem_of_fmap. by exists (k2, ref).
  - assert ((key, ref) ∈ entries) as Hin.
    { clear -Hget. induction entries as [|[k2 r2] entries IH]; [discriminate|].
      simpl in Hget. destruct (String.eqb_spec k2 key) as [->|?].
      - injection Hget as ->. left.
      - right. by apply IH. }
    constructor.
    + split; [done|]. simpl. rewrite Hsame with (k := k); [done | left |].
      intros ->. apply Hnotin. apply list_elem_of_fmap. by exists (key, ref).
    + apply IH; [done..|]. intros k2 r2 Hin2. apply (Hsame k2). by right.
Qed.

(** *** The steps on the objects and on the team map *)

(** A bowler entry changes the objects as [bowlerStep] changes the team
    map; when it throws, no object has changed. *)
Lemma bowlerStepOn_represents h0 mapRef h m bowlingTeam bowler :
  represents h0 mapRef h m ->
  match bowlerStepOn mapRef bowlingTeam h bowler with
  | (Ok _, h') =>
      exists m', bowlerStep bowlingTeam m bowler = Ok m' /\ represents h0 mapRef h' m'
  | (Throw e, h') => bowlerStep bowlingTeam m bowler = Throw e /\ h' = h
  end.
Proof.
  intros (HmapRef & Hmaps & Hteams & Hplayers & Hread & Hnd & Hfrom & Hpnd & Hpfrom).
  unfold bowlerStepOn, bowlerStep, reading.
  destruct (bowlerName bowler) as [nm|e]; simpl; [|done].
  destruct (bowlerDotBalls bowler) as [d|e]; simpl; [|done].
  pose proof (getRef_read h _ m bowlingTeam Hread) as Hget.
  set (entries := mapEntries mapRef h) in *.
  destruct (getRef bowlingTeam entries) as [ref|] eqn:Eref; [|by rewrite Hget].
  destruct Hget as (team & Hteam & Hm & Hin). rewrite Hm.
  pose proof Hteam as (o & Ho & Hps & Heq)%readTeam_Some. rewrite Ho.
  pose proof (findPlayer_read h nm _ _ Hps) as Hfind.
  set (t := numMul d TREES_PER_DOT_BALL).
  assert (length (teamObjects h0) <= ref)%nat as Hrefge.
  { rewrite Forall_forall in Hfrom. apply Hfrom.
    apply list_elem_of_fmap. by exists (bowlingTeam, ref). }
  assert (ref < length (teamObjects h))%nat as Hreflt by (by eapply lookup_lt_Some).
  pose proof (playerRefs_readable _ _ _ Hread) as Hreadable.
  rewrite Forall_forall in Hreadable, Hpfrom.
  destruct team as [tn td tt ps]. cbn [players] in Hps, Hfind.
  injection Heq as -> -> ->.
  destruct (findPlayer nm (object_players o) h) as [existingPlayer|].
  - destruct Hfind as (i & p & Hfound & Hi & Hp). rewrite Hp.
    eexists. split; [reflexivity|].
    set (o' := {| object_name := object_name o |}).
    set (h' := {| mapObjects := mapObjects h |}).
    assert (existingPlayer ∈ object_players o) as Hpin.
    { by eapply list_elem_of_lookup_2. }
    assert (existingPlayer ∈ playerRefs h entries) as Hpin'.
    { by eapply playerRefs_elem. }
    assert (playerRefs h' entries = playerRefs h entries) as Hrefs.
    { apply playerRefs_same. apply Forall_forall. intros [k r] _. simpl.
      destruct (decide (r = ref)) as [->|Hne].
      - rewrite list_lookup_insert_eq by done. by rewrite Ho.
      - by rewrite list_lookup_insert_ne. }
    split_and!; try done.
    + simpl. by apply prefix_insert_from.
    + simpl. apply prefix_insert_from; [done|]. by apply Hpfrom.
    + change (mapEntries mapRef h') with entries.
      apply (readEntries_update h h' entries m bowlingTeam ref); [done..| |].
      * unfold readTeam. simpl. rewrite list_lookup_insert_eq by done. simpl.
        rewrite (readPlayers_insert h h' _ ps i existingPlayer (addToPlayer d t p));
          [|reflexivity | done | | done].
        -- unfold creditTeam, creditPlayer. simpl. by rewrite Hfound.
        -- by eapply playerRefs_team_NoDup.
      * intros k r Hkr Hne. apply readTeam_same; simpl.
        -- by rewrite list_lookup_insert_ne.
        -- intros o2 Ho2. apply Forall_forall. intros x Hx.
           rewrite list_lookup_insert_ne; [done|]. intros <-.
           by eapply (playerRefs_disjoint h entries bowlingTeam ref k r o o2 existingPlayer).
    + change (mapEntries mapRef h') with entries. by rewrite Hrefs.
    + change (mapEntries mapRef h') with entries. rewrite Hrefs.
      by apply Forall_forall.
  - eexists. split; [reflexivity|].
    set (n := length (playerObjects h)).
    set (o' := {| object_name := object_name o |}).
    set (h' := {| mapObjects := mapObjects h |}).
    assert (forall x, x ∈ playerRefs h entries ->
              playerObjects h' !! x = playerObjects h !! x) as Hold.
    { intros x Hx. simpl. apply lookup_app_l. by apply Hreadable. }
    assert (playerRefs h' entries ≡ₚ n :: playerRefs h entries) as Hrefs.
    { by eapply (playerRefs_push h h' entries bowlingTeam ref o o' n). }
    split_and!; try done.
    + simpl. by apply prefix_insert_from.
    + simpl. by apply prefix_app_r.
    + change (mapEntries mapRef h') with entries.
      apply (readEntries_update h h' entries m bowlingTeam ref); [done..| |].
      * unfold readTeam. simpl. rewrite list_lookup_insert_eq by done. simpl.
        assert (readPlayers h' (object_players o ++ [n])
                = Some (ps ++ [newPlayer nm d t])%list) as ->.
        { apply readPlayers_Some. apply Forall2_app.
          - apply readPlayers_Some in Hps.
            eapply Forall2_impl_in; [exact Hps|]. intros x q Hx Hq.
            rewrite Hold; [done|]. by eapply playerRefs_elem.
          - constructor; [|constructor]. simpl.
            by rewrite (list_lookup_middle _ [] _ n eq_refl). }
        unfold creditTeam, creditPlayer. simpl. by rewrite Hfind.
      * intros k r Hkr Hne. apply readTeam_same; simpl.
        -- by rewrite list_lookup_insert_ne.
        -- intros o2 Ho2. apply Forall_forall. intros x Hx.
           apply Hold. by eapply playerRefs_elem.
    + change (mapEntries mapRef h') with entries. rewrite Hrefs.
      apply NoDup_cons. split; [|done].
      intros Hn%Hreadable. unfold n in Hn. lia.
    + change (mapEntries mapRef h') with entries. rewrite Hrefs.
      constructor; [by apply prefix_length | by apply Forall_forall].
Qed.

Lemma forEachOn_represents h0 mapRef bowlingTeam bowlers :
  forall h m,
  represents h0 mapRef h m ->
  match forEachOn (bowlerStepOn mapRef bowlingTeam) bowlers h with
  | (Ok _, h') =>
      exists m',
        forEach (bowlerStep bowlingTeam) bowlers m = Ok m' /\
        represents h0 mapRef h' m'
  | (Throw e, h') =>
      forEach (bowlerStep bowlingTeam) bowlers m = Throw e /\ extends h0 h'
  end.
Proof.
  induction bowlers as [|bowler rest IH]; intros h m Hrep; simpl; [eauto|].
  pose proof (bowlerStepOn_represents h0 mapRef h m bowlingTeam bowler Hrep) as Hstep.
  destruct (bowlerStepOn mapRef bowlingTeam h bowler) as [[[]|e] h1].
  - destruct Hstep as (m1 & -> & Hrep1). simpl. by apply IH.
  - destruct Hstep as [-> ->]. simpl. split; [done|]. by eapply represents_extends.
Qed.

Lemma inningsStepOn_represents h0 mapRef h m data i :
  represents h0 mapRef h m ->
  match inningsStepOn mapRef h data i with
  | (Ok _, h') =>
      exists m', inningsStep m data i = Ok m' /\ represents h0 mapRef h' m'
  | (Throw e, h') => inningsStep m data i = Throw e /\ extends h0 h'
  end.
Proof.
  intros Hrep. pose proof (represents_extends _ _ _ _ Hrep) as Hext.
  unfold inningsStepOn, inningsStep, reading.
  destruct (getProp _ (Some data)) as [inningsData|e]; simpl; [|done].
  destruct (negb (truthy inningsData)); [eauto|].
  destruct (getProp "BattingCard" inningsData) as [battingCard|e]; simpl; [|done].
  destruct (getProp "BowlingCard" inningsData) as [bowlingCard|e]; simpl; [|done].
  destruct (toStringMethod (teamIdOr battingCard _)) as [battingTeam|e]; simpl; [|done].
  destruct (toStringMethod (teamIdOr bowlingCard _)) as [bowlingTeam|e]; simpl; [|done].
  pose proof (represents_ensureTeam _ _ _ _ bowlingTeam
                (represents_ensureTeam _ _ _ _ battingTeam Hrep)) as Hrep2.
  destruct (bowlersData bowlingCard) as [bowlers|e]; simpl.
  - by apply forEachOn_represents.
  - split; [done|]. by eapply represents_extends.
Qed.

Lemma forEachIndexedOn_represents h0 mapRef input :
  forall i h m,
  represents h0 mapRef h m ->
  match forEachIndexedOn (inningsStepOn mapRef) i input h with
  | (Ok _, h') =>
      exists m',
        forEachIndexed inningsStep i input m = Ok m' /\ represents h0 mapRef h' m'
  | (Throw e, h') =>
      forEachIndexed inningsStep i input m = Throw e /\ extends h0 h'
  end.
Proof.
  induction input as [|data rest IH]; intros i h m Hrep; simpl; [eauto|].
  pose proof (inningsStepOn_represents h0 mapRef h m data i Hrep) as Hstep.
  destruct (inningsStepOn mapRef h data i) as [[[]|e] h1].
  - destruct Hstep as (m1 & -> & Hrep1). simpl. by apply IH.
  - by destruct Hstep as [-> ?].
Qed.

(** A new map object stands for the empty team map. *)
Lemma newMap_represents h0 :
  represents h0 (fst (newMap h0)) (snd (newMap h0)) [].
Proof.
  unfold represents, newMap, mapEntries. simpl.
  rewrite (list_lookup_middle _ [] _ _ eq_refl). simpl.
  split_and!; try done; constructor.
Qed.

Lemma readEntries_teams h entries m :
  readEntries h entries = Some m ->
  mapM (readTeam h) (snd <$> entries) = Some (snd <$> m).
Proof.
  intros H%readEntries_Some. apply mapM_Some. apply Forall2_fmap.
  eapply Forall2_impl; [exact H|]. by intros kv kt [_ ?].
Qed.

(** The run on the objects returns what [processMatchData] returns, read
    through the references, and throws what it throws; the objects that the
    store held before the run are as they were. *)
Lemma processMatchDataOn_refines now input h0 :
  match processMatchDataOn now input h0 with
  | (Ok o, h') =>
      extends h0 h' /\
      exists md, processMatchData now input = Ok md /\ readMatchData h' o = Some md
  | (Throw e, h') => extends h0 h' /\ processMatchData now input = Throw e
  end.
Proof.
  unfold processMatchDataOn, processMatchData, aggregate.
  pose proof (newMap_represents h0) as Hrep.
  destruct (newMap h0) as [mapRef h1]. simpl in Hrep.
  pose proof (forEachIndexedOn_represents h0 mapRef input 0%nat h1 [] Hrep) as Hrun.
  destruct (forEachIndexedOn (inningsStepOn mapRef) 0 input h1) as [[[]|e] h2].
  - destruct Hrun as (m & -> & Hrep2). simpl.
    split; [by eapply represents_extends|].
    eexists. split; [reflexivity|]. unfold readMatchData. simpl.
    destruct Hrep2 as (_ & _ & _ & _ & Hread & _).
    by rewrite (readEntries_teams _ _ _ Hread).
  - destruct Hrun as [-> Hext]. by split.
Qed.

(** *** What later objects leave as it is *)

Lemma readTeam_extends h h' ref team :
  extends h h' -> readTeam h ref = Some team -> readTeam h' ref = Some team.
Proof.
  intros (_ & Hteams & Hplayers) Hread. rewrite <- Hread.
  pose proof Hread as (o & Ho & Hps & _)%readTeam_Some.
  apply readTeam_same.
  - apply prefix_lookup_old; [done|]. by eapply lookup_lt_Some.
  - intros o' Ho'. assert (o' = o) as -> by congruence.
    eapply Forall_impl; [by eapply readPlayers_readable|].
    intros r Hr. by apply prefix_lookup_old.
Qed.

Lemma readMatchData_extends h h' o md :
  extends h h' -> readMatchData h o = Some md -> readMatchData h' o = Some md.
Proof.
  intros Hext. unfold readMatchData.
  destruct (mapM (readTeam h) (object_teams o)) as [ts|] eqn:E; [|discriminate].
  intros [= <-]. apply mapM_Some in E.
  assert (mapM (readTeam h') (object_teams o) = Some ts) as ->; [|done].
  apply mapM_Some. eapply Forall2_impl; [exact E|].
  intros ref team. by apply readTeam_extends.
Qed.

(** C10. Two runs of [processMatchData] on the same input, made on the
    objects of the program, in any two states of its store and at any two
    times, agree on everything but the timestamp: both return, and the
    values returned, read through their references, are those of the
    function [processMatchData], with the same teams and players and totals
    in the same order, each with the timestamp of its run; or both throw
    the same exception. Each run builds its map and its team and player
    objects anew: it reads nothing that an earlier run has built, and it
    leaves the objects that the store held as they were, so that the value
    returned by a first run reads the same after a second run made in the
    store that the first has left. *)
Theorem processMatchData_deterministic now1 now2 input h1 h2 :
  match processMatchDataOn now1 input h1, processMatchDataOn now2 input h2 with
  | (Ok o1, h1'), (Ok o2, h2') =>
      exists md1 md2,
        readMatchData h1' o1 = Some md1 /\ readMatchData h2' o2 = Some md2 /\
        processMatchData now1 input = Ok md1 /\
        processMatchData now2 input = Ok md2 /\
        teams md1 = teams md2 /\ timestamp md1 = now1 /\ timestamp md2 = now2
  | (Throw e1, _), (Throw e2, _) =>
      e1 = e2 /\ processMatchData now1 input = Throw e1
  | _, _ => False
  end /\
  extends h1 (snd (processMatchDataOn now1 input h1)) /\
  forall o1, fst (processMatchDataOn now1 input h1) = Ok o1 ->
    readMatchData
      (snd (processMatchDataOn now2 input (snd (processMatchDataOn now1 input h1)))) o1
    = readMatchData (snd (processMatchDataOn now1 input h1)) o1.
Proof.
  pose proof (processMatchDataOn_refines now1 input h1) as Hrun1.
  pose proof (processMatchDataOn_refines now2 input h2) as Hrun2.
  pose proof (processMatchDataOn_refines now2 input
                (snd (processMatchDataOn now1 input h1))) as Hrun3.
  assert (forall now now',
            match processMatchData now input, processMatchData now' input with
            | Ok md, Ok md' => teams md = teams md'
            | Throw e, Throw e' => e = e'
            | _, _ => False
            end) as Hsame.
  { intros now now'. unfold processMatchData.
    by destruct (aggregate input []). }
  assert (forall now md, processMatchData now input = Ok md -> timestamp md = now)
    as Hstamp.
  { intros now md. unfold processMatchData.
    destruct (aggregate input []); simpl; [|discriminate]. by intros [= <-]. }
  specialize (Hsame now1 now2).
  destruct (processMatchDataOn now1 input h1) as [[o1|e1] h1'];
    destruct (processMatchDataOn now2 input h2) as [[o2|e2] h2']; simpl in *.
  - destruct Hrun1 as (Hext1 & md1 & Hmd1 & Hread1).
    destruct Hrun2 as (Hext2 & md2 & Hmd2 & Hread2).
    rewrite Hmd1, Hmd2 in Hsame.
    split_and!; [|done|].
    + exists md1, md2. split_and!; try done; eauto.
    + intros o [= <-]. rewrite Hread1.
      apply (readMatchData_extends h1'); [|done].
      by destruct (processMatchDataOn now2 input h1') as [[?|?] ?]; destruct Hrun3.
  - destruct Hrun1 as (_ & md1 & Hmd1 & _), Hrun2 as (_ & Hmd2).
    by rewrite Hmd1, Hmd2 in Hsame.
  - destruct Hrun1 as (_ & Hmd1), Hrun2 as (_ & md2 & Hmd2 & _).
    by rewrite Hmd1, Hmd2 in Hsame.
  - destruct Hrun1 as (Hext1 & Hmd1), Hrun2 as (_ & Hmd2).
    rewrite Hmd1, Hmd2 in Hsame.
    split_and!; [done..|discriminate].
Qed.

Lemma processMatchData_deterministic_witness :
  readMatchData
    (snd (processMatchDataOn "2025-04-21T14:00:00.000Z"
            [sampleInnings1; sampleInnings2]
            (snd (processMatchDataOn "2025-04-20T14:00:00.000Z"
                    [sampleInnings1; sampleInnings2] emptyObjects))))
    {| object_timestamp := "2025-04-20T14:00:00.000Z"; object_teams := [0; 1]%nat |}
  = readMatchData
      (snd (processMatchDataOn "2025-04-20T14:00:00.000Z"
              [sampleInnings1; sampleInnings2] emptyObjects))
      {| object_timestamp := "2025-04-20T14:00:00.000Z"; object_teams := [0; 1]%nat |}.
Proof.
  apply (proj2 (proj2 (processMatchData_deterministic
                         "2025-04-20T14:00:00.000Z" "2025-04-21T14:00:00.000Z"
                         [sampleInnings1; sampleInnings2]
                         emptyObjects emptyObjects))).
  reflexivity.
Defined.

(** Two runs in a row, the second one in the store that the first has left:
    the values returned hold different references and read as the same
    teams. *)
Example processMatchDataOn_twice :
  let first := processMatchDataOn "2025-04-20T14:00:00.000Z"
                 [sampleInnings1; sampleInnings2] emptyObjects in
  let second := processMatchDataOn "2025-04-21T14:00:00.000Z"
                  [sampleInnings1; sampleInnings2] (snd first) in
  fst first = Ok {| object_timestamp := "2025-04-20T14:00:00.000Z";
                    object_teams := [0; 1]%nat |} /\
  fst second = Ok {| object_timestamp := "2025-04-21T14:00:00.000Z";
                     object_teams := [2; 3]%nat |} /\
  readMatchData (snd second)
    {| object_timestamp := "2025-04-20T14:00:00.000Z"; object_teams := [0; 1]%nat |}
  = Some sampleMatchData /\
  teams <$> readMatchData (snd second)
              {| object_timestamp := "2025-04-21T14:00:00.000Z";
                 object_teams := [2; 3]%nat |}
  = Some (teams sampleMatchData).
Proof. vm_compute. done. Qed.

(** ** The envelope of a feed *)

Lemma append_assoc (a b c : string) : (a +:+ b) +:+ c = a +:+ (b +:+ c).
Proof.
  induction a as [|x a IH]; [reflexivity|].
  change (String x ((a +:+ b) +:+ c) = String x (a +:+ (b +:+ c))).
  by rewrite IH.
Qed.

Lemma append_empty_r (a : string) : a +:+ "" = a.
Proof.
  induction a as [|x a IH]; [reflexivity|].
  change (String x (a +:+ "") = String x a). by rewrite IH.
Qed.

(** A line terminator is told from the three bytes ahead. *)
Lemma lineTerminatorAt_bytes s :
  lineTerminatorAt s =
  match s with
  | String a rest =>
      Ascii.eqb "010" a || Ascii.eqb "013" a ||
      (Ascii.eqb "226" a &&
       match rest with
       | String b (String c _) =>
           Ascii.eqb "128" b && (Ascii.eqb "168" c || Ascii.eqb "169" c)
       | _ => false
       end)
  | EmptyString => false
  end.
Proof.
  destruct s as [|a rest]; [reflexivity|].
  unfold lineTerminatorAt, lineTerminators. cbn [afterOneOf].
  change (utf8 10) with (String "010" ""). change (utf8 13) with (String "013" "").
  change (utf8 8232) with (String "226" (String "128" (String "168" ""))).
  change (utf8 8233) with (String "226" (String "128" (String "169" ""))).
  cbn [afterPrefix].
  destruct (Ascii.eqb "010" a); [reflexivity|].
  destruct (Ascii.eqb "013" a); [reflexivity|].
  destruct (Ascii.eqb "226" a); [|reflexivity].
  destruct rest as [|b [|c rest]]; cbn -[Ascii.eqb]; try reflexivity.
  - by destruct (Ascii.eqb "128" b).
  - destruct (Ascii.eqb "128" b); [|reflexivity].
    by destruct (Ascii.eqb "168" c), (Ascii.eqb "169" c).
Qed.

(** What follows a text does not make a line terminator begin in it, when
    it begins with a byte that is no part of a line terminator. *)
Lemma lineTerminatorAt_append x t c rest :
  Ascii.eqb "128" c = false -> Ascii.eqb "168" c = false ->
  Ascii.eqb "169" c = false ->
  lineTerminatorAt (String x t +:+ String c rest) = lineTerminatorAt (String x t).
Proof.
  intros H128 H168 H169. rewrite !lineTerminatorAt_bytes.
  change (String x t +:+ String c rest) with (String x (t +:+ String c rest)).
  cbv beta iota. f_equal. f_equal.
  destruct t as [|b [|c' t]].
  - change ("" +:+ String c rest) with (String c rest).
    destruct rest; cbv beta iota; [reflexivity | by rewrite H128].
  - change (String b "" +:+ String c rest) with (String b (String c rest)).
    cbv beta iota. rewrite H168, H169. by destruct (Ascii.eqb "128" b).
  - reflexivity.
Qed.

(** A class that what follows the text does not change holds at the places
    of the text alone as it does with the text followed. *)
Lemma allAt_followed (cls : string -> bool) pre rest :
  (forall x t, cls (String x t +:+ rest) = cls (String x t)) ->
  allAt (fun t => cls (t +:+ rest)) pre = allAt cls pre.
Proof.
  intros Hcls. induction pre as [|x pre IH]; [reflexivity|].
  simpl. by rewrite Hcls, IH.
Qed.

Section MatcherFacts.

Context {R : Type}.

Lemma lazyStar_Some cls (k : string -> option R) s r :
  lazyStar cls k s = Some r ->
  exists pre rest,
    s = pre +:+ rest /\ k rest = Some r /\
    allAt (fun t => cls (t +:+ rest)) pre = true.
Proof.
  induction s as [|c s IH]; simpl.
  - destruct (k "") eqn:E; [|discriminate].
    intros [= <-]. exists "", "". split_and!; [reflexivity | exact E | reflexivity].
  - destruct (k (String c s)) eqn:E.
    + intros [= <-]. exists "", (String c s).
      split_and!; [reflexivity | exact E | reflexivity].
    + destruct (cls (String c s)) eqn:Hc; [|discriminate].
      intros (pre & rest & -> & Hk & Hpre)%IH.
      exists (String c pre), rest. split_and!; [reflexivity | exact Hk |].
      simpl. change (String c pre +:+ rest) with (String c (pre +:+ rest)).
      by rewrite Hc, Hpre.
Qed.

Lemma greedyStarCapture_Some cls (k : string -> string -> option R) captured s r :
  greedyStarCapture cls k captured s = Some r ->
  exists mid rest,
    s = mid +:+ rest /\ k (captured +:+ mid) rest = Some r /\
    allAt (fun t => cls (t +:+ rest)) mid = true.
Proof.
  revert captured. induction s as [|c s IH]; intros captured; simpl.
  - intros H. exists "", "".
    split_and!; [reflexivity | by rewrite append_empty_r | reflexivity].
  - destruct (cls (String c s)) eqn:Hc.
    + destruct (greedyStarCapture cls k (captured +:+ String c "") s) eqn:E.
      * intros [= <-]. apply IH in E as (mid & rest & -> & Hk & Hmid).
        exists (String c mid), rest. split_and!; [reflexivity| |].
        -- by rewrite append_assoc in Hk.
        -- simpl. change (String c mid +:+ rest) with (String c (mid +:+ rest)).
           by rewrite Hc, Hmid.
      * intros H. exists "", (String c s).
        split_and!; [reflexivity | by rewrite append_empty_r | reflexivity].
    + intros H. exists "", (String c s).
      split_and!; [reflexivity | by rewrite append_empty_r | reflexivity].
Qed.

Lemma greedyStar_Some cls (k : string -> option R) s r :
  greedyStar cls k s = Some r ->
  exists pre rest,
    s = pre +:+ rest /\ allChars cls pre = true /\ k rest = Some r.
Proof.
  induction s as [|c s IH]; simpl.
  - intros H. exists "", "". split_and!; [reflexivity | reflexivity | exact H].
  - destruct (cls c) eqn:Hc.
    + destruct (greedyStar cls k s) eqn:E.
      * intros [= <-]. destruct (IH eq_refl) as (pre & rest & -> & Hpre & Hk).
        exists (String c pre), rest. split_and!; [reflexivity| |done].
        simpl. by rewrite Hc, Hpre.
      * intros H. exists "", (String c s).
        split_and!; [reflexivity | reflexivity | exact H].
    + intros H. exists "", (String c s).
      split_and!; [reflexivity | reflexivity | exact H].
Qed.

Lemma char_Some c (k : string -> option R) s r :
  char c k s = Some r -> exists rest, s = String c rest /\ k rest = Some r.
Proof.
  destruct s as [|c' rest]; simpl; [discriminate|].
  destruct (Ascii.eqb_spec c' c) as [->|]; [|discriminate].
  intros H. exists rest. split; [reflexivity | exact H].
Qed.

Lemma optChar_Some c (k : string -> option R) s r :
  optChar c k s = Some r ->
  exists semi rest,
    s = semi +:+ rest /\ (semi = "" \/ semi = String c "") /\ k rest = Some r.
Proof.
  unfold optChar. destruct (char c k s) eqn:E.
  - intros [= <-]. apply char_Some in E as (rest & -> & Hk).
    exists (String c ""), rest. split_and!; [reflexivity | by right | done].
  - intros H. exists "", s. split_and!; [reflexivity | by left | done].
Qed.

Lemma endOfInput_Some (r r' : R) s : endOfInput r s = Some r' -> s = "".
Proof. by destruct s. Qed.

Lemma whiteSpaceAt_empty : whiteSpaceAt "" = None.
Proof. reflexivity. Qed.

(** White space to the end of the input: the text is blank. *)
Lemma whiteStarFrom_end n (r r' : R) s :
  whiteStarFrom n (endOfInput r) s = Some r' -> trimStartFrom n s = "".
Proof.
  revert s r'. induction n as [|n IH]; intros s r'; simpl.
  - apply endOfInput_Some.
  - destruct (whiteSpaceAt s) as [rest|] eqn:E.
    + destruct (whiteStarFrom n (endOfInput r) rest) eqn:F.
      * intros _. by eapply IH.
      * intros ->%endOfInput_Some. by rewrite whiteSpaceAt_empty in E.
    + apply endOfInput_Some.
Qed.

Lemma whiteStar_end (r r' : R) s :
  whiteStar (endOfInput r) s = Some r' -> blank s = true.
Proof.
  unfold whiteStar, blank, trimStart. intros H.
  by rewrite (whiteStarFrom_end _ _ _ _ H).
Qed.

Lemma blank_whiteStarFrom n (r : R) s :
  trimStartFrom n s = "" -> whiteStarFrom n (endOfInput r) s = Some r.
Proof.
  revert s. induction n as [|n IH]; intros s; simpl.
  - by intros ->.
  - destruct (whiteSpaceAt s) as [rest|] eqn:E.
    + intros H. by rewrite (IH rest H).
    + by intros ->.
Qed.

Lemma blank_whiteStar (r : R) s :
  blank s = true -> whiteStar (endOfInput r) s = Some r.
Proof.
  unfold whiteStar, blank, trimStart. intros H%String.eqb_eq.
  by apply blank_whiteStarFrom.
Qed.

End MatcherFacts.

(** A body that the pattern matches has the shape of an envelope. *)
Lemma jsonpMatch_envelope body group :
  jsonpMatch body = Some group -> envelope body.
Proof.
  unfold jsonpMatch.
  intros (token & rest1 & -> & H & Htoken)%lazyStar_Some.
  apply char_Some in H as (afterOpen & -> & H).
  apply greedyStarCapture_Some in H as (payload & rest2 & -> & H & Hpayload).
  apply char_Some in H as (rest3 & -> & H).
  apply optChar_Some in H as (semi & tail & -> & Hsemi & H).
  apply whiteStar_end in H.
  exists token, payload, semi, tail. split_and!; [reflexivity | | | done..].
  - rewrite <- Htoken. symmetry. apply allAt_followed. intros x t.
    unfold notLineTerminatorAt. by rewrite lineTerminatorAt_append.
  - rewrite <- Hpayload. symmetry. apply allAt_followed. intros x t.
    unfold notLineTerminatorAt. by rewrite lineTerminatorAt_append.
Qed.

Section FetcherFacts.

Variable fetch : string -> Result Response.
Variable JSON_parse : string -> Result JSON.

(** The callback of the feed URLs returns, whatever the network and the
    parser do. *)
Lemma fetchFeed_returns url : exists v, fetchFeed fetch JSON_parse url = Ok v.
Proof.
  unfold fetchFeed, decodeBody.
  destruct (fetch url) as [response|e]; simpl; [|eauto].
  destruct (ok response); simpl; [|eauto].
  destruct (text response) as [body|e]; simpl; [|eauto].
  destruct (jsonpMatch body) as [group|]; simpl; [|eauto].
  destruct (String.eqb group ""); simpl; [eauto|].
  destruct (JSON_parse group); simpl; eauto.
Qed.

(** C8, as amended. A response body that has not the shape of a JSONP
    envelope, which is a token and a payload between parentheses on one
    line, an optional semicolon and then white space only (line breaks
    among it), decodes to [null], whatever the parser; the fetch of a feed
    whose body is such returns [null], and the callback of a feed URL
    returns in every case: no exception leaves it to reject the sibling
    fetch. *)
Theorem bad_envelope_decodes_to_null body :
  ~ envelope body ->
  decodeBody JSON_parse body = Ok JNull /\
  (forall url response,
      fetch url = Ok response -> text response = Ok body ->
      fetchFeed fetch JSON_parse url = Ok JNull) /\
  (forall url, exists v, fetchFeed fetch JSON_parse url = Ok v).
Proof.
  intros Hbad.
  assert (decodeBody JSON_parse body = Ok JNull) as Hdecode.
  { unfold decodeBody. destruct (jsonpMatch body) as [group|] eqn:E; [|done].
    exfalso. apply Hbad. by eapply jsonpMatch_envelope. }
  split_and!.
  - exact Hdecode.
  - intros url response Hfetch Htext. unfold fetchFeed.
    rewrite Hfetch. simpl. destruct (ok response); simpl; [|done].
    rewrite Htext. simpl. by rewrite Hdecode.
  - apply fetchFeed_returns.
Qed.

End FetcherFacts.

(** ** The feeds of a match *)

Example fetchFeed_sample :
  fetchFeed sampleFetch sampleParse (feedBase +:+ "1833-Innings1.js")
  = Ok sampleInnings1.
Proof. vm_compute. reflexivity. Qed.

Example stringify_entry :
  stringify (JObj [("DotBalls", JStr "5"); ("n", JArr [JNum 1; JNull])])
  = "{" +:+ quote +:+ "DotBalls" +:+ quote +:+ ":" +:+ quote +:+ "5" +:+ quote
    +:+ "," +:+ quote +:+ "n" +:+ quote +:+ ":[1,null]}".
Proof. reflexivity. Qed.

Lemma hasChar_append c a b : hasChar c (a +:+ b) = hasChar c a || hasChar c b.
Proof.
  induction a as [|x a IH]; [reflexivity|].
  change (hasChar c (String x (a +:+ b)) = hasChar c (String x a) || hasChar c b).
  simpl. rewrite IH. by rewrite orb_assoc.
Qed.

(** An envelope has its closing parenthesis. *)
Lemma envelope_closes body : envelope body -> hasChar ")" body = true.
Proof.
  intros (token & payload & semi & tail & -> & _).
  rewrite !hasChar_append. simpl. by rewrite !orb_true_r.
Qed.

Lemma bad_envelope_decodes_to_null_witness :
  decodeBody sampleParse "<html>Service Unavailable</html>" = Ok JNull /\
  (forall url response,
      sampleFetch url = Ok response ->
      text response = Ok "<html>Service Unavailable</html>" ->
      fetchFeed sampleFetch sampleParse url = Ok JNull) /\
  (forall url, exists v, fetchFeed sampleFetch sampleParse url = Ok v).
Proof.
  apply (bad_envelope_decodes_to_null sampleFetch sampleParse
           "<html>Service Unavailable</html>").
  intros H. apply envelope_closes in H. vm_compute in H. discriminate H.
Defined.

Lemma lastChar_append_char a c : lastChar (a +:+ String c "") = Some c.
Proof.
  induction a as [|x a IH]; [reflexivity|].
  change (lastChar (String x (a +:+ String c "")) = Some c).
  destruct a as [|y a]; [reflexivity|]. exact IH.
Qed.

(** A text of the shape that the claim names ends with a closing
    parenthesis or with a semicolon. *)
Lemma strictEnvelope_last body :
  strictEnvelope body -> lastChar body = Some ")"%char \/ lastChar body = Some ";"%char.
Proof.
  intros (token & payload & semi & -> & [->| ->]).
  - left. rewrite append_empty_r.
    rewrite <- !append_assoc. apply lastChar_append_char.
  - right. rewrite <- !append_assoc. apply lastChar_append_char.
Qed.

(** C8, as stated, fails. The pattern lets white space follow the envelope:
    a body that ends with a line break, as the last line of a file does,
    has neither the shape [token(...)] nor the shape [token(...);], and it
    decodes to its data. *)
Lemma trailing_line_break_counterexample :
  ~ strictEnvelope ("cb(5);" +:+ String "013" (String "010" "")) /\
  decodeBody parseFive ("cb(5);" +:+ String "013" (String "010" "")) = Ok (JNum 5).
Proof.
  split; [|reflexivity].
  intros H. apply strictEnvelope_last in H. vm_compute in H.
  destruct H as [H|H]; discriminate H.
Qed.

Section FeedsOfAMatch.

Variable fetch : string -> Result Response.
Variable JSON_parse : string -> Result JSON.

Lemma fetchMatchJson_unfold matchId v1 v2 :
  fetchFeed fetch JSON_parse (feedBase +:+ matchId +:+ "-Innings1.js") = Ok v1 ->
  fetchFeed fetch JSON_parse (feedBase +:+ matchId +:+ "-Innings2.js") = Ok v2 ->
  fetchMatchJson fetch JSON_parse matchId =
  if isNull v1 && isNull v2 then
    Throw (Error ("Failed to fetch any valid data for match " +:+ matchId))
  else Ok (List.filter (fun r => negb (isNull r)) [v1; v2]).
Proof.
  intros H1 H2. unfold fetchMatchJson, buildJsonUrl. simpl.
  rewrite H1. simpl. rewrite H2. simpl.
  by destruct (isNull v1), (isNull v2).
Qed.

Lemma isNull_true v : isNull v = true <-> v = JNull.
Proof. by destruct v. Qed.

(** What makes a feed yield no data. *)
Lemma fetchFeed_null url :
  fetchFeed fetch JSON_parse url = Ok JNull <->
  match fetch url with
  | Throw _ => True
  | Ok response =>
      ok response = false \/
      match text response with
      | Throw _ => True
      | Ok body =>
          match jsonpMatch body with
          | None => True
          | Some group =>
              group = "" \/
              match JSON_parse group with
              | Throw _ => True
              | Ok v => v = JNull
              end
          end
      end
  end.
Proof.
  unfold fetchFeed, decodeBody.
  destruct (fetch url) as [response|e]; simpl; [|done].
  destruct (ok response); simpl; [|by split; [left|]].
  destruct (text response) as [body|e]; simpl; [|by split; [right|]].
  destruct (jsonpMatch body) as [group|]; simpl; [|by split; [right|]].
  destruct (String.eqb_spec group "") as [->|Hne]; simpl.
  { split; [right; by left | done]. }
  destruct (JSON_parse group) as [v|e]; simpl.
  - split; [intros [= ->]; right; by right|].
    intros [?|[?|?]]; congruence.
  - split; [right; by right | done].
Qed.

(** A feed yields [null] exactly when it has no data, for one of the causes
    named, and another value exactly when it yields that value. *)
Lemma fetchFeed_noData url :
  fetchFeed fetch JSON_parse url = Ok JNull <-> noData fetch JSON_parse url.
Proof.
  rewrite fetchFeed_null. unfold noData.
  destruct (fetch url) as [response|e].
  - split.
    + intros H. right. exists response. split; [done|].
      destruct H as [H|H]; [by left|]. right.
      destruct (text response) as [body|e]; [|left; eauto].
      right. exists body. split; [done|].
      destruct (jsonpMatch body) as [group|]; [|by left].
      destruct H as [->|H]; [right; by left|].
      right. right. exists group. split; [done|].
      destruct (JSON_parse group) as [v|e]; [right; by subst | left; eauto].
    + intros [[e [=]]|(r & [= <-] & H)].
      destruct H as [H|[[e H]|(body & Hbody & H)]]; [by left | |].
      * right. by rewrite H.
      * right. rewrite Hbody.
        destruct H as [->|[->|(group & -> & H)]]; [done | by left |].
        right. destruct H as [[e ->]| ->]; done.
  - split; [intros _; left; eauto | done].
Qed.

Lemma fetchFeed_yields url v :
  v <> JNull ->
  fetchFeed fetch JSON_parse url = Ok v <-> yields fetch JSON_parse url v.
Proof.
  intros Hv. unfold fetchFeed, decodeBody, yields. split.
  - destruct (fetch url) as [response|e]; simpl; [|congruence].
    destruct (ok response) eqn:Hok; simpl; [|congruence].
    destruct (text response) as [body|e] eqn:Hbody; simpl; [|congruence].
    destruct (jsonpMatch body) as [group|] eqn:Hmatch; simpl; [|congruence].
    destruct (String.eqb_spec group "") as [->|Hne]; simpl; [congruence|].
    destruct (JSON_parse group) as [v'|e] eqn:Hparse; simpl; [|congruence].
    intros [= ->]. by exists response, body, group.
  - intros (response & body & group & -> & Hok & Hbody & Hmatch & Hne & Hparse & _).
    simpl. rewrite Hok. simpl. rewrite Hbody. simpl. rewrite Hmatch.
    destruct (String.eqb_spec group "") as [->|_]; [done|].
    by rewrite Hparse.
Qed.

(** C9, as amended. For every match identifier, [fetchMatchJson] throws
    exactly when each of the two feed URLs yields no data, for one of these
    causes: the fetch throws, the status is not a success, the body cannot
    be read or does not match the pattern, the payload is empty, does not
    parse, or parses to [null]. Otherwise it returns a list that is not
    empty and holds the data that the two feeds yield, those of the first
    feed before those of the second. *)
Theorem fetchMatchJson_throws_iff_no_feed_has_data matchId :
  let url1 := feedBase +:+ matchId +:+ "-Innings1.js" in
  let url2 := feedBase +:+ matchId +:+ "-Innings2.js" in
  (fetchMatchJson fetch JSON_parse matchId
     = Throw (Error ("Failed to fetch any valid data for match " +:+ matchId))
   <-> noData fetch JSON_parse url1 /\ noData fetch JSON_parse url2) /\
  ((exists e, fetchMatchJson fetch JSON_parse matchId = Throw e)
   <-> noData fetch JSON_parse url1 /\ noData fetch JSON_parse url2) /\
  (~ (noData fetch JSON_parse url1 /\ noData fetch JSON_parse url2) ->
   exists first second,
     fetchMatchJson fetch JSON_parse matchId = Ok (first ++ second)%list /\
     (first ++ second)%list <> [] /\
     (forall v, v ∈ first <-> yields fetch JSON_parse url1 v) /\
     (forall v, v ∈ second <-> yields fetch JSON_parse url2 v) /\
     (length first <= 1)%nat /\ (length second <= 1)%nat).
Proof.
  intros url1 url2.
  destruct (fetchFeed_returns fetch JSON_parse url1) as [v1 H1].
  destruct (fetchFeed_returns fetch JSON_parse url2) as [v2 H2].
  rewrite (fetchMatchJson_unfold _ _ _ H1 H2).
  rewrite <- !fetchFeed_noData. fold url1 url2. rewrite H1, H2.
  assert (forall url v, fetchFeed fetch JSON_parse url = Ok v ->
            forall x, x ∈ List.filter (fun r => negb (isNull r)) [v]
                      <-> yields fetch JSON_parse url x) as Hdata.
  { intros url v Hv x. destruct (isNull v) eqn:E; simpl; rewrite E; simpl.
    - apply isNull_true in E. subst v. split; [by intros ?%elem_of_nil|].
      intros Hx. assert (x <> JNull) as Hnn.
      { by destruct Hx as (? & ? & ? & _ & _ & _ & _ & _ & _ & ?). }
      apply (fetchFeed_yields url x Hnn) in Hx. congruence.
    - assert (v <> JNull) as Hnn by (intros ->; discriminate E).
      rewrite list_elem_of_singleton. split.
      + intros ->. by apply fetchFeed_yields.
      + intros Hx. assert (x <> JNull) as Hxn.
        { by destruct Hx as (? & ? & ? & _ & _ & _ & _ & _ & _ & ?). }
        apply (fetchFeed_yields url x Hxn) in Hx. congruence. }
  split_and!.
  - destruct (isNull v1) eqn:E1, (isNull v2) eqn:E2; simpl;
      (split; [try discriminate | intros [[= ->] [= ->]]; try discriminate]).
    + intros _. apply isNull_true in E1, E2. by subst.
    + reflexivity.
  - destruct (isNull v1) eqn:E1, (isNull v2) eqn:E2; simpl;
      (split; [intros [e He]; try discriminate He
              | intros [[= ->] [= ->]]; try discriminate]).
    + apply isNull_true in E1, E2. by subst.
    + eauto.
  - intros Hsome.
    exists (List.filter (fun r => negb (isNull r)) [v1]),
           (List.filter (fun r => negb (isNull r)) [v2]).
    split_and!.
    + destruct (isNull v1) eqn:E1, (isNull v2) eqn:E2; simpl;
        rewrite ?E1, ?E2; simpl; try reflexivity.
      exfalso. apply Hsome. apply isNull_true in E1, E2. by subst.
    + destruct (isNull v1) eqn:E1, (isNull v2) eqn:E2; simpl;
        rewrite ?E1, ?E2; simpl; try discriminate.
      intros _. apply Hsome. apply isNull_true in E1, E2. by subst.
    + by apply Hdata.
    + by apply Hdata.
    + simpl. destruct (negb (isNull v1)); simpl; lia.
    + simpl. destruct (negb (isNull v2)); simpl; lia.
Qed.

(** C3. When the first feed of a match yields no data and the second yields
    the payload [p], which holds its section under [Innings2] and none
    under [Innings1], [fetchMatchJson] returns the list of [p] alone;
    [processMatchData] reads it at index 0 under the key [Innings1], finds
    no section, skips it, and returns a [MatchData] without teams: the
    second innings is lost. *)
Theorem lone_second_innings_is_discarded matchId p now :
  fetchFeed fetch JSON_parse (feedBase +:+ matchId +:+ "-Innings1.js") = Ok JNull ->
  fetchFeed fetch JSON_parse (feedBase +:+ matchId +:+ "-Innings2.js") = Ok p ->
  p <> JNull ->
  truthy (optProp "Innings1" (Some p)) = false ->
  fetchMatchJson fetch JSON_parse matchId = Ok [p] /\
  getProp "Innings1" (Some p) = Ok (optProp "Innings1" (Some p)) /\
  processMatchData now [p] = Ok {| timestamp := now; teams := [] |}.
Proof.
  intros H1 H2 Hp Hnone.
  assert (getProp "Innings1" (Some p) = Ok (optProp "Innings1" (Some p))) as Hget.
  { by destruct p. }
  split_and!.
  - rewrite (fetchMatchJson_unfold _ _ _ H1 H2). by destruct p.
  - exact Hget.
  - unfold processMatchData, aggregate. cbn [forEachIndexed].
    unfold inningsStep. cbn [Nat.eqb]. rewrite Hget. cbn [bindR].
    rewrite Hnone. reflexivity.
Qed.

End FeedsOfAMatch.

Lemma lone_second_innings_is_discarded_witness :
  fetchMatchJson sampleFetch sampleParse "1834" = Ok [sampleInnings2] /\
  getProp "Innings1" (Some sampleInnings2)
    = Ok (optProp "Innings1" (Some sampleInnings2)) /\
  processMatchData "2025-04-20T14:00:00.000Z" [sampleInnings2]
    = Ok {| timestamp := "2025-04-20T14:00:00.000Z"; teams := [] |}.
Proof.
  apply (lone_second_innings_is_discarded sampleFetch sampleParse "1834"
           sampleInnings2 "2025-04-20T14:00:00.000Z").
  - vm_compute. reflexivity.
  - vm_compute. reflexivity.
  - discriminate.
  - reflexivity.
Defined.

Lemma fetchMatchJson_throws_iff_no_feed_has_data_witness :
  fetchMatchJson sampleFetch sampleParse "1832"
  = Throw (Error "Failed to fetch any valid data for match 1832") /\
  exists first second,
    fetchMatchJson sampleFetch sampleParse "1834" = Ok (first ++ second)%list /\
    (forall v, v ∈ first
               <-> yields sampleFetch sampleParse
                     (feedBase +:+ "1834" +:+ "-Innings1.js") v) /\
    (forall v, v ∈ second
               <-> yields sampleFetch sampleParse
                     (feedBase +:+ "1834" +:+ "-Innings2.js") v).
Proof.
  split.
  - destruct (fetchMatchJson_throws_iff_no_feed_has_data
                sampleFetch sampleParse "1832") as [[_ Hthrows] _].
    apply Hthrows. split.
    + right. exists notFound. split; [reflexivity | by left].
    + right. exists (okResponse "<html>Service Unavailable</html>").
      split; [reflexivity|]. right. right. eexists. split; [reflexivity|].
      left. vm_compute. reflexivity.
  - destruct (fetchMatchJson_throws_iff_no_feed_has_data
                sampleFetch sampleParse "1834") as (_ & [_ Hthrows] & Hdata).
    destruct Hdata as (first & second & Hok & _ & H1 & H2 & _).
    + intros Hnone. destruct (Hthrows Hnone) as [e He].
      vm_compute in He. discriminate He.
    + by exists first, second.
Defined.

(** Two feeds in good order whose payload is [null]: the fetch returns, the
    status is a success, the body matches the pattern and the payload
    parses, and yet the match has no data. *)
Lemma null_payload_counterexample :
  (forall url, exists response body group,
     nullFetch url = Ok response /\ ok response = true /\
     text response = Ok body /\ jsonpMatch body = Some group /\
     nullParse group = Ok JNull) /\
  fetchMatchJson nullFetch nullParse "1833"
  = Throw (Error "Failed to fetch any valid data for match 1833").
Proof.
  split; [|by vm_compute].
  intros url. exists (okResponse "cb(null)"), "cb(null)", "null".
  split_and!; reflexivity.
Qed.

(** ** The summary of planted trees *)





Section Persistence.

Variable clock : nat -> Instant.



Lemma teamNameOf_plain teamId :
  teamId ∉ inheritedMembers -> teamNameOf teamId = Some (knownAs teamId).
Proof.
  intros Hplain. unfold knownAs, teamNameOf.
  destruct (List.find _ teamNames) as [[k n]|]; [reflexivity|].
  destruct (existsb (String.eqb teamId) inheritedMembers) eqn:E; [|reflexivity].
  exfalso. apply Hplain. apply existsb_exists in E as (x & Hx & Heq).
  apply String.eqb_eq in Heq. subst x. by apply list_elem_of_In.
Qed.

Lemma teamNameOf_inherited teamId :
  teamId ∈ inheritedMembers -> teamNameOf teamId = None.
Proof.
  intros H. repeat (apply elem_of_cons in H as [->|H]; [reflexivity|]).
  by apply elem_of_nil in H.
Qed.





End Persistence.



(** ** The scheduled handler *)

Section Scheduling.

Variable fetch : string -> Result Response.
Variable JSON_parse : string -> Result JSON.
Variable clock : nat -> Instant.

Lemma forOf_throws {A : Type} (body : A -> M unit) before u after w0 w1 w2 e :
  forOf body before w0 = (Ok tt, w1) ->
  body u w1 = (Throw e, w2) ->
  forOf body (before ++ u :: after) w0 = (Throw e, w2).
Proof.
  revert w0. induction before as [|x rest IH]; intros w0 Hbefore Hu; simpl in *.
  - injection Hbefore as ->. unfold bindM. by rewrite Hu.
  - unfold bindM in *. destruct (body x w0) as [[[]|ex] wx]; [|discriminate].
    by apply IH.
Qed.

(** The handler returns in every case: what the loop throws is caught. *)
Lemma scheduledOn_returns urls w :
  exists w', scheduledOn fetch JSON_parse clock urls w = (Ok tt, w').
Proof.
  unfold scheduledOn, bindM, tryCatchM, readClock, retM, query.
  cbn [processOnlyTodaysMatches fst snd].
  match goal with
  | |- context [forOf ?f urls ?w0] => destruct (forOf f urls w0) as [[[]|e] w1]
  end; eauto.
Qed.

(** C1, as amended. When the processing of one match throws, the handler
    swallows the failure: it returns without an exception. It does not go
    on to the URLs that follow in the list: it returns in the world that the
    failing match left, whatever the rest of the list. *)
Theorem scheduled_failure_abandons_later_urls before u after w w1 w2 e :
  forOf (matchIteration fetch JSON_parse clock) before (atLoopStart w) = (Ok tt, w1) ->
  matchIteration fetch JSON_parse clock u w1 = (Throw e, w2) ->
  scheduledOn fetch JSON_parse clock (before ++ u :: after) w = (Ok tt, w2).
Proof.
  intros Hbefore Hu.
  pose proof (forOf_throws _ before u after _ _ _ _ Hbefore Hu) as Hloop.
  unfold scheduledOn, bindM, tryCatchM, readClock, retM, query.
  cbn [processOnlyTodaysMatches fst snd db clockReads].
  unfold atLoopStart in Hloop. by rewrite Hloop.
Qed.

End Scheduling.

Lemma scheduled_failure_abandons_later_urls_witness :
  scheduledOn sampleFetch sampleParse sampleClock [url1832; url1833] sampleWorld
  = (Ok tt, {| db := emptyDB; clockReads := 4 |}).
Proof.
  apply (scheduled_failure_abandons_later_urls sampleFetch sampleParse sampleClock
           [] url1832 [url1833] sampleWorld (atLoopStart sampleWorld)
           {| db := emptyDB; clockReads := 4 |}
           (Error "Failed to fetch any valid data for match 1832")).
  - reflexivity.
  - vm_compute. reflexivity.
Defined.

(** C1, as stated, fails. The feeds of match 1832 yield no data, so its
    processing throws; the handler, given the URLs of 1832 and 1833, returns
    without having stored anything, though match 1833 alone is fetched,
    aggregated and stored. *)
Lemma later_url_not_processed_counterexample :
  fst (matchIteration sampleFetch sampleParse sampleClock url1832
         (atLoopStart sampleWorld))
    = Throw (Error "Failed to fetch any valid data for match 1832") /\
  fst (scheduledOn sampleFetch sampleParse sampleClock [url1832; url1833] sampleWorld)
    = Ok tt /\
  db (snd (scheduledOn sampleFetch sampleParse sampleClock [url1832; url1833]
             sampleWorld)) = emptyDB /\
  Matches (db (snd (scheduledOn sampleFetch sampleParse sampleClock [url1833]
                      sampleWorld))) !! "1833"
    = Some {| match_url := url1833; match_date := "2025-04-20 19:30:00";
              match_timestamp := "2025-04-20 19:30:00" |} /\
  summaryTotal "17"
    (db (snd (scheduledOn sampleFetch sampleParse sampleClock [url1833] sampleWorld)))
    = Some 180.
Proof. split_and!; vm_compute; reflexivity. Qed.

(** ** Failures of the three stages, on the sample network *)

(** Fetch: no feed of match 1832 has data. *)
Example fetch_failure :
  fetchMatchJson sampleFetch sampleParse "1832"
  = Throw (Error "Failed to fetch any valid data for match 1832").
Proof. vm_compute. reflexivity. Qed.

(** Aggregation: a [null] among the bowler entries. *)
Example aggregation_failure :
  processMatchData "2025-04-20T14:00:00.000Z"
    [JObj [("Innings1", JObj [("BowlingCard", JArr [JNull])])]]
  = Throw TypeError.
Proof. reflexivity. Qed.

(** Persistence: the name of a player of match 1835 is a number, which has
    no [replace]; the rows written before the throw stay, and the match that
    follows in the list is not processed. *)
Example persistence_failure :
  let end_ :=
    scheduledOn sampleFetch sampleParse sampleClock [url1835; url1833] sampleWorld in
  fst (matchIteration sampleFetch sampleParse sampleClock url1835
         (atLoopStart sampleWorld)) = Throw TypeError /\
  fst end_ = Ok tt /\
  dom (Matches (db (snd end_))) = {["1835"]} /\
  summaryTotal "17" (db (snd end_)) = Some 72 /\
  Players (db (snd end_)) = ∅.
Proof. split_and!; vm_compute; reflexivity. Qed.

(** A match stored today is skipped by the next invocation of the day, so
    its trees are counted once. *)
Example second_invocation_skips :
  let once := snd (scheduledOn sampleFetch sampleParse sampleClock [url1833] sampleWorld) in
  let twice := snd (scheduledOn sampleFetch sampleParse sampleClock [url1833] once) in
  summaryTotal "17" (db once) = Some 180 /\
  summaryTotal "17" (db twice) = Some 180 /\
  db twice = db once.
Proof. split_and!; vm_compute; reflexivity. Qed.


(** The feeds of matches 1833 and 1834: two payloads, and the second
    innings alone. *)
Example fetch_both_innings :
  fetchMatchJson sampleFetch sampleParse "1833" = Ok [sampleInnings1; sampleInnings2].
Proof. vm_compute. reflexivity. Qed.

Example fetch_second_innings_only :
  fetchMatchJson sampleFetch sampleParse "1834" = Ok [sampleInnings2].
Proof. vm_compute. reflexivity. Qed.

(** * Further properties of the code *)

(** ** Match identifiers and feed URLs *)

Lemma split_not_nil sep s : split sep s <> [].
Proof.
  destruct s as [|c rest]; simpl; [discriminate|].
  destruct (Ascii.eqb c sep); [discriminate|].
  destruct (split sep rest); discriminate.
Qed.

Lemma split_no_separator sep s : hasChar sep s = false -> split sep s = [s].
Proof.
  induction s as [|c rest IH]; simpl; [done|].
  destruct (Ascii.eqb c sep); simpl; [discriminate|].
  intros H. by rewrite (IH H).
Qed.

Lemma split_append sep a b :
  split sep (a +:+ String sep b) = (split sep a ++ split sep b)%list.
Proof.
  induction a as [|c a IH].
  - change (split sep (String sep b) = ([""] ++ split sep b)%list).
    simpl. by rewrite Ascii.eqb_refl.
  - change (split sep (String c (a +:+ String sep b))
            = (split sep (String c a) ++ split sep b)%list).
    simpl. destruct (Ascii.eqb c sep).
    + by rewrite IH.
    + rewrite IH. destruct (split sep a) as [|seg segs] eqn:E; [|done].
      by destruct (split_not_nil sep a).
Qed.

Lemma split_segments sep s : Forall (fun seg => hasChar sep seg = false) (split sep s).
Proof.
  induction s as [|c rest IH]; simpl; [by repeat constructor|].
  destruct (Ascii.eqb c sep) eqn:E.
  - by constructor.
  - destruct (split sep rest) as [|seg segs]; [by repeat constructor; simpl; rewrite E|].
    inversion IH as [|? ? Hseg Hsegs]; subst.
    constructor; [|done]. simpl. by rewrite E, Hseg.
Qed.

Lemma last_app_not_nil {A : Type} (l1 l2 : list A) d :
  l2 <> [] -> List.last (l1 ++ l2)%list d = List.last l2 d.
Proof.
  intros Hne. induction l1 as [|x l1 IH]; [done|].
  simpl. destruct (l1 ++ l2)%list eqn:E; [|exact IH].
  apply app_eq_nil in E as [_ ->]. done.
Qed.

Lemma last_Forall {A : Type} (P : A -> Prop) (l : list A) d :
  l <> [] -> Forall P l -> P (List.last l d).
Proof.
  intros Hne Hall. induction Hall as [|x l Hx Hl IH]; [done|].
  simpl. destruct l; [done|]. apply IH. discriminate.
Qed.

(** X1. The match identifier of a URL is what follows its last slash: for an
    identifier without a slash, [extractMatchId] returns it from any URL that
    ends with a slash and the identifier, and returns the identifier itself
    when it is given alone. *)
Theorem extractMatchId_last_segment id :
  hasChar "/" id = false ->
  extractMatchId id = id /\
  forall site, extractMatchId (site +:+ "/" +:+ id) = id.
Proof.
  intros Hid. unfold extractMatchId. split.
  - by rewrite (split_no_separator _ _ Hid).
  - intros site. change (site +:+ "/" +:+ id) with (site +:+ String "/" id).
    rewrite split_append, last_app_not_nil by apply split_not_nil.
    by rewrite (split_no_separator _ _ Hid).
Qed.

Lemma extractMatchId_last_segment_witness :
  extractMatchId "1832" = "1832" /\
  forall site, extractMatchId (site +:+ "/" +:+ "1832") = "1832".
Proof. apply (extractMatchId_last_segment "1832"). reflexivity. Defined.

(** X2. The identifier that [extractMatchId] returns never holds a slash,
    whatever the URL. *)
Theorem extractMatchId_has_no_slash url : hasChar "/" (extractMatchId url) = false.
Proof.
  unfold extractMatchId.
  apply (last_Forall (fun seg => hasChar "/" seg = false)).
  - apply split_not_nil.
  - apply split_segments.
Qed.

Lemma length_append a b :
  String.length (a +:+ b) = (String.length a + String.length b)%nat.
Proof.
  induction a as [|x a IH]; [reflexivity|].
  change (S (String.length (a +:+ b)) = S (String.length a + String.length b)).
  by rewrite IH.
Qed.

(** Two texts with endings of one length are equal part by part. *)
Lemma append_same_length_inv a b c d :
  String.length c = String.length d -> a +:+ c = b +:+ d -> a = b /\ c = d.
Proof.
  intros Hlen. revert b. induction a as [|x a IH]; intros [|y b] Heq.
  - done.
  - exfalso. apply (f_equal String.length) in Heq.
    change (String y b +:+ d) with (String y (b +:+ d)) in Heq.
    change ("" +:+ c) with c in Heq. simpl in Heq.
    rewrite length_append in Heq. lia.
  - exfalso. apply (f_equal String.length) in Heq.
    change (String x a +:+ c) with (String x (a +:+ c)) in Heq.
    change ("" +:+ d) with d in Heq. simpl in Heq.
    rewrite length_append in Heq. lia.
  - change (String x (a +:+ c) = String y (b +:+ d)) in Heq.
    injection Heq as -> Heq. destruct (IH b Heq) as [-> ->]. done.
Qed.

(** X3. Feed URLs identify the match and the innings: the two URLs of a
    match differ, and a URL of one match is the URL of another match only
    for the same identifier and the same innings. *)
Theorem buildJsonUrl_injective m1 m2 (i j : nat) u :
  buildJsonUrl m1 !! i = Some u -> buildJsonUrl m2 !! j = Some u ->
  m1 = m2 /\ i = j.
Proof.
  unfold buildJsonUrl. intros Hi Hj.
  assert (forall m k v, [feedBase +:+ m +:+ "-Innings1.js";
                         feedBase +:+ m +:+ "-Innings2.js"] !! k = Some v ->
            exists tail_, v = feedBase +:+ m +:+ tail_ /\
              String.length tail_ = 12%nat /\
              (tail_ = "-Innings1.js" /\ k = 0%nat \/
               tail_ = "-Innings2.js" /\ k = 1%nat)) as Hshape.
  { intros m [|[|k]] v [=]; subst; eexists; split_and!; try reflexivity; auto. }
  destruct (Hshape _ _ _ Hi) as (t1 & -> & Hl1 & H1).
  destruct (Hshape _ _ _ Hj) as (t2 & Heq & Hl2 & H2).
  apply (inj (String.append feedBase)) in Heq.
  apply append_same_length_inv in Heq as [-> ->]; [|congruence].
  split; [done|].
  destruct H1 as [[-> ->]|[-> ->]], H2 as [[E ->]|[E ->]]; done.
Qed.

Lemma buildJsonUrl_injective_witness :
  "1832" = "1832" /\ 1%nat = 1%nat.
Proof.
  apply (buildJsonUrl_injective "1832" "1832" 1 1
           (feedBase +:+ "1832" +:+ "-Innings2.js")); reflexivity.
Defined.

(** ** Dates *)

Lemma hasChar_append_false c a b :
  hasChar c (a +:+ b) = false <-> hasChar c a = false /\ hasChar c b = false.
Proof.
  induction a as [|x a IH]; [by split; [|intros [_ ?]]|].
  change (hasChar c (String x (a +:+ b)) = false
          <-> hasChar c (String x a) = false /\ hasChar c b = false).
  simpl. destruct (Ascii.eqb x c); simpl; [|exact IH].
  split; [discriminate | by intros [? _]].
Qed.

Lemma replaceFirst_append c by_ a rest :
  hasChar c a = false ->
  replaceFirst c by_ (a +:+ String c rest) = a +:+ String by_ rest.
Proof.
  induction a as [|x a IH]; intros Ha.
  - change (replaceFirst c by_ (String c rest) = String by_ rest).
    simpl. by rewrite Ascii.eqb_refl.
  - change (replaceFirst c by_ (String x (a +:+ String c rest))
            = String x (a +:+ String by_ rest)).
    simpl in *. destruct (Ascii.eqb x c); [discriminate|].
    by rewrite (IH Ha).
Qed.

Lemma greedyStar_reaches {R : Type} cls (k : string -> option R) pre rest r :
  allChars cls pre = true -> k rest = Some r ->
  is_Some (greedyStar cls k (pre +:+ rest)).
Proof.
  intros Hpre Hk. induction pre as [|c pre IH].
  - change ("" +:+ rest) with rest. destruct rest as [|c rest]; simpl; [eauto|].
    destruct (cls c); [|eauto].
    destruct (greedyStar cls k rest); eauto.
  - change (String c pre +:+ rest) with (String c (pre +:+ rest)).
    simpl in *. apply andb_true_iff in Hpre as [-> Hpre].
    destruct (IH Hpre) as [x ->]. eauto.
Qed.

Lemma fractionMatch_fraction ms :
  ms <> "" -> allChars isDigit ms = true ->
  fractionMatch (String "." (ms +:+ "Z")) = Some tt.
Proof.
  intros Hne Hms. destruct ms as [|c ms]; [done|].
  unfold fractionMatch. simpl in *.
  apply andb_true_iff in Hms as [Hc Hms].
  change (String c ms +:+ "Z") with (String c (ms +:+ "Z")). simpl. rewrite Hc.
  destruct (greedyStar_reaches isDigit (char "Z" (endOfInput tt)) ms "Z" tt Hms eq_refl)
    as [[] ->].
  done.
Qed.

Lemma removeFraction_at_end a ms :
  hasChar "." a = false -> ms <> "" -> allChars isDigit ms = true ->
  removeFraction (a +:+ String "." (ms +:+ "Z")) = a.
Proof.
  intros Ha Hne Hms. induction a as [|x a IH].
  - change ("" +:+ String "." (ms +:+ "Z")) with (String "." (ms +:+ "Z")).
    destruct ms as [|c ms]; [done|].
    change (removeFraction (String "." (String c ms +:+ "Z")))
      with (match fractionMatch (String "." (String c ms +:+ "Z")) with
            | Some _ => ""
            | None => String "." (removeFraction (String c ms +:+ "Z"))
            end).
    by rewrite fractionMatch_fraction.
  - change (String x a +:+ String "." (ms +:+ "Z"))
      with (String x (a +:+ String "." (ms +:+ "Z"))).
    simpl in Ha. destruct (Ascii.eqb x ".") eqn:E; [discriminate|].
    simpl in Ha. cbn [removeFraction].
    unfold fractionMatch at 1. cbn [char]. rewrite E.
    by rewrite (IH Ha).
Qed.

Lemma substring_prefix d rest :
  String.substring 0 (String.length d) (d +:+ rest) = d.
Proof.
  induction d as [|x d IH].
  - by destruct rest.
  - change (String x d +:+ rest) with (String x (d +:+ rest)). simpl.
    by rewrite IH.
Qed.

(** X5. [formatDateTime] applied to [getCurrentISTDate()] renders the
    instant eleven hours after the given one, each of the two adding five
    hours and a half; from the ISO text [dTt.msZ] of that instant it keeps
    [d], a space and [t], and the SQL date of the result is [d]. *)
Theorem formatDateTime_of_ist_date toISOString now d t ms :
  toISOString (now + 39600000) = d +:+ "T" +:+ t +:+ "." +:+ ms +:+ "Z" ->
  String.length d = 10%nat ->
  hasChar "T" d = false -> hasChar "." d = false -> hasChar "." t = false ->
  ms <> "" -> allChars isDigit ms = true ->
  formatDateTime toISOString (getCurrentISTDate now) = d +:+ " " +:+ t /\
  sqlDate (formatDateTime toISOString (getCurrentISTDate now)) = d.
Proof.
  intros Hiso Hlen HdT Hd Ht Hne Hms.
  assert (formatDateTime toISOString (getCurrentISTDate now) = d +:+ " " +:+ t)
    as Hfmt.
  { unfold formatDateTime, getCurrentISTDate.
    replace (now + 19800000 + 19800000) with (now + 39600000) by lia.
    rewrite Hiso.
    change (d +:+ "T" +:+ t +:+ "." +:+ ms +:+ "Z")
      with (d +:+ String "T" (t +:+ "." +:+ ms +:+ "Z")).
    rewrite (replaceFirst_append _ _ _ _ HdT).
    change (d +:+ String " " (t +:+ "." +:+ ms +:+ "Z"))
      with (d +:+ (" " +:+ t) +:+ String "." (ms +:+ "Z")).
    rewrite <- !append_assoc.
    rewrite removeFraction_at_end; [by rewrite append_assoc | | done | done].
    rewrite append_assoc. apply hasChar_append_false. split; [done|].
    change (" " +:+ t) with (String " " t). simpl. exact Ht. }
  split; [exact Hfmt|].
  rewrite Hfmt. unfold sqlDate. rewrite <- Hlen. apply substring_prefix.
Qed.

Lemma formatDateTime_of_ist_date_witness :
  formatDateTime (fun _ => "2025-04-21T01:00:00.000Z") (getCurrentISTDate 1745157600000)
    = "2025-04-21" +:+ " " +:+ "01:00:00" /\
  sqlDate (formatDateTime (fun _ => "2025-04-21T01:00:00.000Z")
             (getCurrentISTDate 1745157600000)) = "2025-04-21".
Proof.
  apply (formatDateTime_of_ist_date (fun _ => "2025-04-21T01:00:00.000Z")
           1745157600000 "2025-04-21" "01:00:00" "000");
    [reflexivity | reflexivity | reflexivity | reflexivity | reflexivity
    | discriminate | reflexivity].
Defined.

(** ** The teams of a result *)

(** X6. The teams of a result of [processMatchData] bear pairwise different
    names: a team that bats in one innings and bowls in the other is one
    team of the result. *)
Theorem processMatchData_teams_distinct now input md :
  processMatchData now input = Ok md -> NoDup (team_name <$> teams md).
Proof. apply processMatchData_team_names. Qed.

Lemma processMatchData_teams_distinct_witness :
  NoDup (team_name <$> teams sampleMatchData).
Proof.
  apply (processMatchData_teams_distinct "2025-04-20T14:00:00.000Z"
           [sampleInnings1; sampleInnings2] sampleMatchData).
  reflexivity.
Defined.

Lemma eighteenfold_new t : eighteenfold (newTeam t).
Proof. split; [reflexivity | constructor]. Qed.

Lemma eighteenfold_credit nm d team :
  eighteenfold team -> eighteenfold (creditTeamExactly nm d team).
Proof.
  intros [Htot Hall]. split; simpl; [lia|].
  unfold creditExactly.
  destruct (list_find (sameName nm) (players team)) as [[i p]|] eqn:E.
  - apply list_find_Some in E as (Hi & _ & _).
    apply Forall_insert; [done|].
    rewrite Forall_lookup in Hall. destruct (Hall _ _ Hi) as [Hp Hz].
    simpl. split; lia.
  - apply Forall_app. split; [done|]. repeat constructor; simpl; lia.
Qed.

(** X7. In every result of [processMatchData] for an input in the range of
    exact numbers (the trees of all the dot balls of its bowler entries do
    not exceed 2^53) the trees are 18 times the dot balls, for each team
    and for each player, and the dot balls played of every player are 0:
    the batting side is never counted. *)
Theorem processMatchData_trees_are_18_times_dot_balls now input md :
  exactRange input ->
  processMatchData now input = Ok md ->
  forall team, team ∈ teams md ->
    totalTreesPlanted team = 18 * totalDotBallsBowled team /\
    forall p, p ∈ players team ->
      treesBowling p = 18 * dotBallsBowled p /\ dotBallsPlayed p = 0.
Proof.
  intros Hrange Hrun team Hin.
  pose proof (processMatchData_exact eighteenfold eighteenfold_new
                eighteenfold_credit now input md Hrange Hrun) as Hall.
  rewrite Forall_forall in Hall. destruct (Hall team Hin) as [[Htot Hps] _].
  split; [exact Htot|]. intros p Hp. rewrite Forall_forall in Hps. auto.
Qed.

Lemma processMatchData_trees_are_18_times_dot_balls_witness :
  Forall (fun team =>
            totalTreesPlanted team = 18 * totalDotBallsBowled team /\
            forall p, p ∈ players team ->
              treesBowling p = 18 * dotBallsBowled p /\ dotBallsPlayed p = 0)
         (teams sampleMatchData).
Proof.
  apply Forall_forall.
  apply (processMatchData_trees_are_18_times_dot_balls "2025-04-20T14:00:00.000Z"
           [sampleInnings1; sampleInnings2] sampleMatchData).
  - apply Z.leb_le. reflexivity.
  - reflexivity.
Defined.

Lemma mapSet_length_le key v m : (length (mapSet key v m) <= S (length m))%nat.
Proof.
  induction m as [|[k w] rest IH]; simpl; [lia|].
  destruct (String.eqb k key); simpl; lia.
Qed.

Lemma mapSet_length_present key v m :
  is_Some (mapGet key m) -> length (mapSet key v m) = length m.
Proof.
  induction m as [|[k w] rest IH]; simpl; [by intros [? [=]]|].
  destruct (String.eqb k key); simpl; [done|]. intros H. by rewrite IH.
Qed.

Lemma ensureTeam_length t m : (length (ensureTeam t m) <= S (length m))%nat.
Proof.
  unfold ensureTeam. destruct (mapHas t m); [lia | apply mapSet_length_le].
Qed.

Lemma bowlerStep_length bowlingTeam m bowler m' :
  bowlerStep bowlingTeam m bowler = Ok m' -> length m' = length m.
Proof.
  intros (nm & d & team & Hnm & Hd & Hget & ->)%bowlerStep_Ok.
  apply mapSet_length_present. eauto.
Qed.

Lemma inningsStep_length m data i m' :
  inningsStep m data i = Ok m' -> (length m' <= length m + 2)%nat.
Proof.
  unfold inningsStep. intros H.
  apply bindR_Ok in H as (inningsData & _ & H).
  destruct (negb (truthy inningsData)); [injection H as <-; lia|].
  apply bindR_Ok in H as (battingCard & _ & H).
  apply bindR_Ok in H as (bowlingCard & _ & H).
  apply bindR_Ok in H as (battingTeam & _ & H).
  apply bindR_Ok in H as (bowlingTeam & _ & H).
  apply bindR_Ok in H as (bowlers & _ & H).
  assert (length m' = length (ensureTeam bowlingTeam (ensureTeam battingTeam m)))
    as ->.
  { eapply (forEach_invariant
              (fun s => length s
                        = length (ensureTeam bowlingTeam (ensureTeam battingTeam m))));
      [|reflexivity|exact H].
    intros s x s' Hs Hx. apply bowlerStep_length in Hx. congruence. }
  pose proof (ensureTeam_length bowlingTeam (ensureTeam battingTeam m)).
  pose proof (ensureTeam_length battingTeam m). lia.
Qed.

Lemma aggregateFrom_length input i m m' :
  forEachIndexed inningsStep i input m = Ok m' ->
  (length m' <= length m + 2 * length input)%nat.
Proof.
  revert i m. induction input as [|data rest IH]; intros i m H; simpl in H.
  - injection H as <-. simpl. lia.
  - apply bindR_Ok in H as (m1 & Hstep & Hrest).
    apply IH in Hrest. apply inningsStep_length in Hstep. simpl. lia.
Qed.

(** X8. A result of [processMatchData] has at most two teams for each
    payload of the input, and none for an empty input. *)
Theorem processMatchData_at_most_two_teams_per_payload now input md :
  processMatchData now input = Ok md ->
  (length (teams md) <= 2 * length input)%nat.
Proof.
  unfold processMatchData. intros H.
  apply bindR_Ok in H as (m & Hagg & [= <-]). simpl.
  apply aggregateFrom_length in Hagg. rewrite length_map. simpl in Hagg. lia.
Qed.

Lemma processMatchData_at_most_two_teams_per_payload_witness :
  (length (teams sampleMatchData) <= 2 * 2)%nat.
Proof.
  apply (processMatchData_at_most_two_teams_per_payload "2025-04-20T14:00:00.000Z"
           [sampleInnings1; sampleInnings2] sampleMatchData).
  reflexivity.
Defined.

(** ** Where players come from *)

Lemma namesOf_ensureTeam t t' m : namesOf t (ensureTeam t' m) = namesOf t m.
Proof.
  unfold namesOf, ensureTeam. destruct (mapHas t' m) eqn:E; [done|].
  destruct (String.eqb_spec t' t) as [->|Hne].
  - rewrite mapGet_mapSet_eq. destruct (mapGet t m) eqn:G; [|done].
    assert (mapHas t m = true) by (apply mapHas_mapGet; eauto). congruence.
  - by rewrite mapGet_mapSet_ne.
Qed.

Lemma bowlerStep_names bowlingTeam m bowler m' t n :
  bowlerStep bowlingTeam m bowler = Ok m' -> n ∈ namesOf t m' ->
  n ∈ namesOf t m \/ (t = bowlingTeam /\ bowlerName bowler = Ok n).
Proof.
  intros (nm & d & team & Hnm & Hd & Hget & ->)%bowlerStep_Ok.
  unfold namesOf. destruct (String.eqb_spec bowlingTeam t) as [->|Hne].
  - rewrite mapGet_mapSet_eq, Hget. simpl. rewrite creditPlayer_names.
    destruct (list_find (sameName nm) (players team)); [by left|].
    intros [Hin|Hin%list_elem_of_singleton]%elem_of_app; [by left|].
    right. by subst.
  - rewrite mapGet_mapSet_ne by done. by left.
Qed.

Lemma bowlers_names bowlingTeam bowlers m m' t n :
  forEach (bowlerStep bowlingTeam) bowlers m = Ok m' -> n ∈ namesOf t m' ->
  n ∈ namesOf t m \/
  (t = bowlingTeam /\ exists b, b ∈ bowlers /\ bowlerName b = Ok n).
Proof.
  revert m. induction bowlers as [|x rest IH]; intros m H Hn; simpl in H.
  - injection H as <-. by left.
  - apply bindR_Ok in H as (m1 & Hx & Hrest).
    destruct (IH _ Hrest Hn) as [Hin|(-> & b & Hb & Hname)].
    + destruct (bowlerStep_names _ _ _ _ _ _ Hx Hin) as [?|[-> Hname]]; [by left|].
      right. split; [done|]. exists x. split; [left | done].
    + right. split; [done|]. exists b. split; [by right | done].
Qed.

Lemma inningsStep_names m data i m' t n :
  inningsStep m data i = Ok m' -> n ∈ namesOf t m' ->
  n ∈ namesOf t m \/ exists b, b ∈ entriesOf t data i /\ bowlerName b = Ok n.
Proof.
  unfold inningsStep, entriesOf, inningsBowling. intros H Hn.
  apply bindR_Ok in H as (inningsData & -> & H).
  destruct (negb (truthy inningsData)); [injection H as <-; by left|].
  apply bindR_Ok in H as (battingCard & _ & H).
  apply bindR_Ok in H as (bowlingCard & -> & H).
  apply bindR_Ok in H as (battingTeam & _ & H).
  apply bindR_Ok in H as (bowlingTeam & -> & H).
  apply bindR_Ok in H as (bowlers & -> & H).
  destruct (bowlers_names _ _ _ _ _ _ H Hn) as [Hin|(-> & b & Hb & Hname)].
  - left. by rewrite !namesOf_ensureTeam in Hin.
  - right. exists b. by rewrite String.eqb_refl.
Qed.

Lemma aggregateFrom_names input i m m' t n :
  forEachIndexed inningsStep i input m = Ok m' -> n ∈ namesOf t m' ->
  n ∈ namesOf t m \/ exists b, b ∈ entriesFrom t i input /\ bowlerName b = Ok n.
Proof.
  revert i m. induction input as [|data rest IH]; intros i m H Hn; simpl in H.
  - injection H as <-. by left.
  - apply bindR_Ok in H as (m1 & Hstep & Hrest). cbn [entriesFrom].
    destruct (IH _ _ Hrest Hn) as [Hin|(b & Hb & Hname)].
    + destruct (inningsStep_names _ _ _ _ _ _ Hstep Hin) as [?|(b & Hb & Hname)];
        [by left|].
      right. exists b. split; [apply elem_of_app; by left | done].
    + right. exists b. split; [apply elem_of_app; by right | done].
Qed.

Lemma creditPlayer_not_nil nm d t ps : creditPlayer nm d t ps <> [].
Proof.
  unfold creditPlayer. destruct (list_find (sameName nm) ps) as [[i p]|] eqn:E.
  - apply list_find_Some in E as (Hi & _ & _). intros Hnil.
    apply (f_equal length) in Hnil. rewrite length_insert in Hnil.
    apply lookup_lt_Some in Hi. simpl in Hnil. lia.
  - intros Hnil. apply app_eq_nil in Hnil as [_ [=]].
Qed.

(** A team without players has zero totals. *)
Lemma idle_new t :
  players (newTeam t) = [] ->
  totalDotBallsBowled (newTeam t) = 0 /\ totalTreesPlanted (newTeam t) = 0.
Proof. done. Qed.

Lemma idle_credit nm d t team :
  (players team = [] -> totalDotBallsBowled team = 0 /\ totalTreesPlanted team = 0) ->
  players (creditTeam nm d t team) = [] ->
  totalDotBallsBowled (creditTeam nm d t team) = 0 /\
  totalTreesPlanted (creditTeam nm d t team) = 0.
Proof. intros _ H. simpl in H. by apply creditPlayer_not_nil in H. Qed.

(** X9. Every player of a result of [processMatchData] comes from a bowler
    entry of the team, whose resolved name the player bears; a team without
    bowler entries, one that only batted, has no player and zero totals. *)
Theorem processMatchData_players_come_from_entries now input md :
  processMatchData now input = Ok md ->
  forall team, team ∈ teams md ->
    (forall p, p ∈ players team ->
       exists b, b ∈ entriesFor (team_name team) input /\
                 bowlerName b = Ok (player_name p)) /\
    (entriesFor (team_name team) input = [] ->
       players team = [] /\ totalDotBallsBowled team = 0 /\
       totalTreesPlanted team = 0).
Proof.
  intros Hrun team Hin.
  pose proof (processMatchData_allTeams
                (fun team => players team = [] ->
                   totalDotBallsBowled team = 0 /\ totalTreesPlanted team = 0)
                idle_new idle_credit now input md Hrun) as Hidle.
  rewrite Forall_forall in Hidle. specialize (Hidle team Hin).
  assert (forall p, p ∈ players team ->
            exists b, b ∈ entriesFor (team_name team) input /\
                      bowlerName b = Ok (player_name p)) as Hfrom.
  { unfold processMatchData in Hrun.
    apply bindR_Ok in Hrun as (m & Hagg & [= <-]). simpl in Hin.
    apply list_elem_of_fmap in Hin as ([key team'] & -> & Hin). simpl.
    assert (wellKeyed m) as Hwk.
    { eapply aggregate_wellKeyed; [|exact Hagg]. split; constructor. }
    assert (team_name team' = key) as ->.
    { destruct Hwk as [_ Hall]. rewrite Forall_forall in Hall. apply (Hall _ Hin). }
    intros p Hp.
    destruct (aggregateFrom_names input 0%nat [] m key (player_name p) Hagg)
      as [Hnone|Hb].
    - unfold namesOf. rewrite (wellKeyed_mapGet _ _ _ Hwk Hin).
      by apply list_elem_of_fmap_2.
    - by apply elem_of_nil in Hnone.
    - exact Hb. }
  split; [exact Hfrom|].
  intros Hnone. destruct (players team) as [|p ps] eqn:E.
  - split; [done|]. by apply Hidle.
  - destruct (Hfrom p) as (b & Hb & _); [left|].
    rewrite Hnone in Hb. by apply elem_of_nil in Hb.
Qed.

Lemma processMatchData_players_come_from_entries_witness :
  (forall p, p ∈ players sampleTeam17 ->
     exists b, b ∈ entriesFor "17" [sampleInnings1; sampleInnings2] /\
               bowlerName b = Ok (player_name p)) /\
  (entriesFor "17" [sampleInnings1; sampleInnings2] = [] ->
     players sampleTeam17 = [] /\ totalDotBallsBowled sampleTeam17 = 0 /\
     totalTreesPlanted sampleTeam17 = 0).
Proof.
  apply (processMatchData_players_come_from_entries "2025-04-20T14:00:00.000Z"
           [sampleInnings1; sampleInnings2] sampleMatchData eq_refl sampleTeam17).
  apply elem_of_cons. right. apply elem_of_cons. left. reflexivity.
Defined.

(** ** Flat feeds *)

Lemma toStr_primitive j : primitive j = true -> exists s, toStr j = Ok s.
Proof. destruct j as [|[|]| | | |]; simpl; try discriminate; eauto. Qed.

Lemma toStrV_flat v : flat v -> exists s, toStrV v = Ok s.
Proof. destruct v as [j|]; simpl; [apply toStr_primitive | eauto]. Qed.

Lemma ownProperty_flat key ms :
  forallb (fun kv => primitive (snd kv)) ms = true -> flat (ownProperty key ms).
Proof.
  induction ms as [|[k v] rest IH]; simpl; [done|].
  intros [Hv Hrest]%andb_true_iff.
  destruct (ownProperty key rest); [by apply IH|].
  destruct (String.eqb k key); [exact Hv | done].
Qed.

Lemma bowlerName_flat b : flatObject b = true -> exists nm, bowlerName b = Ok nm.
Proof.
  destruct b as [| | | | |ms]; try discriminate. simpl. intros Hms.
  unfold bowlerName. simpl.
  destruct (whenTruthy (ownProperty "PlayerShortName" ms)); [eauto|].
  destruct (whenTruthy (ownProperty "PlayerName" ms)); [eauto|].
  destruct (toStrV_flat _ (ownProperty_flat "PlayerID" ms Hms)) as [s ->].
  simpl. eauto.
Qed.

Lemma bowlerDotBalls_flat b :
  flatObject b = true -> exists d, bowlerDotBalls b = Ok d.
Proof.
  destruct b as [| | | | |ms]; try discriminate. simpl. intros Hms.
  unfold bowlerDotBalls, parseInt. simpl.
  destruct (toStrV_flat _ (ownProperty_flat "DotBalls" ms Hms)) as [s ->].
  simpl. eauto.
Qed.

Lemma bowlers_flat bowlingTeam bowlers m :
  forallb flatObject bowlers = true -> is_Some (mapGet bowlingTeam m) ->
  exists m', forEach (bowlerStep bowlingTeam) bowlers m = Ok m'.
Proof.
  revert m. induction bowlers as [|b rest IH]; intros m Hall Hm.
  - simpl. eauto.
  - simpl in Hall. apply andb_true_iff in Hall as [Hb Hrest].
    simpl. unfold bowlerStep at 1.
    destruct (bowlerName_flat b Hb) as [nm ->].
    destruct (bowlerDotBalls_flat b Hb) as [d ->]. simpl.
    destruct Hm as [team ->]. simpl. apply IH; [done|].
    rewrite mapGet_mapSet_eq. eauto.
Qed.

Lemma teamIdOr_flat card k :
  flatCard card = true -> exists s, toStringMethod (teamIdOr card k) = Ok s.
Proof.
  unfold teamIdOr, orElse. intros Hcard.
  assert (flat (optProp "TeamID" (optIndex0 card))) as Hflat.
  { destruct card as [[| | | |xs|]|]; try discriminate; [|done].
    destruct xs as [|x xs]; [done|]. simpl in Hcard.
    apply andb_true_iff in Hcard as [Hx _].
    destruct x as [| | | | |ms]; try discriminate. simpl.
    by apply ownProperty_flat. }
  destruct (optProp "TeamID" (optIndex0 card)) as [j|]; [|simpl; eauto].
  destruct (truthy (Some j)) eqn:E; [|simpl; eauto].
  destruct j as [|[|]| | | |]; simpl in *; try discriminate; eauto.
Qed.

Lemma bowlersData_flat card :
  flatCard card = true ->
  exists xs, bowlersData card = Ok xs /\ forallb flatObject xs = true.
Proof.
  destruct card as [[| | | |xs|]|]; try discriminate.
  - intros H. by exists xs.
  - intros _. by exists [].
Qed.

Lemma inningsStep_flat m data i :
  flatPayload data = true -> exists m', inningsStep m data i = Ok m'.
Proof.
  destruct data as [| | | | |ms]; try discriminate. simpl.
  intros [H1 H2]%andb_true_iff. unfold inningsStep.
  assert (flatInnings
            (ownProperty (if (i =? 0)%nat then "Innings1" else "Innings2") ms) = true)
    as Hsec by (destruct (i =? 0)%nat; done).
  cbn [getProp bindR].
  destruct (ownProperty (if (i =? 0)%nat then "Innings1" else "Innings2") ms)
    as [[| | | | |sec]|]; try discriminate; [|simpl; eauto].
  simpl in Hsec. apply andb_true_iff in Hsec as [Hbat Hbowl].
  cbn [truthy negb getProp bindR].
  destruct (teamIdOr_flat _ (i * 2 + 1)%nat Hbat) as [battingTeam ->].
  destruct (teamIdOr_flat _ (i * 2 + 2)%nat Hbowl) as [bowlingTeam ->].
  cbn [bindR].
  destruct (bowlersData_flat _ Hbowl) as (xs & -> & Hxs). cbn [bindR].
  apply bowlers_flat; [done|]. apply ensureTeam_present.
Qed.

(** X10. [processMatchData] does not throw on flat feeds: when every payload
    is an object whose innings sections are absent or objects, whose cards
    are absent or arrays, and whose card entries are objects with members
    that are strings, numbers, booleans or [null], it returns a result. *)
Theorem processMatchData_returns_on_flat_feeds now input :
  forallb flatPayload input = true -> exists md, processMatchData now input = Ok md.
Proof.
  intros Hall. unfold processMatchData, aggregate.
  assert (forall i m, exists m', forEachIndexed inningsStep i input m = Ok m')
    as Hagg.
  { induction input as [|data rest IH]; intros i m; simpl; [eauto|].
    simpl in Hall. apply andb_true_iff in Hall as [Hdata Hrest].
    destruct (inningsStep_flat m data i Hdata) as [m1 ->]. simpl. by apply IH. }
  destruct (Hagg 0%nat []) as [m ->]. simpl. eauto.
Qed.

Lemma processMatchData_returns_on_flat_feeds_witness :
  exists md,
    processMatchData "2025-04-20T14:00:00.000Z" [sampleInnings1; sampleInnings2]
    = Ok md.
Proof.
  apply (processMatchData_returns_on_flat_feeds "2025-04-20T14:00:00.000Z"
           [sampleInnings1; sampleInnings2]).
  reflexivity.
Defined.

(** ** White space and line terminators *)

Lemma afterPrefix_Some p s rest : afterPrefix p s = Some rest -> s = p +:+ rest.
Proof.
  revert s. induction p as [|a p IH]; intros s; simpl.
  - by intros [= ->].
  - destruct s as [|b s]; [discriminate|].
    destruct (Ascii.eqb_spec a b) as [->|]; [|discriminate].
    intros H. change (String b s = String b (p +:+ rest)). by rewrite (IH _ H).
Qed.

Lemma afterPrefix_append p rest : afterPrefix p (p +:+ rest) = Some rest.
Proof.
  induction p as [|a p IH]; [reflexivity|].
  change (afterPrefix (String a p) (String a (p +:+ rest)) = Some rest).
  simpl. by rewrite Ascii.eqb_refl.
Qed.

Lemma afterOneOf_Some class s rest :
  afterOneOf class s = Some rest ->
  exists codePoint, codePoint ∈ class /\ s = utf8 codePoint +:+ rest.
Proof.
  induction class as [|cp class IH]; simpl; [discriminate|].
  destruct (afterPrefix (utf8 cp) s) as [rest'|] eqn:E.
  - intros [= ->]. exists cp. split; [left | by apply afterPrefix_Some].
  - intros (cp' & Hin & Hs)%IH. exists cp'. split; [by right | done].
Qed.

Lemma whiteSpaceAt_Some s rest :
  whiteSpaceAt s = Some rest ->
  exists codePoint, codePoint ∈ whiteSpaces /\ s = utf8 codePoint +:+ rest.
Proof. apply afterOneOf_Some. Qed.

(** A character that occurs in no white space occurs in no blank text. *)
Lemma trimStartFrom_hasChar c n s :
  Forall (fun codePoint => hasChar c (utf8 codePoint) = false) whiteSpaces ->
  trimStartFrom n s = "" -> hasChar c s = false.
Proof.
  intros Hc. revert s. induction n as [|n IH]; intros s; simpl.
  - by intros ->.
  - destruct (whiteSpaceAt s) as [rest|] eqn:E; [|by intros ->].
    intros Hrest. apply whiteSpaceAt_Some in E as (cp & Hcp & ->).
    rewrite hasChar_append, (IH _ Hrest).
    rewrite Forall_forall in Hc. by rewrite (Hc cp Hcp).
Qed.

Lemma blank_hasChar c s :
  Forall (fun codePoint => hasChar c (utf8 codePoint) = false) whiteSpaces ->
  blank s = true -> hasChar c s = false.
Proof.
  unfold blank, trimStart. intros Hc H%String.eqb_eq.
  by eapply trimStartFrom_hasChar.
Qed.

Lemma whiteSpaces_no_parenthesis :
  Forall (fun codePoint => hasChar ")" (utf8 codePoint) = false) whiteSpaces.
Proof. repeat constructor. Qed.

Lemma whiteSpaces_no_semicolon :
  Forall (fun codePoint => hasChar ";" (utf8 codePoint) = false) whiteSpaces.
Proof. repeat constructor. Qed.

(** ** The payload of an envelope *)

(** The end of an envelope: an optional semicolon, then white space. *)
Lemma envelope_end_matches {R : Type} (r : R) semi tail :
  semi = "" \/ semi = ";" -> blank tail = true ->
  optChar ";" (whiteStar (endOfInput r)) (semi +:+ tail) = Some r.
Proof.
  intros [->| ->] Htail; unfold optChar.
  - change ("" +:+ tail) with tail.
    assert (char ";" (whiteStar (endOfInput r)) tail = None) as ->.
    { pose proof (blank_hasChar ";" tail whiteSpaces_no_semicolon Htail) as Hno.
      destruct tail as [|x tail]; simpl in *; [done|].
      apply orb_false_iff in Hno as [-> _]. done. }
    by apply blank_whiteStar.
  - change (";" +:+ tail) with (String ";" tail). simpl.
    by rewrite blank_whiteStar.
Qed.

Lemma char_fails {R : Type} c (k : string -> option R) s :
  hasChar c s = false -> char c k s = None.
Proof.
  destruct s as [|x s]; simpl; [done|].
  destruct (Ascii.eqb x c); [discriminate | done].
Qed.

Lemma greedyStarCapture_fails {R : Type} cls c (k : string -> string -> option R)
    captured s :
  hasChar c s = false ->
  greedyStarCapture cls (fun g => char c (k g)) captured s = None.
Proof.
  revert captured. induction s as [|x s IH]; intros captured Hs; simpl; [done|].
  assert (hasChar c s = false) as Hrest.
  { simpl in Hs. by apply orb_false_iff in Hs as [_ ?]. }
  simpl in Hs. apply orb_false_iff in Hs as [Hx _].
  rewrite Hx. rewrite (IH _ Hrest). by destruct (cls (String x s)).
Qed.

(** The greedy group ends at the last closing parenthesis. *)
Lemma greedyStarCapture_payload {R : Type} (k : string -> string -> option R)
    captured payload rest (r : R) :
  allAt notLineTerminatorAt payload = true -> hasChar ")" rest = false ->
  k (captured +:+ payload) rest = Some r ->
  greedyStarCapture notLineTerminatorAt (fun g => char ")" (k g)) captured
    (payload +:+ String ")" rest) = Some r.
Proof.
  revert captured. induction payload as [|x payload IH]; intros captured Hp Hrest Hk.
  - change ("" +:+ String ")" rest) with (String ")" rest).
    rewrite append_empty_r in Hk. simpl.
    rewrite (greedyStarCapture_fails notLineTerminatorAt ")"%char k _ rest Hrest).
    by destruct (notLineTerminatorAt (String ")" rest)).
  - assert (notLineTerminatorAt (String x payload +:+ String ")" rest) = true) as Hx.
    { unfold notLineTerminatorAt. rewrite lineTerminatorAt_append by done.
      simpl in Hp. by apply andb_true_iff in Hp as [? _]. }
    change (String x payload +:+ String ")" rest)
      with (String x (payload +:+ String ")" rest)) in *.
    simpl in Hp. apply andb_true_iff in Hp as [_ Hp].
    cbn [greedyStarCapture]. rewrite Hx.
    rewrite (IH (captured +:+ String x "") Hp Hrest); [done|].
    by rewrite append_assoc.
Qed.

(** The lazy start ends at the first opening parenthesis. *)
Lemma lazyStar_token {R : Type} (k : string -> option R) token rest (r : R) :
  allAt notLineTerminatorAt token = true -> hasChar "(" token = false ->
  k rest = Some r ->
  lazyStar notLineTerminatorAt (char "(" k) (token +:+ String "(" rest) = Some r.
Proof.
  intros Hcls Hopen Hk. induction token as [|x token IH].
  - change ("" +:+ String "(" rest) with (String "(" rest). simpl. by rewrite Hk.
  - assert (notLineTerminatorAt (String x token +:+ String "(" rest) = true) as Hx.
    { unfold notLineTerminatorAt. rewrite lineTerminatorAt_append by done.
      simpl in Hcls. by apply andb_true_iff in Hcls as [? _]. }
    change (String x token +:+ String "(" rest)
      with (String x (token +:+ String "(" rest)) in *.
    simpl in Hcls, Hopen. apply andb_true_iff in Hcls as [_ Hcls].
    apply orb_false_iff in Hopen as [Hxo Hopen].
    cbn [lazyStar char]. rewrite Hxo, Hx. by apply IH.
Qed.

(** X11. The decoder extracts the payload of an envelope: for a body made
    of a token without parenthesis, the payload between parentheses, an
    optional semicolon and white space, no line terminator beginning in the
    token or in the payload, the pattern captures the payload, and the
    decoder returns what [JSON.parse] makes of it. *)
Theorem decodeBody_parses_the_payload JSON_parse token payload semi tail v :
  allAt notLineTerminatorAt token = true -> hasChar "(" token = false ->
  allAt notLineTerminatorAt payload = true -> payload <> "" ->
  semi = "" \/ semi = ";" -> blank tail = true ->
  JSON_parse payload = Ok v ->
  jsonpMatch (token +:+ "(" +:+ payload +:+ ")" +:+ semi +:+ tail) = Some payload /\
  decodeBody JSON_parse (token +:+ "(" +:+ payload +:+ ")" +:+ semi +:+ tail) = Ok v.
Proof.
  intros Htoken Hopen Hpayload Hne Hsemi Htail Hparse.
  assert (jsonpMatch (token +:+ "(" +:+ payload +:+ ")" +:+ semi +:+ tail)
          = Some payload) as Hmatch.
  { unfold jsonpMatch.
    change (token +:+ "(" +:+ payload +:+ ")" +:+ semi +:+ tail)
      with (token +:+ String "(" (payload +:+ String ")" (semi +:+ tail))).
    apply lazyStar_token; [done | done |].
    apply (greedyStarCapture_payload
             (fun g => optChar ";" (whiteStar (endOfInput g)))).
    - exact Hpayload.
    - apply hasChar_append_false. split.
      + by destruct Hsemi as [->| ->].
      + by apply (blank_hasChar _ _ whiteSpaces_no_parenthesis).
    - by apply envelope_end_matches. }
  split; [exact Hmatch|].
  unfold decodeBody. rewrite Hmatch.
  destruct (String.eqb_spec payload "") as [->|_]; [done|].
  by rewrite Hparse.
Qed.

Lemma decodeBody_parses_the_payload_witness :
  jsonpMatch ("onScoring" +:+ "(" +:+ stringify sampleInnings2 +:+ ")" +:+ ";"
              +:+ (utf8 13 +:+ utf8 10 +:+ utf8 160))
    = Some (stringify sampleInnings2) /\
  decodeBody sampleParse
    ("onScoring" +:+ "(" +:+ stringify sampleInnings2 +:+ ")" +:+ ";"
     +:+ (utf8 13 +:+ utf8 10 +:+ utf8 160))
    = Ok sampleInnings2.
Proof.
  apply (decodeBody_parses_the_payload sampleParse "onScoring"
           (stringify sampleInnings2) ";" (utf8 13 +:+ utf8 10 +:+ utf8 160)
           sampleInnings2);
    [reflexivity | reflexivity | reflexivity
    | intros H; vm_compute in H; discriminate H | right; reflexivity
    | reflexivity | vm_compute; reflexivity].
Defined.

(** A line terminator of two or three bytes in the payload makes the pattern
    fail, as a line feed does. *)
Example jsonpMatch_line_separator :
  jsonpMatch ("cb(" +:+ utf8 8232 +:+ ")") = None /\
  jsonpMatch ("cb(1);" +:+ utf8 160) = Some "1".
Proof. split; reflexivity. Qed.

(** ** What a store of a match leaves alone *)

Lemma keepsOthers_refl matchId w : keepsOthers matchId w w.
Proof. unfold keepsOthers. split_and!; auto. Qed.

Lemma keepsOthers_trans matchId w1 w2 w3 :
  keepsOthers matchId w1 w2 -> keepsOthers matchId w2 w3 -> keepsOthers matchId w1 w3.
Proof.
  intros (Hc & Hm & Ht & Hp & Htp & Hpp & Hs) (Hc' & Hm' & Ht' & Hp' & Htp' & Hpp' & Hs').
  unfold keepsOthers. split_and!; try congruence; auto.
  - intros m k Hne. rewrite Htp', Htp; auto.
  - intros m k Hne. rewrite Hpp', Hpp; auto.
Qed.

Lemma forOf_keeps {A : Type} (R : World -> World -> Prop) (body : A -> M unit) :
  (forall w, R w w) -> (forall w1 w2 w3, R w1 w2 -> R w2 w3 -> R w1 w3) ->
  (forall x w, R w (worldAfter (body x) w)) ->
  forall l w, R w (worldAfter (forOf body l) w).
Proof.
  intros Hrefl Htrans Hbody l. induction l as [|x rest IH]; intros w.
  - apply Hrefl.
  - unfold worldAfter in *. simpl. unfold bindM.
    specialize (Hbody x w). destruct (body x w) as [[[]|e] w1]; simpl in *.
    + eapply Htrans; [exact Hbody | apply IH].
    + exact Hbody.
Qed.

Section StoreFacts.

Variable clock : nat -> Instant.

Lemma storePlayer_keeps matchId teamId p w :
  keepsOthers matchId w (worldAfter (storePlayer matchId teamId p) w).
Proof.
  unfold worldAfter, storePlayer, bindM, liftR, run.
  destruct (nameReplace (player_name p)) as [replaced|e]; simpl;
    [|apply keepsOthers_refl].
  unfold keepsOthers. simpl. split_and!; auto.
  - intros i r Hi.
    destruct (Players (db w) !! (teamId +:+ "_" +:+ replaced)) eqn:E; [done|].
    rewrite lookup_insert_ne; [done|]. congruence.
  - intros m k Hne. rewrite lookup_insert_ne; [done|]. congruence.
Qed.

Lemma storeTeam_keeps matchId ts team w :
  keepsOthers matchId w (worldAfter (storeTeam matchId ts team) w).
Proof.
  unfold worldAfter, storeTeam.
  destruct (teamNameOf (team_name team)) as [teamName|];
    [|apply keepsOthers_refl].
  unfold bindText, retM, bindM, run. cbn [fst snd db clockReads].
  match goal with
  | |- context [forOf ?f ?l ?w0] =>
      pose proof (forOf_keeps (keepsOthers matchId) f
                    (keepsOthers_refl matchId) (keepsOthers_trans matchId)
                    (storePlayer_keeps matchId (team_name team)) l w0) as Hplayers;
      unfold worldAfter in Hplayers;
      destruct (forOf f l w0) as [r w1]
  end.
  simpl in *. assert (keepsOthers matchId w w1) as Hall; [|by destruct r as [[]|]].
  eapply keepsOthers_trans; [|exact Hplayers].
  unfold keepsOthers. simpl. split_and!; auto.
  - intros t n Ht.
    destruct (Teams (db w) !! team_name team) eqn:E; [done|].
    rewrite lookup_insert_ne; [done|]. congruence.
  - intros m k Hne. rewrite lookup_insert_ne; [done|]. congruence.
  - intros t Ht.
    destruct (TreePlantingSummary (db w) !! team_name team) as [[total last]|] eqn:E;
      (destruct (decide (team_name team = t)) as [<-|Hne];
       [rewrite lookup_insert_eq; eauto | by rewrite lookup_insert_ne]).
Qed.

Lemma storeTeams_keeps matchId ts teams w :
  keepsOthers matchId w (worldAfter (forOf (storeTeam matchId ts) teams) w).
Proof.
  apply forOf_keeps.
  - apply keepsOthers_refl.
  - apply keepsOthers_trans.
  - intros team w0. apply storeTeam_keeps.
Qed.

Lemma keepsRows_refl P d : keepsRows P d d.
Proof. unfold keepsRows. split_and!; auto. Qed.

Lemma keepsRows_trans P d1 d2 d3 :
  keepsRows P d1 d2 -> keepsRows P d2 d3 -> keepsRows P d1 d3.
Proof.
  intros (Hm & Ht & Hp & Htp & Hpp & Hs) (Hm' & Ht' & Hp' & Htp' & Hpp' & Hs').
  unfold keepsRows. split_and!; auto.
  - intros m HP. rewrite Hm', Hm; auto.
  - intros m k HP. rewrite Htp', Htp; auto.
  - intros m k HP. rewrite Hpp', Hpp; auto.
Qed.

Lemma keepsRows_weaken (P Q : string -> Prop) d d' :
  (forall m, Q m -> P m) -> keepsRows P d d' -> keepsRows Q d d'.
Proof.
  intros HQP (Hm & Ht & Hp & Htp & Hpp & Hs).
  unfold keepsRows. split_and!; auto.
Qed.

Lemma storeMatchData_keeps md url w :
  clockReads (worldAfter (storeMatchData clock md url) w) = S (clockReads w) /\
  keepsRows (fun m => m <> extractMatchId url)
    (db w) (db (worldAfter (storeMatchData clock md url) w)).
Proof.
  unfold worldAfter, storeMatchData, bindM, readClock, run.
  cbn [fst snd db clockReads].
  match goal with
  | |- context [forOf (storeTeam ?i ?ts) ?l ?w0] =>
      pose proof (storeTeams_keeps i ts l w0) as (Hc & Hm & Ht & Hp & Htp & Hpp & Hs);
      unfold worldAfter in *; destruct (forOf (storeTeam i ts) l w0) as [r w1]
  end.
  simpl in *.
  assert (clockReads w1 = S (clockReads w) /\
          keepsRows (fun m => m <> extractMatchId url) (db w) (db w1)) as H;
    [|by destruct r as [[]|]].
  split; [done|]. unfold keepsRows. split_and!; auto.
  intros m Hne. rewrite Hm. by rewrite lookup_insert_ne.
Qed.

(** X12. [storeMatchData] writes the row of the match first: whether it
    returns or throws on a later write, the match is then recorded under its
    identifier with the date of the clock reading, so that the guard of the
    driver skips the match, without fetching it and without a write, at
    every later reading of the clock on that date. *)
Theorem stored_match_is_skipped_that_day fetch JSON_parse md url w :
  Matches (db (worldAfter (storeMatchData clock md url) w)) !! extractMatchId url
    = Some {| match_url := url;
              match_date := istDateTime (clock (clockReads w));
              match_timestamp := istDateTime (clock (clockReads w)) |} /\
  forall w',
    db w' = db (worldAfter (storeMatchData clock md url) w) ->
    sqlDate (istDateTime (clock (clockReads w')))
      = sqlDate (istDateTime (clock (clockReads w))) ->
    matchIteration fetch JSON_parse clock url w'
      = (Ok tt, {| db := db w'; clockReads := S (clockReads w') |}).
Proof.
  assert (Matches (db (worldAfter (storeMatchData clock md url) w)) !! extractMatchId url
          = Some {| match_url := url;
                    match_date := istDateTime (clock (clockReads w));
                    match_timestamp := istDateTime (clock (clockReads w)) |}) as Hrow.
  { unfold worldAfter, storeMatchData, bindM, readClock, run.
    cbn [fst snd db clockReads].
    match goal with
    | |- context [forOf (storeTeam ?i ?ts) ?l ?w0] =>
        pose proof (storeTeams_keeps i ts l w0) as (_ & Hm & _);
        unfold worldAfter in Hm; destruct (forOf (storeTeam i ts) l w0) as [r w1]
    end.
    simpl in Hm. assert (Matches (db w1) !! extractMatchId url = Some
       {| match_url := url; match_date := istDateTime (clock (clockReads w));
          match_timestamp := istDateTime (clock (clockReads w)) |}) as H.
    { rewrite Hm. apply lookup_insert_eq. }
    by destruct r as [[]|]. }
  split; [exact Hrow|].
  intros w' Hdb Hdate.
  unfold matchIteration, bindM, readClock, query, retM.
  cbn [processOnlyTodaysMatches fst snd db clockReads].
  unfold processedToday. rewrite Hdb, Hrow. cbn [match_date].
  rewrite Hdate, String.eqb_refl. reflexivity.
Qed.

(** X13. Whatever its outcome, [storeMatchData] changes no row of another
    match (its match row and its performance rows), never changes or removes
    the row of a team or of a player that is already known, removes no
    summary row, and reads the clock once. *)
Theorem storeMatchData_keeps_other_rows md url w :
  let w' := worldAfter (storeMatchData clock md url) w in
  clockReads w' = S (clockReads w) /\
  (forall m, m <> extractMatchId url -> Matches (db w') !! m = Matches (db w) !! m) /\
  (forall t n, Teams (db w) !! t = Some n -> Teams (db w') !! t = Some n) /\
  (forall i r, Players (db w) !! i = Some r -> Players (db w') !! i = Some r) /\
  (forall m k, m <> extractMatchId url ->
     TeamMatchPerformance (db w') !! (m, k) = TeamMatchPerformance (db w) !! (m, k)) /\
  (forall m k, m <> extractMatchId url ->
     PlayerMatchPerformance (db w') !! (m, k)
     = PlayerMatchPerformance (db w) !! (m, k)) /\
  (forall t, is_Some (TreePlantingSummary (db w) !! t) ->
     is_Some (TreePlantingSummary (db w') !! t)).
Proof. exact (storeMatchData_keeps md url w). Qed.

End StoreFacts.

(** ** The rows of a match *)

Section Batches.

Context `{Countable K} {V : Type}.
Implicit Types (rows : list (K * V)) (m : gmap K V).

Lemma replaceAll_app rows1 rows2 m :
  replaceAll (rows1 ++ rows2)%list m = replaceAll rows2 (replaceAll rows1 m).
Proof. apply foldl_app. Qed.

Lemma ignoreAll_app rows1 rows2 m :
  ignoreAll (rows1 ++ rows2)%list m = ignoreAll rows2 (ignoreAll rows1 m).
Proof. apply foldl_app. Qed.

Lemma replaceAll_other rows m k :
  k ∉ rows.*1 -> replaceAll rows m !! k = m !! k.
Proof.
  revert m. induction rows as [|[k' v] rest IH]; intros m Hk; [done|].
  rewrite fmap_cons, not_elem_of_cons in Hk. destruct Hk as [Hne Hk].
  change (replaceAll rest (<[k' := v]> m) !! k = m !! k).
  rewrite IH by done. apply lookup_insert_ne. simpl in Hne. congruence.
Qed.

Lemma replaceAll_written rows m1 m2 k :
  k ∈ rows.*1 -> replaceAll rows m1 !! k = replaceAll rows m2 !! k.
Proof.
  revert m1 m2. induction rows as [|[k' v] rest IH]; intros m1 m2 Hk.
  - by apply elem_of_nil in Hk.
  - change (replaceAll rest (<[k' := v]> m1) !! k
            = replaceAll rest (<[k' := v]> m2) !! k).
    destruct (decide (k ∈ rest.*1)) as [Hin|Hout]; [by apply IH|].
    rewrite !replaceAll_other by done.
    rewrite fmap_cons, elem_of_cons in Hk. destruct Hk as [->|Hin]; [|done].
    simpl. by rewrite !lookup_insert_eq.
Qed.

Lemma replaceAll_idempotent rows m :
  replaceAll rows (replaceAll rows m) = replaceAll rows m.
Proof.
  apply map_eq. intros k. destruct (decide (k ∈ rows.*1)) as [Hin|Hout].
  - by apply replaceAll_written.
  - by rewrite replaceAll_other.
Qed.

Lemma replaceAll_lookup rows m k v :
  NoDup rows.*1 -> (k, v) ∈ rows -> replaceAll rows m !! k = Some v.
Proof.
  revert m. induction rows as [|[k' v'] rest IH]; intros m Hnd Hin.
  - by apply elem_of_nil in Hin.
  - rewrite fmap_cons, NoDup_cons in Hnd. destruct Hnd as [Hfresh Hnd].
    change (replaceAll rest (<[k' := v']> m) !! k = Some v).
    apply elem_of_cons in Hin. destruct Hin as [[= -> ->]|Hin]; [|by apply IH].
    rewrite replaceAll_other by done. apply lookup_insert_eq.
Qed.

Lemma ignoreAll_keeps rows m k v :
  m !! k = Some v -> ignoreAll rows m !! k = Some v.
Proof.
  revert m. induction rows as [|[k' v'] rest IH]; intros m Hk; [done|].
  change (ignoreAll rest (match m !! k' with
                          | Some _ => m
                          | None => <[k' := v']> m
                          end) !! k = Some v).
  apply IH. destruct (m !! k') eqn:E; [done|].
  rewrite lookup_insert_ne; [done|]. congruence.
Qed.

Lemma ignoreAll_known rows m :
  (forall k, k ∈ rows.*1 -> is_Some (m !! k)) -> ignoreAll rows m = m.
Proof.
  induction rows as [|[k' v'] rest IH]; intros Hall; [done|].
  change (ignoreAll rest (match m !! k' with
                          | Some _ => m
                          | None => <[k' := v']> m
                          end) = m).
  destruct (Hall k') as [x Hx]; [rewrite fmap_cons; apply elem_of_cons; by left|].
  rewrite Hx. apply IH. intros k Hk. apply Hall.
  rewrite fmap_cons. apply elem_of_cons. by right.
Qed.

Lemma ignoreAll_other rows m k :
  k ∉ rows.*1 -> ignoreAll rows m !! k = m !! k.
Proof.
  revert m. induction rows as [|[k' v] rest IH]; intros m Hk; [done|].
  rewrite fmap_cons, not_elem_of_cons in Hk. destruct Hk as [Hne Hk].
  change (ignoreAll rest (match m !! k' with
                          | Some _ => m
                          | None => <[k' := v]> m
                          end) !! k = m !! k).
  rewrite IH by done. destruct (m !! k'); [done|].
  apply lookup_insert_ne. simpl in Hne. congruence.
Qed.

Lemma ignoreAll_writes rows m k :
  k ∈ rows.*1 -> is_Some (ignoreAll rows m !! k).
Proof.
  revert m. induction rows as [|[k' v] rest IH]; intros m Hk.
  - by apply elem_of_nil in Hk.
  - change (is_Some (ignoreAll rest (match m !! k' with
                                     | Some _ => m
                                     | None => <[k' := v]> m
                                     end) !! k)).
    rewrite fmap_cons, elem_of_cons in Hk. destruct Hk as [->|Hin]; [|by apply IH].
    simpl. destruct (m !! k') as [x|] eqn:E.
    + exists x. by apply ignoreAll_keeps.
    + exists v. apply ignoreAll_keeps. apply lookup_insert_eq.
Qed.

Lemma ignoreAll_idempotent rows m :
  ignoreAll rows (ignoreAll rows m) = ignoreAll rows m.
Proof. apply ignoreAll_known. intros k Hk. by apply ignoreAll_writes. Qed.

Lemma ignoreAll_lookup rows m k v :
  NoDup rows.*1 -> (k, v) ∈ rows ->
  ignoreAll rows m !! k = Some (default v (m !! k)).
Proof.
  revert m. induction rows as [|[k' v'] rest IH]; intros m Hnd Hin.
  - by apply elem_of_nil in Hin.
  - rewrite fmap_cons, NoDup_cons in Hnd. destruct Hnd as [Hfresh Hnd].
    change (ignoreAll rest (match m !! k' with
                            | Some _ => m
                            | None => <[k' := v']> m
                            end) !! k = Some (default v (m !! k))).
    apply elem_of_cons in Hin. destruct Hin as [[= -> ->]|Hin].
    + rewrite ignoreAll_other by done. destruct (m !! k') eqn:E.
      * by rewrite E.
      * by rewrite lookup_insert_eq.
    + rewrite IH by done. f_equal.
      assert (k <> k') as Hne.
      { intros Heq. subst. apply Hfresh.
        exact (list_elem_of_fmap_2 fst _ _ Hin). }
      destruct (m !! k'); [done|]. by rewrite lookup_insert_ne.
Qed.

End Batches.

Section StoredRows.

Variable clock : nat -> Instant.

Lemma storePlayer_step matchId teamId p s w :
  player_name p = JStr s ->
  storePlayer matchId teamId p w
  = (Ok tt,
     {| db := replacePlayerPerformance matchId (playerIdOf teamId p) teamId
                (dotBallsBowled p) (treesBowling p)
                (ignorePlayer (playerIdOf teamId p) s teamId (db w));
        clockReads := clockReads w |}).
Proof.
  intros Hs. unfold storePlayer, playerIdOf, bindM, liftR, run. by rewrite Hs.
Qed.

Lemma storeTeam_step matchId ts team w :
  team_name team ∉ inheritedMembers ->
  storeTeam matchId ts team w
  = forOf (storePlayer matchId (team_name team)) (players team)
      {| db := upsertSummary (team_name team) (totalTreesPlanted team) ts
                 (replaceTeamPerformance matchId (team_name team)
                    (totalDotBallsBowled team) (totalTreesPlanted team)
                    (ignoreTeam (team_name team) (knownAs (team_name team)) (db w)));
         clockReads := clockReads w |}.
Proof.
  intros Hplain. unfold storeTeam. by rewrite (teamNameOf_plain _ Hplain).
Qed.

Lemma storePlayers_rows matchId teamId ps w :
  Forall (fun p => exists s, player_name p = JStr s) ps ->
  exists w',
    forOf (storePlayer matchId teamId) ps w = (Ok tt, w') /\
    Teams (db w') = Teams (db w) /\
    TeamMatchPerformance (db w') = TeamMatchPerformance (db w) /\
    Players (db w') = ignoreAll (playerRowsOf teamId ps) (Players (db w)) /\
    PlayerMatchPerformance (db w')
      = replaceAll (playerPerformanceRowsOf matchId teamId ps)
          (PlayerMatchPerformance (db w)).
Proof.
  intros Hps. revert w. induction Hps as [|p rest [s Hs] _ IH]; intros w.
  - exists w. by split_and!.
  - cbn [forOf]. unfold bindM at 1.
    rewrite (storePlayer_step _ _ _ _ _ Hs).
    match goal with
    | |- context [forOf _ rest ?w0] =>
        destruct (IH w0) as (w' & -> & Ht & Htp & Hp & Hpp)
    end.
    exists w'. split; [reflexivity|].
    cbn [db ignorePlayer replacePlayerPerformance Teams TeamMatchPerformance Players
         PlayerMatchPerformance] in Ht, Htp, Hp, Hpp.
    split_and!; [done|done| |].
    + rewrite Hp. unfold playerRowsOf. cbn [map]. rewrite Hs. reflexivity.
    + rewrite Hpp. reflexivity.
Qed.

Lemma storeTeams_rows matchId ts teams w :
  Forall (fun team => team_name team ∉ inheritedMembers) teams ->
  Forall (fun team => Forall (fun p => exists s, player_name p = JStr s) (players team))
         teams ->
  exists w',
    forOf (storeTeam matchId ts) teams w = (Ok tt, w') /\
    Teams (db w') = ignoreAll (teamRows teams) (Teams (db w)) /\
    TeamMatchPerformance (db w')
      = replaceAll (teamPerformanceRows matchId teams) (TeamMatchPerformance (db w)) /\
    Players (db w') = ignoreAll (playerRows teams) (Players (db w)) /\
    PlayerMatchPerformance (db w')
      = replaceAll (playerPerformanceRows matchId teams)
          (PlayerMatchPerformance (db w)).
Proof.
  intros Hplain Hteams. revert w Hplain.
  induction Hteams as [|team rest Hps _ IH]; intros w Hplain.
  - exists w. by split_and!.
  - apply Forall_cons in Hplain as [Hplain1 Hplain].
    cbn [forOf]. unfold bindM at 1. rewrite (storeTeam_step _ _ _ _ Hplain1).
    match goal with
    | |- context [forOf (storePlayer _ _) _ ?w0] =>
        destruct (storePlayers_rows matchId (team_name team) (players team) w0 Hps)
          as (w1 & -> & Ht1 & Htp1 & Hp1 & Hpp1)
    end.
    destruct (IH w1 Hplain) as (w' & -> & Ht & Htp & Hp & Hpp).
    exists w'. split; [reflexivity|].
    cbn [db ignoreTeam replaceTeamPerformance upsertSummary Teams TeamMatchPerformance
         Players PlayerMatchPerformance] in Ht1, Htp1, Hp1, Hpp1.
    split_and!.
    + rewrite Ht, Ht1. reflexivity.
    + rewrite Htp, Htp1. reflexivity.
    + rewrite Hp, Hp1. unfold playerRows. cbn [flat_map].
      by rewrite ignoreAll_app.
    + rewrite Hpp, Hpp1. unfold playerPerformanceRows. cbn [flat_map].
      by rewrite replaceAll_app.
Qed.

Lemma storeMatchData_rows md url w :
  plainTeams md ->
  stringNames md ->
  exists w',
    storeMatchData clock md url w = (Ok tt, w') /\
    Teams (db w') = ignoreAll (teamRows (teams md)) (Teams (db w)) /\
    TeamMatchPerformance (db w')
      = replaceAll (teamPerformanceRows (extractMatchId url) (teams md))
          (TeamMatchPerformance (db w)) /\
    Players (db w') = ignoreAll (playerRows (teams md)) (Players (db w)) /\
    PlayerMatchPerformance (db w')
      = replaceAll (playerPerformanceRows (extractMatchId url) (teams md))
          (PlayerMatchPerformance (db w)).
Proof.
  intros Hplain Hnames. unfold storeMatchData, bindM, readClock, run.
  cbn [fst snd db clockReads].
  match goal with
  | |- context [forOf (storeTeam ?i ?ts) _ ?w0] =>
      destruct (storeTeams_rows i ts (teams md) w0 Hplain Hnames)
        as (w' & -> & Ht & Htp & Hp & Hpp)
  end.
  exists w'. by split_and!.
Qed.

(** X14. A store of a match whose player names are strings, and none of
    whose teams bears the name of a member that [teamNames] inherits,
    returns, and storing the same data for the same URL again returns too
    and leaves the tables of the teams, of the players and of the
    performances per match as the first store left them: their rows are
    replaced or ignored, where the summary adds. *)
Theorem storeMatchData_again_keeps_rows md url w :
  plainTeams md ->
  stringNames md ->
  exists w1 w2,
    storeMatchData clock md url w = (Ok tt, w1) /\
    storeMatchData clock md url w1 = (Ok tt, w2) /\
    Teams (db w2) = Teams (db w1) /\
    TeamMatchPerformance (db w2) = TeamMatchPerformance (db w1) /\
    Players (db w2) = Players (db w1) /\
    PlayerMatchPerformance (db w2) = PlayerMatchPerformance (db w1).
Proof.
  intros Hplain Hnames.
  destruct (storeMatchData_rows md url w Hplain Hnames)
    as (w1 & Hrun1 & Ht1 & Htp1 & Hp1 & Hpp1).
  destruct (storeMatchData_rows md url w1 Hplain Hnames)
    as (w2 & Hrun2 & Ht2 & Htp2 & Hp2 & Hpp2).
  exists w1, w2. split_and!; [done|done| | | |].
  - rewrite Ht2, Ht1. apply ignoreAll_idempotent.
  - rewrite Htp2, Htp1. apply replaceAll_idempotent.
  - rewrite Hp2, Hp1. apply ignoreAll_idempotent.
  - rewrite Hpp2, Hpp1. apply replaceAll_idempotent.
Qed.

(** X15. After a store of a match whose team names are pairwise different
    and none of them the name of a member that [teamNames] inherits, and
    whose player names are strings, the performance row of the match and of
    each of its teams holds the team's dot balls and trees, and the team is
    known under the name it had before, or else under the name of the table
    of the ten teams, its own identifier when the table has none. *)
Theorem storeMatchData_team_rows md url w team :
  plainTeams md ->
  stringNames md ->
  NoDup (team_name <$> teams md) ->
  team ∈ teams md ->
  exists w',
    storeMatchData clock md url w = (Ok tt, w') /\
    TeamMatchPerformance (db w') !! (extractMatchId url, team_name team)
      = Some (totalDotBallsBowled team, totalTreesPlanted team) /\
    Teams (db w') !! team_name team
      = Some (default
                (match List.find (fun kv => String.eqb (fst kv) (team_name team))
                         teamNames with
                 | Some (_, name) => name
                 | None => team_name team
                 end)
                (Teams (db w) !! team_name team)).
Proof.
  intros Hplain Hnames Hnd Hin.
  assert (knownAs (team_name team)
          = match List.find (fun kv => String.eqb (fst kv) (team_name team))
                    teamNames with
            | Some (_, name) => name
            | None => team_name team
            end) as <-.
  { unfold knownAs, teamNameOf.
    destruct (List.find _ teamNames) as [[k n]|]; [reflexivity|].
    by destruct (existsb _ inheritedMembers). }
  destruct (storeMatchData_rows md url w Hplain Hnames) as (w' & Hrun & Ht & Htp & _).
  exists w'. split_and!; [done| |].
  - rewrite Htp. apply replaceAll_lookup.
    + unfold teamPerformanceRows. rewrite <- list_fmap_compose.
      change (NoDup ((fun t => (extractMatchId url, team_name t)) <$> teams md)).
      rewrite (list_fmap_compose team_name (fun n => (extractMatchId url, n))).
      apply NoDup_fmap_2; [|done]. by intros x y [= ->].
    + unfold teamPerformanceRows.
      apply (list_elem_of_fmap_2
               (fun t => ((extractMatchId url, team_name t),
                          (totalDotBallsBowled t, totalTreesPlanted t)))). done.
  - rewrite Ht. apply ignoreAll_lookup.
    + unfold teamRows. rewrite <- list_fmap_compose. done.
    + unfold teamRows.
      apply (list_elem_of_fmap_2 (fun t => (team_name t, knownAs (team_name t)))).
      done.
Qed.

End StoredRows.

Lemma stored_match_is_skipped_that_day_witness :
  matchIteration sampleFetch sampleParse sampleClock url1833
    (worldAfter (storeMatchData sampleClock sampleMatchData url1833) sampleWorld)
  = (Ok tt,
     {| db := db (worldAfter (storeMatchData sampleClock sampleMatchData url1833)
                    sampleWorld);
        clockReads :=
          S (clockReads (worldAfter (storeMatchData sampleClock sampleMatchData url1833)
                           sampleWorld)) |}).
Proof.
  apply (proj2 (stored_match_is_skipped_that_day sampleClock sampleFetch sampleParse
                  sampleMatchData url1833 sampleWorld)); reflexivity.
Defined.

Lemma storeMatchData_again_keeps_rows_witness :
  exists w1 w2,
    storeMatchData sampleClock sampleMatchData url1833 sampleWorld = (Ok tt, w1) /\
    storeMatchData sampleClock sampleMatchData url1833 w1 = (Ok tt, w2) /\
    Teams (db w2) = Teams (db w1) /\
    TeamMatchPerformance (db w2) = TeamMatchPerformance (db w1) /\
    Players (db w2) = Players (db w1) /\
    PlayerMatchPerformance (db w2) = PlayerMatchPerformance (db w1).
Proof.
  apply (storeMatchData_again_keeps_rows sampleClock sampleMatchData url1833 sampleWorld).
  - repeat constructor; apply (bool_decide_unpack _); vm_compute; exact Logic.I.
  - repeat constructor; eexists; reflexivity.
Defined.

Lemma storeMatchData_team_rows_witness :
  exists w',
    storeMatchData sampleClock sampleMatchData url1833 sampleWorld = (Ok tt, w') /\
    TeamMatchPerformance (db w') !! (extractMatchId url1833, "17") = Some (10, 180) /\
    Teams (db w') !! "17" = Some "Mumbai Indians".
Proof.
  apply (storeMatchData_team_rows sampleClock sampleMatchData url1833 sampleWorld
           sampleTeam17).
  - repeat constructor; apply (bool_decide_unpack _); vm_compute; exact Logic.I.
  - repeat constructor; eexists; reflexivity.
  - apply (processMatchData_team_names "2025-04-20T14:00:00.000Z"
             [sampleInnings1; sampleInnings2]).
    reflexivity.
  - apply elem_of_cons. right. apply elem_of_cons. left. reflexivity.
Defined.

(** ** What the driver leaves alone *)

Lemma forOf_keeps_in {A : Type} (R : World -> World -> Prop) (body : A -> M unit) l :
  (forall w, R w w) -> (forall w1 w2 w3, R w1 w2 -> R w2 w3 -> R w1 w3) ->
  (forall x w, x ∈ l -> R w (worldAfter (body x) w)) ->
  forall w, R w (worldAfter (forOf body l) w).
Proof.
  intros Hrefl Htrans. induction l as [|x rest IH]; intros Hbody w.
  - apply Hrefl.
  - unfold worldAfter in *. simpl. unfold bindM.
    pose proof (Hbody x w (list_elem_of_here _ _)) as Hx.
    destruct (body x w) as [[[]|e] w1]; simpl in *; [|exact Hx].
    eapply Htrans; [exact Hx|]. apply IH.
    intros y w0 Hy. apply Hbody. by apply list_elem_of_further.
Qed.

Section DriverFacts.

Variable fetch : string -> Result Response.
Variable JSON_parse : string -> Result JSON.
Variable clock : nat -> Instant.

Lemma processMatchUrl_db url w :
  db (worldAfter (processMatchUrl fetch JSON_parse clock url) w) = db w.
Proof.
  unfold worldAfter, processMatchUrl, tryCatchM, bindM, liftR, readClock, throwM.
  destruct (fetchMatchJson fetch JSON_parse (extractMatchId url)) as [data|e];
    [|reflexivity].
  cbn [fst snd db clockReads].
  by destruct (processMatchData _ data).
Qed.

Lemma matchIteration_keeps url w :
  keepsRows (fun m => m <> extractMatchId url)
    (db w) (db (worldAfter (matchIteration fetch JSON_parse clock url) w)).
Proof.
  unfold worldAfter, matchIteration. unfold bindM at 1.
  cbn [processOnlyTodaysMatches]. unfold bindM at 1, readClock, query.
  cbn [fst snd db clockReads].
  destruct (processedToday _ _ _); [apply keepsRows_refl|].
  unfold bindM at 1.
  match goal with
  | |- context [processMatchUrl _ _ _ url ?w0] =>
      pose proof (processMatchUrl_db url w0) as Hdb; unfold worldAfter in Hdb;
      destruct (processMatchUrl fetch JSON_parse clock url w0) as [[md|e] w1]
  end; simpl in Hdb; [|simpl; rewrite Hdb; apply keepsRows_refl].
  unfold bindM at 1, liftR.
  destruct (printSummary md) as [[]|e]; [|simpl; rewrite Hdb; apply keepsRows_refl].
  rewrite <- Hdb. apply (storeMatchData_keeps clock md url w1).
Qed.

(** X16. A match that fails before the store is reached (its feeds give no
    data, the aggregation throws, or the printing of its summary throws)
    makes the iteration of the loop throw that very exception and writes
    nothing: the store is the one the iteration found. *)
Theorem matchIteration_fails_before_any_write url w e :
  processedToday (extractMatchId url) (istDateTime (clock (clockReads w))) (db w)
    = false ->
  (fetchMatchJson fetch JSON_parse (extractMatchId url) = Throw e ->
   matchIteration fetch JSON_parse clock url w
   = (Throw e, {| db := db w; clockReads := S (clockReads w) |})) /\
  (forall data,
     fetchMatchJson fetch JSON_parse (extractMatchId url) = Ok data ->
     processMatchData (isoString (clock (S (clockReads w)))) data = Throw e ->
     matchIteration fetch JSON_parse clock url w
     = (Throw e, {| db := db w; clockReads := S (S (clockReads w)) |})) /\
  (forall data md,
     fetchMatchJson fetch JSON_parse (extractMatchId url) = Ok data ->
     processMatchData (isoString (clock (S (clockReads w)))) data = Ok md ->
     printSummary md = Throw e ->
     matchIteration fetch JSON_parse clock url w
     = (Throw e, {| db := db w; clockReads := S (S (clockReads w)) |})).
Proof.
  intros Hguard.
  assert (matchIteration fetch JSON_parse clock url w
    = match processMatchUrl fetch JSON_parse clock url
              {| db := db w; clockReads := S (clockReads w) |} with
      | (Ok md, w1) => (_ <~ liftR (printSummary md);; storeMatchData clock md url) w1
      | (Throw e', w1) => (Throw e', w1)
      end) as Hstep.
  { unfold matchIteration. unfold bindM at 1.
    cbn [processOnlyTodaysMatches]. unfold bindM at 1, readClock, query.
    cbn [fst snd db clockReads]. rewrite Hguard. reflexivity. }
  rewrite Hstep. unfold processMatchUrl, tryCatchM, bindM, liftR, readClock, throwM.
  cbn [fst snd db clockReads].
  split_and!.
  - intros ->. reflexivity.
  - intros data -> ->. reflexivity.
  - intros data md -> -> ->. reflexivity.
Qed.

(** X17. The handler returns in every case, whatever the network, the
    parser, the clock and the store. Over a list of URLs it leaves the rows
    of every match that is not in the list as they were, and it never
    changes or removes the row of a team or of a player that the store
    already knows. *)
Theorem scheduledOn_keeps_other_matches urls w :
  fst (scheduledOn fetch JSON_parse clock urls w) = Ok tt /\
  keepsRows (fun m => m ∉ extractMatchId <$> urls)
    (db w) (db (worldAfter (scheduledOn fetch JSON_parse clock urls) w)).
Proof.
  unfold worldAfter, scheduledOn, bindM, tryCatchM, readClock, retM, query.
  cbn [processOnlyTodaysMatches fst snd db clockReads].
  match goal with
  | |- context [forOf ?f urls ?w0] =>
      pose proof (forOf_keeps_in
        (fun w1 w2 => keepsRows (fun m => m ∉ extractMatchId <$> urls) (db w1) (db w2))
        f urls
        (fun w1 => keepsRows_refl _ (db w1))
        (fun w1 w2 w3 => keepsRows_trans _ (db w1) (db w2) (db w3))) as Hloop;
      specialize (fun Hbody => Hloop Hbody w0);
      unfold worldAfter in Hloop;
      destruct (forOf f urls w0) as [[[]|e] w1]
  end; (split; [reflexivity|]); apply Hloop;
  intros url w2 Hin;
  (eapply keepsRows_weaken; [|apply matchIteration_keeps]);
  intros m Hm ->; apply Hm; by apply list_elem_of_fmap_2.
Qed.

End DriverFacts.

Lemma matchIteration_fails_before_any_write_witness :
  matchIteration sampleFetch sampleParse sampleClock url1832 sampleWorld
  = (Throw (Error "Failed to fetch any valid data for match 1832"),
     {| db := db sampleWorld; clockReads := S (clockReads sampleWorld) |}).
Proof.
  apply (proj1 (matchIteration_fails_before_any_write sampleFetch sampleParse sampleClock
                  url1832 sampleWorld _ eq_refl)).
  vm_compute. reflexivity.
Defined.

(** ** Player identifiers *)

Lemma whiteSpaceAt_shorter s rest :
  whiteSpaceAt s = Some rest -> (String.length rest < String.length s)%nat.
Proof.
  intros (cp & _ & ->)%whiteSpaceAt_Some. rewrite length_append.
  assert (0 < String.length (utf8 cp))%nat; [|lia].
  unfold utf8. repeat case_match; simpl; lia.
Qed.

Lemma whiteSpaceAt_whiteSpaces :
  Forall (fun codePoint =>
            forall rest, whiteSpaceAt (utf8 codePoint +:+ rest) = Some rest)
    whiteSpaces.
Proof. repeat constructor. Qed.

Lemma whiteSpaceAt_append codePoint rest :
  codePoint ∈ whiteSpaces -> whiteSpaceAt (utf8 codePoint +:+ rest) = Some rest.
Proof.
  intros Hin. pose proof whiteSpaceAt_whiteSpaces as H.
  rewrite Forall_forall in H. by apply H.
Qed.

(** White space at an ASCII character is told from that character. *)
Lemma whiteSpaceAt_ascii x :
  (nat_of_ascii x <? 128)%nat = true ->
  (forall rest, whiteSpaceAt (String x rest) = Some rest) \/
  (forall rest, whiteSpaceAt (String x rest) = None).
Proof.
  destruct x as [[] [] [] [] [] [] [] []]; intros H; try discriminate H;
    ((left; intros rest; reflexivity) || (right; intros rest; reflexivity)).
Qed.

(** The steps left over when the text is used up change nothing. *)
Lemma replaceWhiteRunsFrom_steps n m inRun s :
  (String.length s <= n)%nat -> (String.length s <= m)%nat ->
  replaceWhiteRunsFrom n inRun s = replaceWhiteRunsFrom m inRun s.
Proof.
  revert m inRun s. induction n as [|n IH]; intros m inRun s Hn Hm.
  - destruct s; [|simpl in Hn; lia]. by destruct m.
  - destruct m as [|m].
    + destruct s; [|simpl in Hm; lia]. reflexivity.
    + simpl. destruct (whiteSpaceAt s) as [rest|] eqn:E.
      * pose proof (whiteSpaceAt_shorter _ _ E).
        rewrite (IH m true rest) by lia. reflexivity.
      * destruct s as [|c rest]; [reflexivity|]. simpl in Hn, Hm.
        rewrite (IH m false rest) by lia. reflexivity.
Qed.

Lemma replaceWhiteRunsFrom_white inRun s rest :
  whiteSpaceAt s = Some rest ->
  replaceWhiteRunsFrom (String.length s) inRun s
  = (if inRun then "" else "_")
    +:+ replaceWhiteRunsFrom (String.length rest) true rest.
Proof.
  intros E. pose proof (whiteSpaceAt_shorter _ _ E) as Hlen.
  destruct (String.length s) as [|n] eqn:En; [lia|].
  simpl. rewrite E.
  rewrite (replaceWhiteRunsFrom_steps n (String.length rest)) by lia.
  by destruct inRun.
Qed.

Lemma replaceWhiteRunsFrom_other inRun c rest :
  whiteSpaceAt (String c rest) = None ->
  replaceWhiteRunsFrom (String.length (String c rest)) inRun (String c rest)
  = String c (replaceWhiteRunsFrom (String.length rest) false rest).
Proof. intros E. simpl. by rewrite E. Qed.

(** The underscore is no byte of a white space character. *)
Lemma whiteSpaces_no_underscore :
  Forall (fun codePoint => hasChar "_" (utf8 codePoint) = false) whiteSpaces.
Proof. repeat constructor. Qed.

(** A text without underscore that begins the result begins the text. *)
Lemma replaceWhiteRunsFrom_prefix p n s t :
  hasChar "_" p = false ->
  afterPrefix p (replaceWhiteRunsFrom n false s) = Some t ->
  exists t', afterPrefix p s = Some t'.
Proof.
  revert n s t. induction p as [|a p IH]; intros n s t Hp; [simpl; eauto|].
  simpl in Hp. apply orb_false_iff in Hp as [Ha Hp].
  destruct n as [|n]; [discriminate|]. simpl.
  destruct (whiteSpaceAt s) as [rest|] eqn:E.
  - simpl. by rewrite Ha.
  - destruct s as [|c rest]; [discriminate|]. simpl.
    destruct (Ascii.eqb a c); [|discriminate]. by apply IH.
Qed.

(** No white space begins anywhere in the result. *)
Lemma replaceWhiteRunsFrom_no_white n inRun s :
  allAt noWhiteSpaceAt (replaceWhiteRunsFrom n inRun s) = true.
Proof.
  revert inRun s. induction n as [|n IH]; intros inRun s; [reflexivity|].
  simpl. destruct (whiteSpaceAt s) as [rest|] eqn:E.
  - destruct inRun; [apply IH|].
    change (noWhiteSpaceAt (String "_" (replaceWhiteRunsFrom n true rest))
            && allAt noWhiteSpaceAt (replaceWhiteRunsFrom n true rest) = true).
    by rewrite IH.
  - destruct s as [|c rest]; [reflexivity|].
    change (noWhiteSpaceAt (String c (replaceWhiteRunsFrom n false rest))
            && allAt noWhiteSpaceAt (replaceWhiteRunsFrom n false rest) = true).
    rewrite IH, andb_true_r. unfold noWhiteSpaceAt.
    destruct (whiteSpaceAt (String c (replaceWhiteRunsFrom n false rest)))
      as [t|] eqn:E'; [exfalso|reflexivity].
    apply whiteSpaceAt_Some in E' as (cp & Hcp & Heq).
    pose proof whiteSpaces_no_underscore as Hno.
    rewrite Forall_forall in Hno. specialize (Hno cp Hcp).
    destruct (utf8 cp) as [|a p] eqn:Ecp.
    { apply (f_equal String.length) in Ecp. revert Ecp.
      unfold utf8. repeat case_match; discriminate. }
    change (String a p +:+ t) with (String a (p +:+ t)) in Heq.
    injection Heq as <- Heq.
    simpl in Hno. apply orb_false_iff in Hno as [_ Hp].
    destruct (replaceWhiteRunsFrom_prefix p n rest t Hp) as [t' Ht'].
    { rewrite Heq. apply afterPrefix_append. }
    apply afterPrefix_Some in Ht'. subst rest.
    change (String c (p +:+ t')) with (String c p +:+ t') in E.
    rewrite <- Ecp in E. by rewrite whiteSpaceAt_append in E.
Qed.

(** A text in which no white space begins is left as it is. *)
Lemma replaceWhiteRunsFrom_same inRun s :
  allAt noWhiteSpaceAt s = true ->
  replaceWhiteRunsFrom (String.length s) inRun s = s.
Proof.
  revert inRun. induction s as [|c rest IH]; intros inRun Hs; [reflexivity|].
  change (noWhiteSpaceAt (String c rest) && allAt noWhiteSpaceAt rest = true)
    in Hs.
  apply andb_true_iff in Hs as [Hc Hrest]. unfold noWhiteSpaceAt in Hc.
  destruct (whiteSpaceAt (String c rest)) eqn:E; [discriminate|].
  rewrite replaceWhiteRunsFrom_other by done. f_equal. by apply IH.
Qed.

(** White space before a text is one run with the white space that
    precedes it. *)
Lemma replaceWhiteRunsFrom_blank n ws rest :
  trimStartFrom n ws = "" ->
  replaceWhiteRunsFrom (String.length (ws +:+ rest)) true (ws +:+ rest)
  = replaceWhiteRunsFrom (String.length rest) true rest.
Proof.
  revert ws. induction n as [|n IH]; intros ws; simpl; [by intros ->|].
  destruct (whiteSpaceAt ws) as [ws'|] eqn:E; [|by intros ->].
  intros Hws'. apply whiteSpaceAt_Some in E as (cp & Hcp & ->).
  rewrite append_assoc.
  rewrite (replaceWhiteRunsFrom_white true _ (ws' +:+ rest))
    by (by apply whiteSpaceAt_append).
  by apply IH.
Qed.

Lemma replaceWhiteRunsFrom_run inRun ws rest :
  ws <> "" -> blank ws = true ->
  replaceWhiteRunsFrom (String.length (ws +:+ rest)) inRun (ws +:+ rest)
  = (if inRun then "" else "_")
    +:+ replaceWhiteRunsFrom (String.length rest) true rest.
Proof.
  unfold blank, trimStart. intros Hne Hws%String.eqb_eq.
  destruct (String.length ws) as [|n] eqn:En.
  { destruct ws; [done | discriminate]. }
  simpl in Hws. destruct (whiteSpaceAt ws) as [ws'|] eqn:E; [|done].
  apply whiteSpaceAt_Some in E as (cp & Hcp & ->).
  rewrite append_assoc.
  rewrite (replaceWhiteRunsFrom_white inRun _ (ws' +:+ rest))
    by (by apply whiteSpaceAt_append).
  by rewrite (replaceWhiteRunsFrom_blank n ws' rest Hws).
Qed.

(** The result after an ASCII text is made of the result of what follows. *)
Lemma replaceWhiteRunsFrom_after a t1 t2 :
  asciiText a = true ->
  (forall inRun,
     replaceWhiteRunsFrom (String.length t1) inRun t1
     = replaceWhiteRunsFrom (String.length t2) inRun t2) ->
  forall inRun,
    replaceWhiteRunsFrom (String.length (a +:+ t1)) inRun (a +:+ t1)
    = replaceWhiteRunsFrom (String.length (a +:+ t2)) inRun (a +:+ t2).
Proof.
  intros Ha Hsame. induction a as [|c a' IH]; intros inRun; [apply Hsame|].
  unfold asciiText in Ha. simpl in Ha. apply andb_true_iff in Ha as [Hc Ha'].
  change (String c a' +:+ t1) with (String c (a' +:+ t1)).
  change (String c a' +:+ t2) with (String c (a' +:+ t2)).
  destruct (whiteSpaceAt_ascii c Hc) as [Hw|Hw].
  - rewrite !(replaceWhiteRunsFrom_white inRun _ _ (Hw _)). by rewrite IH.
  - rewrite !(replaceWhiteRunsFrom_other inRun _ _ (Hw _)). by rewrite IH.
Qed.

(** X18. The replacement that makes a player's identifier from the name
    leaves a text in which no white space begins anywhere, and it leaves
    every text without white space as it is, so that replacing twice is
    replacing once; and two names that differ only in one run of white
    space, by its length or by its characters of the whole class of [\s],
    after the same ASCII beginning, get the same identifier. *)
Theorem nameReplace_merges_white_space a ws1 ws2 b :
  asciiText a = true ->
  ws1 <> "" -> ws2 <> "" -> blank ws1 = true -> blank ws2 = true ->
  nameReplace (JStr (a +:+ ws1 +:+ b)) = nameReplace (JStr (a +:+ ws2 +:+ b)) /\
  (forall s, exists r,
     nameReplace (JStr s) = Ok r /\ allAt noWhiteSpaceAt r = true) /\
  (forall s, allAt noWhiteSpaceAt s = true -> nameReplace (JStr s) = Ok s).
Proof.
  intros Ha Hne1 Hne2 Hws1 Hws2. split_and!.
  - unfold nameReplace, replaceWhiteRuns. f_equal.
    apply replaceWhiteRunsFrom_after; [done|]. intros inRun.
    by rewrite !replaceWhiteRunsFrom_run.
  - intros s. exists (replaceWhiteRuns s). split; [reflexivity|].
    apply replaceWhiteRunsFrom_no_white.
  - intros s Hs. unfold nameReplace, replaceWhiteRuns. f_equal.
    by apply replaceWhiteRunsFrom_same.
Qed.

Lemma nameReplace_merges_white_space_witness :
  nameReplace (JStr ("MS" +:+ " " +:+ "Dhoni"))
    = nameReplace (JStr ("MS" +:+ (String "009" (utf8 160)) +:+ "Dhoni")) /\
  (forall s, exists r,
     nameReplace (JStr s) = Ok r /\ allAt noWhiteSpaceAt r = true) /\
  (forall s, allAt noWhiteSpaceAt s = true -> nameReplace (JStr s) = Ok s).
Proof.
  apply (nameReplace_merges_white_space "MS" " " (String "009" (utf8 160))
           "Dhoni"); done.
Defined.
